(** * custom::list — a doubly-linked list with bidirectional iterators

    Shallow embedding of [list.h] (namespace [custom]) and the proofs of the
    properties its specification states.

    The C++ free store is a finite map from node addresses to nodes; the
    null pointer is [None]. Member functions are computations in a state and
    error monad over that store: they receive the fields of [*this] as a
    record and return the updated record. *)

From Stdlib Require Import ZArith String.
From stdpp Require Import base option list gmap.

Local Open Scope Z_scope.

(** ** Machine integers *)

(** [size_t] is an unsigned 64-bit integer: arithmetic wraps modulo 2^64. *)
Definition wrap64 (z : Z) : Z := z mod 2 ^ 64.

(** Largest value of the C++ type [int]. *)
Definition INT_MAX : Z := 2 ^ 31 - 1.

(** ** Pointers, nodes and the free store *)

(** A node address. *)
Definition loc := positive.

(** [Node *]: an address or [nullptr]. *)
Definition ptr := option loc.

(** Number of nodes that can be live at once: the non-null 64-bit addresses.
    [new] throws [std::bad_alloc] when the store is full. *)
Definition max_nodes : Z := 2 ^ 64 - 1.

(** How a computation can fail to return. *)
Inductive error : Type :=
| Throw (msg : string)   (* [throw "..."] *)
| BadAlloc               (* [std::bad_alloc] raised by [new] *)
| AssertFail             (* a failed [assert] *)
| UB                     (* access through a null or dangling pointer, signed overflow *)
| OutOfFuel.             (* a loop over a cyclic chain of nodes *)

Inductive result (A : Type) : Type :=
| Ok (a : A)
| Err (e : error).
Arguments Ok {A} a.
Arguments Err {A} e.

(** The message both [front]/[back] and [operator*] throw. *)
Definition empty_list_msg : string :=
  "ERROR: unable to access data from an empty list".

(** [list <T>]: the three member variables. *)
Record List : Type := mkList {
  numElements : Z;   (* size_t *)
  pHead : ptr;
  pTail : ptr
}.

(** [list <T> :: iterator]: the single member [p]. *)
Record iterator : Type := mkIt { p : ptr }.

Module custom.

(** [list <T> :: Node] *)
Record Node (T : Type) : Type := mkNode {
  data : T;
  pNext : ptr;
  pPrev : ptr
}.
Arguments mkNode {T} data pNext pPrev.
Arguments data {T} n.
Arguments pNext {T} n.
Arguments pPrev {T} n.

(** ** The monad *)

(** A computation over the free store of nodes holding elements of [T]. *)
Definition M (T A : Type) : Type :=
  gmap loc (Node T) → result (A * gmap loc (Node T)).

Definition ret {T A} (a : A) : M T A := λ h, Ok (a, h).

Definition bind {T A B} (m : M T A) (k : A → M T B) : M T B :=
  λ h, match m h with
       | Ok (a, h') => k a h'
       | Err e => Err e
       end.

Definition fail {T A} (e : error) : M T A := λ _, Err e.

Notation "'let*' x ':=' m 'in' k" := (bind m (λ x, k))
  (at level 10, x pattern, m at level 200, k at level 200).

Section operations.

Context {T : Type}.

Local Abbreviation heap := (gmap loc (Node T)).

(** [throw "ERROR: ..."] *)
Definition throw {A} (msg : string) : M T A := fail (Throw msg).

(** [assert(b)] *)
Definition assert (b : bool) : M T unit :=
  if b then ret tt else fail AssertFail.

(** Number of live nodes; used as the bound of the loops over node chains. *)
Definition live : M T nat := λ h, Ok (base.size h, h).

(** [new Node(d)]: a fresh address holding a node with null links. *)
Definition new (d : T) : M T loc :=
  λ h, if bool_decide (Z.of_nat (base.size h) < max_nodes)
       then let a := fresh (dom h) in Ok (a, <[a := mkNode d None None]> h)
       else Err BadAlloc.

(** [delete a] *)
Definition delete_node (a : loc) : M T unit :=
  λ h, match h !! a with
       | Some _ => Ok (tt, delete a h)
       | None => Err UB
       end.

(** Reading the node behind a pointer. *)
Definition load (q : ptr) : M T (Node T) :=
  λ h, match q with
       | Some a => match h !! a with
                   | Some n => Ok (n, h)
                   | None => Err UB
                   end
       | None => Err UB
       end.

(** Writing one member of the node behind a pointer. *)
Definition modify (f : Node T → Node T) (q : ptr) : M T unit :=
  λ h, match q with
       | Some a => match h !! a with
                   | Some _ => Ok (tt, alter f a h)
                   | None => Err UB
                   end
       | None => Err UB
       end.

Definition with_data (d : T) (n : Node T) : Node T := mkNode d (pNext n) (pPrev n).
Definition with_pNext (q : ptr) (n : Node T) : Node T := mkNode (data n) q (pPrev n).
Definition with_pPrev (q : ptr) (n : Node T) : Node T := mkNode (data n) (pNext n) q.

(** [q->data], [q->pNext], [q->pPrev] as rvalues. *)
Definition get_data (q : ptr) : M T T := let* n := load q in ret (data n).
Definition get_pNext (q : ptr) : M T ptr := let* n := load q in ret (pNext n).
Definition get_pPrev (q : ptr) : M T ptr := let* n := load q in ret (pPrev n).

(** [q->data = d], [q->pNext = r], [q->pPrev = r]. *)
Definition set_data (q : ptr) (d : T) : M T unit := modify (with_data d) q.
Definition set_pNext (q : ptr) (r : ptr) : M T unit := modify (with_pNext r) q.
Definition set_pPrev (q : ptr) (r : ptr) : M T unit := modify (with_pPrev r) q.

(** A [T &] naming the [data] member of a node: the node's address. *)
Definition ref := loc.
Definition read_ref (r : ref) : M T T := get_data (Some r).
Definition write_ref (r : ref) (d : T) : M T unit := set_data (Some r) d.

(** Pointer comparison. *)
Definition ptr_eqb (q r : ptr) : bool := bool_decide (q = r).

(** ** The iterator *)

(** [iterator()] and [iterator(Node * p)] *)
Definition iterator_default : iterator := mkIt None.
Definition iterator_at (q : ptr) : iterator := mkIt q.

(** [operator ==] and [operator !=] *)
Definition it_eq (lhs rhs : iterator) : bool := ptr_eqb (p lhs) (p rhs).
Definition it_ne (lhs rhs : iterator) : bool := negb (ptr_eqb (p lhs) (p rhs)).

(** [operator *]: a reference to the node's element, or a throw. *)
Definition deref (it : iterator) : M T ref :=
  match p it with
  | Some a => ret a
  | None => throw empty_list_msg
  end.

(** Prefix [operator ++]: the result is [*this] after the move. *)
Definition pre_incr (it : iterator) : M T iterator :=
  match p it with
  | Some _ => let* q := get_pNext (p it) in ret (mkIt q)
  | None => ret it
  end.

(** Postfix [operator ++]: returns (the iterator returned by value,
    [*this] after the call). *)
Definition post_incr (it : iterator) : M T (iterator * iterator) :=
  let* this :=
    match p it with
    | Some _ => let* q := get_pNext (p it) in ret (mkIt q)
    | None => ret it
    end in
  ret (this, this).

(** Prefix [operator --] *)
Definition pre_decr (it : iterator) : M T iterator :=
  match p it with
  | Some _ => let* q := get_pPrev (p it) in ret (mkIt q)
  | None => ret it
  end.

(** Postfix [operator --]: returns (the iterator returned by value,
    [*this] after the call). *)
Definition post_decr (it : iterator) : M T (iterator * iterator) :=
  let* this :=
    match p it with
    | Some _ => let* q := get_pPrev (p it) in ret (mkIt q)
    | None => ret it
    end in
  ret (this, this).

(** ** The list: status, iterators, access *)

Definition size (this : List) : Z := numElements this.
Definition empty (this : List) : bool := size this =? 0.

Definition begin (this : List) : iterator := iterator_at (pHead this).
Definition rbegin (this : List) : iterator := iterator_at (pTail this).
Definition end_ (this : List) : iterator := iterator_default.

Definition front (this : List) : M T ref :=
  match pHead this with
  | Some a => ret a
  | None => throw empty_list_msg
  end.

Definition back (this : List) : M T ref :=
  match pTail this with
  | Some a => ret a
  | None => throw empty_list_msg
  end.

(** ** Insertion at the ends *)

(** [push_back(const T &)] *)
Definition push_back (d : T) (this : List) : M T List :=
  match pHead this with
  | None =>
      let* a := new d in
      ret (mkList (wrap64 (numElements this + 1)) (Some a) (Some a))
  | Some _ =>
      let* newElement := new d in
      let* _ := set_pPrev (Some newElement) (pTail this) in
      let* _ := set_pNext (pTail this) (Some newElement) in
      ret (mkList (wrap64 (numElements this + 1)) (pHead this) (Some newElement))
  end.

(** [push_back(T &&)]: inside the body [data] is an lvalue, so
    [new Node(data)] selects [Node(const T &)] and copies. *)
Definition push_back_move (d : T) (this : List) : M T List :=
  match pHead this with
  | None =>
      let* a := new d in
      ret (mkList (wrap64 (numElements this + 1)) (Some a) (Some a))
  | Some _ =>
      let* newElement := new d in
      let* _ := set_pPrev (Some newElement) (pTail this) in
      let* _ := set_pNext (pTail this) (Some newElement) in
      ret (mkList (wrap64 (numElements this + 1)) (pHead this) (Some newElement))
  end.

(** [push_front(const T &)] *)
Definition push_front (d : T) (this : List) : M T List :=
  match pTail this with
  | None =>
      let* a := new d in
      ret (mkList (wrap64 (numElements this + 1)) (Some a) (Some a))
  | Some _ =>
      let* newElement := new d in
      let* _ := set_pNext (Some newElement) (pHead this) in
      let* _ := set_pPrev (pHead this) (Some newElement) in
      ret (mkList (wrap64 (numElements this + 1)) (Some newElement) (pTail this))
  end.

(** [push_front(T &&)]: copies, as [push_back(T &&)] does. *)
Definition push_front_move (d : T) (this : List) : M T List :=
  match pTail this with
  | None =>
      let* a := new d in
      ret (mkList (wrap64 (numElements this + 1)) (Some a) (Some a))
  | Some _ =>
      let* newElement := new d in
      let* _ := set_pNext (Some newElement) (pHead this) in
      let* _ := set_pPrev (pHead this) (Some newElement) in
      ret (mkList (wrap64 (numElements this + 1)) (Some newElement) (pTail this))
  end.

(** ** Removal *)

(** [erase(const iterator &)]: returns the iterator and the updated list. *)
Definition erase (it : iterator) (this : List) : M T (iterator * List) :=
  match p it with
  | None => ret (iterator_at None, this)
  | Some _ =>
      (* take care of the previous node *)
      let* prv := get_pPrev (p it) in
      let* this1 :=
        match prv with
        | Some _ =>
            let* nxt := get_pNext (p it) in
            let* _ := set_pNext prv nxt in
            ret this
        | None =>
            let* _ := assert (ptr_eqb (p it) (pHead this)) in
            let* nxt := get_pNext (p it) in
            ret (mkList (numElements this) nxt (pTail this))
        end in
      (* take care of the next node *)
      let* nxt := get_pNext (p it) in
      let* this2 :=
        match nxt with
        | Some _ =>
            let* prv' := get_pPrev (p it) in
            let* _ := set_pPrev nxt prv' in
            ret this1
        | None =>
            let* _ := assert (ptr_eqb (p it) (pTail this1)) in
            let* prv' := get_pPrev (p it) in
            ret (mkList (numElements this1) (pHead this1) prv')
        end in
      let* nxt' := get_pNext (p it) in
      let pReturn := match nxt' with Some _ => nxt' | None => None end in
      let* _ := match p it with
                | Some a => delete_node a
                | None => ret tt
                end in
      ret (iterator_at pReturn,
           mkList (wrap64 (numElements this2 - 1)) (pHead this2) (pTail this2))
  end.

Definition pop_back (this : List) : M T List :=
  let* r := erase (iterator_at (pTail this)) this in
  ret (snd r).

Definition pop_front (this : List) : M T List :=
  let* r := erase (iterator_at (pHead this)) this in
  ret (snd r).

(** The loop of [clear]. Every round deletes a node, so a number of rounds
    above the number of live nodes is never reached. *)
Fixpoint clear_loop (fuel : nat) (this : List) : M T List :=
  match pHead this with
  | None => ret this
  | Some pDelete =>
      match fuel with
      | O => fail OutOfFuel
      | S fuel' =>
          let* nxt := get_pNext (pHead this) in
          let* _ := delete_node pDelete in
          clear_loop fuel'
            (mkList (wrap64 (numElements this - 1)) nxt (pTail this))
      end
  end.

Definition clear (this : List) : M T List :=
  let* n := live in
  let* this' := clear_loop (S n) this in
  ret (mkList (numElements this') (pHead this') None).

(** [~list()] *)
Definition destroy (this : List) : M T List := clear this.

(** [while (it.p) it = erase(it);] *)
Fixpoint erase_loop (fuel : nat) (it : iterator) (this : List)
  : M T (iterator * List) :=
  match p it with
  | None => ret (it, this)
  | Some _ =>
      match fuel with
      | O => fail OutOfFuel
      | S fuel' =>
          let* r := erase it this in
          erase_loop fuel' (fst r) (snd r)
      end
  end.

(** ** Insertion at a position *)

(** [insert(iterator, const T &)] *)
Definition insert (it : iterator) (d : T) (this : List)
  : M T (iterator * List) :=
  if empty this then
    let* a := new d in
    let this' := mkList 1 (Some a) (Some a) in
    ret (begin this', this')
  else if it_eq it (end_ this) then
    let* pNew := new d in
    let* _ := set_pNext (pTail this) (Some pNew) in
    let* _ := set_pPrev (Some pNew) (pTail this) in
    ret (iterator_at (Some pNew),
         mkList (wrap64 (numElements this + 1)) (pHead this) (Some pNew))
  else if it_ne it (end_ this) then
    let* pNew := new d in
    let* prv := get_pPrev (p it) in
    let* _ := set_pPrev (Some pNew) prv in
    let* _ := set_pNext (Some pNew) (p it) in
    let* prv' := get_pPrev (Some pNew) in
    let* this1 :=
      match prv' with
      | Some _ => let* _ := set_pNext prv' (Some pNew) in ret this
      | None => ret (mkList (numElements this) (Some pNew) (pTail this))
      end in
    let* nxt' := get_pNext (Some pNew) in
    let* this2 :=
      match nxt' with
      | Some _ => let* _ := set_pPrev nxt' (Some pNew) in ret this1
      | None => ret (mkList (numElements this1) (pHead this1) (Some pNew))
      end in
    ret (iterator_at (Some pNew),
         mkList (wrap64 (numElements this2 + 1)) (pHead this2) (pTail this2))
  else
    (* control falls off the end of a non-void function *)
    fail UB.

(** [insert(iterator, T &&)]: the node is move-constructed from the
    argument; the list is built the same way. *)
Definition insert_move (it : iterator) (d : T) (this : List)
  : M T (iterator * List) :=
  if empty this then
    let* a := new d in
    let this' := mkList 1 (Some a) (Some a) in
    ret (begin this', this')
  else if it_eq it (end_ this) then
    let* pNew := new d in
    let* _ := set_pNext (pTail this) (Some pNew) in
    let* _ := set_pPrev (Some pNew) (pTail this) in
    ret (iterator_at (Some pNew),
         mkList (wrap64 (numElements this + 1)) (pHead this) (Some pNew))
  else if it_ne it (end_ this) then
    let* pNew := new d in
    let* prv := get_pPrev (p it) in
    let* _ := set_pPrev (Some pNew) prv in
    let* _ := set_pNext (Some pNew) (p it) in
    let* prv' := get_pPrev (Some pNew) in
    let* this1 :=
      match prv' with
      | Some _ => let* _ := set_pNext prv' (Some pNew) in ret this
      | None => ret (mkList (numElements this) (Some pNew) (pTail this))
      end in
    let* nxt' := get_pNext (Some pNew) in
    let* this2 :=
      match nxt' with
      | Some _ => let* _ := set_pPrev nxt' (Some pNew) in ret this1
      | None => ret (mkList (numElements this1) (pHead this1) (Some pNew))
      end in
    ret (iterator_at (Some pNew),
         mkList (wrap64 (numElements this2 + 1)) (pHead this2) (pTail this2))
  else
    fail UB.

(** ** Assignment *)

(** First loop of the copy assignment:
    [while (itRhs != rhs.end() && itLhs != end())
       { *itLhs = *itRhs; ++itLhs; ++itRhs; }] *)
Fixpoint copy_overwrite (fuel : nat) (itRhs itLhs : iterator) (this rhs : List)
  : M T (iterator * iterator) :=
  if it_ne itRhs (end_ rhs) && it_ne itLhs (end_ this) then
    match fuel with
    | O => fail OutOfFuel
    | S fuel' =>
        let* src := deref itRhs in
        let* dst := deref itLhs in
        let* v := read_ref src in
        let* _ := write_ref dst v in
        let* itLhs' := pre_incr itLhs in
        let* itRhs' := pre_incr itRhs in
        copy_overwrite fuel' itRhs' itLhs' this rhs
    end
  else ret (itRhs, itLhs).

(** [while (itRhs != rhs.end()) { push_back( *itRhs ); ++itRhs; }] *)
Fixpoint copy_append (fuel : nat) (itRhs : iterator) (this rhs : List)
  : M T List :=
  if it_ne itRhs (end_ rhs) then
    match fuel with
    | O => fail OutOfFuel
    | S fuel' =>
        let* src := deref itRhs in
        let* v := read_ref src in
        let* this' := push_back v this in
        let* itRhs' := pre_incr itRhs in
        copy_append fuel' itRhs' this' rhs
    end
  else ret this.

(** [operator = (list & rhs)]: returns [*this]; the members of [rhs] are
    not written. *)
Definition assign_copy (this rhs : List) : M T List :=
  let itRhs := begin rhs in
  let itLhs := begin this in
  let* n := live in
  let* its := copy_overwrite (S n) itRhs itLhs this rhs in
  let itRhs := fst its in
  let itLhs := snd its in
  if it_ne itRhs (end_ rhs) then
    let* n := live in
    copy_append (S n) itRhs this rhs
  else if empty rhs then
    clear this
  else if it_ne itLhs (end_ this) then
    let* n := live in
    let* r := erase_loop (S n) itLhs this in
    ret (snd r)
  else ret this.

(** [*itLhs = std::move( *itRhs )]: [T]'s move assignment gives the
    destination the source's value and leaves the source object in the state
    [moved_from v]. *)
Definition move_assign_T (moved_from : T → T) (dst src : ref) : M T unit :=
  let* v := read_ref src in
  let* _ := write_ref src (moved_from v) in
  write_ref dst v.

(** First loop of the move assignment. *)
Fixpoint move_overwrite (moved_from : T → T) (fuel : nat)
    (itRhs itLhs : iterator) (this rhs : List)
  : M T (iterator * iterator) :=
  if it_ne itRhs (end_ rhs) && it_ne itLhs (end_ this) then
    match fuel with
    | O => fail OutOfFuel
    | S fuel' =>
        let* src := deref itRhs in
        let* dst := deref itLhs in
        let* _ := move_assign_T moved_from dst src in
        let* itLhs' := pre_incr itLhs in
        let* itRhs' := pre_incr itRhs in
        move_overwrite moved_from fuel' itRhs' itLhs' this rhs
    end
  else ret (itRhs, itLhs).

(** [while (itRhs != rhs.end()) { push_back(std::move( *itRhs )); ++itRhs; }] *)
Fixpoint move_append (fuel : nat) (itRhs : iterator) (this rhs : List)
  : M T List :=
  if it_ne itRhs (end_ rhs) then
    match fuel with
    | O => fail OutOfFuel
    | S fuel' =>
        let* src := deref itRhs in
        let* v := read_ref src in
        let* this' := push_back_move v this in
        let* itRhs' := pre_incr itRhs in
        move_append fuel' itRhs' this' rhs
    end
  else ret this.

(** [operator = (list && rhs)]: returns [*this]; the members of [rhs] are
    not written. *)
Definition assign_move (moved_from : T → T) (this rhs : List) : M T List :=
  let itRhs := begin rhs in
  let itLhs := begin this in
  let* n := live in
  let* its := move_overwrite moved_from (S n) itRhs itLhs this rhs in
  let itRhs := fst its in
  let itLhs := snd its in
  if it_ne itRhs (end_ rhs) then
    let* n := live in
    move_append (S n) itRhs this rhs
  else if empty rhs then
    clear this
  else if it_ne itLhs (end_ this) then
    let* n := live in
    let* r := erase_loop (S n) itLhs this in
    ret (snd r)
  else ret this.

(** The [for (auto item : rhs)] loop of the initializer-list assignment. *)
Fixpoint il_overwrite (rhs : list T) (itLhs : iterator) (this : List)
  : M T (iterator * List) :=
  match rhs with
  | [] => ret (itLhs, this)
  | item :: rhs' =>
      let* this' :=
        if it_eq itLhs (end_ this) then push_back item this
        else let* dst := deref itLhs in
             let* _ := write_ref dst item in
             ret this in
      let* r := post_incr itLhs in
      il_overwrite rhs' (snd r) this'
  end.

(** [operator = (const std::initializer_list<T> &)] *)
Definition assign_il (this : List) (rhs : list T) : M T List :=
  let itLhs := begin this in
  let* r := il_overwrite rhs itLhs this in
  let itLhs := fst r in
  let this := snd r in
  if it_ne itLhs (end_ this) then
    let* n := live in
    let* r' := erase_loop (S n) itLhs this in
    ret (snd r')
  else ret this.

(** [swap]: the member and the free function exchange the same three
    members. Returns ([*this], [rhs]). *)
Definition swap (this rhs : List) : List * List :=
  (mkList (numElements rhs) (pHead rhs) (pTail rhs),
   mkList (numElements this) (pHead this) (pTail this)).

Definition swap_free (lhs rhs : List) : List * List :=
  (mkList (numElements rhs) (pHead rhs) (pTail rhs),
   mkList (numElements lhs) (pHead lhs) (pTail lhs)).

(** ** Construction *)

(** [list()] *)
Definition list_default : List := mkList 0 None None.

(** The loop [for (int i = 0; i < num; i++) push_back(t);] of the fill
    constructors. [i] is an [int] compared with a [size_t]; incrementing it
    past [INT_MAX] is undefined. *)
Fixpoint fill_loop (fuel : nat) (i : Z) (num : Z) (t : T) (this : List)
  : M T List :=
  if wrap64 i <? num then
    match fuel with
    | O => fail OutOfFuel
    | S fuel' =>
        let* this' := push_back t this in
        if i =? INT_MAX then fail UB
        else fill_loop fuel' (i + 1) num t this'
    end
  else ret this.

(** [list(size_t num, const T & t)] *)
Definition list_fill (num : Z) (t : T) : M T List :=
  fill_loop (Z.to_nat num) 0 num t (mkList 0 None None).

(** [list(size_t num)]: the value pushed is [T()]. *)
Definition list_fill_default (T_default : T) (num : Z) : M T List :=
  fill_loop (Z.to_nat num) 0 num T_default (mkList 0 None None).

(** The loop [for (it = first; it != last; it++) push_back( *it );] over a
    source sequence. *)
Fixpoint push_back_all (src : list T) (this : List) : M T List :=
  match src with
  | [] => ret this
  | x :: src' =>
      let* this' := push_back x this in
      push_back_all src' this'
  end.

(** [list(const std::initializer_list<T> &)] *)
Definition list_il (il : list T) : M T List :=
  push_back_all il (mkList 0 None None).

(** [list(Iterator first, Iterator last)]: the range is given by the
    sequence of elements it denotes. *)
Definition list_range (range : list T) : M T List :=
  push_back_all range (mkList 0 None None).

(** [list(list & rhs)] *)
Definition list_copy (rhs : List) : M T List :=
  assign_copy (mkList 0 None None) rhs.

(** [list(list && rhs)]: returns ([*this], [rhs]). *)
Definition list_move (rhs : List) : List * List :=
  (mkList (numElements rhs) (pHead rhs) (pTail rhs),
   mkList 0 None None).

(** ** Walking a list with an iterator *)

(** [for (it = first; it != end(); ++it) out.push_back( *it );] *)
Fixpoint walk_forward (fuel : nat) (it : iterator) : M T (list T) :=
  if it_ne it iterator_default then
    match fuel with
    | O => fail OutOfFuel
    | S fuel' =>
        let* r := deref it in
        let* v := read_ref r in
        let* it' := pre_incr it in
        let* rest := walk_forward fuel' it' in
        ret (v :: rest)
    end
  else ret [].

(** [for (it = first; it != end(); --it) out.push_back( *it );] *)
Fixpoint walk_backward (fuel : nat) (it : iterator) : M T (list T) :=
  if it_ne it iterator_default then
    match fuel with
    | O => fail OutOfFuel
    | S fuel' =>
        let* r := deref it in
        let* v := read_ref r in
        let* it' := pre_decr it in
        let* rest := walk_backward fuel' it' in
        ret (v :: rest)
    end
  else ret [].

(** The elements of a list, front to back and back to front. *)
Definition to_list (this : List) : M T (list T) :=
  let* n := live in walk_forward (S n) (begin this).

Definition to_list_rev (this : List) : M T (list T) :=
  let* n := live in walk_backward (S n) (rbegin this).


(** ** Representation: a chain of nodes and the sequence it holds *)

(** Address of the first entry, or [dflt] when there is none. *)
Definition first_or (dflt : ptr) (xs : list (loc * T)) : ptr :=
  match xs with
  | [] => dflt
  | x :: _ => Some (fst x)
  end.

(** Address of the last entry, or [dflt] when there is none. *)
Definition last_or (dflt : ptr) (xs : list (loc * T)) : ptr :=
  match last xs with
  | Some x => Some (fst x)
  | None => dflt
  end.

(** [seg h prv xs nxt]: the entries of [xs] (address and element) are live
    nodes linked in both directions; the first one's [pPrev] is [prv] and the
    last one's [pNext] is [nxt]. *)
Fixpoint seg (h : heap) (prv : ptr) (xs : list (loc * T)) (nxt : ptr) : Prop :=
  match xs with
  | [] => True
  | x :: xs' =>
      h !! fst x = Some (mkNode (snd x) (first_or nxt xs') prv)
      ∧ seg h (Some (fst x)) xs' nxt
  end.

(** The list object [l] owns exactly the nodes [xs], in this order. *)
Definition is_list (h : heap) (l : List) (xs : list (loc * T)) : Prop :=
  seg h None xs None
  ∧ NoDup xs.*1
  ∧ pHead l = first_or None xs
  ∧ pTail l = last_or None xs
  ∧ numElements l = Z.of_nat (length xs)
  ∧ Z.of_nat (length xs) ≤ max_nodes.

(** [m] run in [h] returns a result that satisfies [Q], or throws
    [std::bad_alloc] because the store has no room for the [need] nodes it
    allocates. *)
Definition returns {A} (need : nat) (m : M T A) (h : heap)
    (Q : A → heap → Prop) : Prop :=
  match m h with
  | Ok (a, h') => Q a h'
  | Err e => e = BadAlloc ∧ max_nodes < Z.of_nat (base.size h + need)
  end.

(** Live nodes outside [ps] are the same in [h'] as in [h]. *)
Definition frame (ps : list loc) (h h' : heap) : Prop :=
  ∀ b, b ∉ ps → is_Some (h !! b) → h' !! b = h !! b.

(** Every address of [ps'] is one of [ps] or was not live in [h]. *)
Definition grown_from (h : heap) (ps ps' : list loc) : Prop :=
  ∀ b, b ∈ ps' → b ∈ ps ∨ h !! b = None.


(** The chain [l2] after its leading elements were overwritten, in order,
    by the values [vs]. *)
Fixpoint overwritten (l2 : list (loc * T)) (vs : list T) : list (loc * T) :=
  match l2, vs with
  | x :: l2', v :: vs' => (fst x, v) :: overwritten l2' vs'
  | _, _ => l2
  end.

(** The chain [r2] after its first [n] elements were moved from. *)
Fixpoint moved_prefix (moved_from : T → T) (n : nat) (r2 : list (loc * T))
  : list (loc * T) :=
  match n, r2 with
  | S n', x :: r2' => (fst x, moved_from (snd x)) :: moved_prefix moved_from n' r2'
  | _, _ => r2
  end.

(** The addresses met from [q] by following [pNext] up to the null pointer. *)
Fixpoint path (h : heap) (q : ptr) (ps : list loc) : Prop :=
  match ps with
  | [] => q = None
  | a :: ps' => q = Some a ∧ ∃ n, h !! a = Some n ∧ path h (pNext n) ps'
  end.

(** ** Programs over several list objects *)

(** The free store and the list objects of a program, named by position. *)
Record world : Type := mkWorld {
  store : heap;
  vars : list List
}.

(** [begin()] moved forward [k] times. *)
Fixpoint advance (k : nat) (it : iterator) : M T iterator :=
  match k with
  | O => ret it
  | S k' => let* it' := pre_incr it in advance k' it'
  end.

(** The operations a client performs. Positions are iterators obtained
    from [begin()] by [k] increments, so they name a node of the list or
    are the end iterator. *)
Inductive op : Type :=
| Construct
| ConstructFill (num : Z) (t : T)
| ConstructIl (il : list T)
| ConstructRange (range : list T)
| ConstructCopy (y : nat)
| ConstructMove (y : nat)
| PushFront (x : nat) (d : T)
| PushFrontMove (x : nat) (d : T)
| PushBack (x : nat) (d : T)
| PushBackMove (x : nat) (d : T)
| PopFront (x : nat)
| PopBack (x : nat)
| Insert (x : nat) (k : nat) (d : T)
| InsertMove (x : nat) (k : nat) (d : T)
| Erase (x : nat) (k : nat)
| Clear (x : nat)
| AssignCopy (x y : nat)
| AssignMove (x y : nat)
| AssignIl (x : nat) (il : list T)
| Swap (x y : nat)
| SwapFree (x y : nat).

(** A constructor adds an object. *)
Definition construct (m : M T List) (w : world) : result world :=
  match m (store w) with
  | Ok (l, h') => Ok (mkWorld h' (vars w ++ [l]))
  | Err e => Err e
  end.

(** A member function of object [x]. A name that denotes no object makes
    the program ill-formed. *)
Definition member (x : nat) (f : List → M T List) (w : world) : result world :=
  match vars w !! x with
  | Some l =>
      match f l (store w) with
      | Ok (l', h') => Ok (mkWorld h' (<[x := l']> (vars w)))
      | Err e => Err e
      end
  | None => Err UB
  end.

(** A member function of object [x] that reads object [y]. The members of
    [y] are read only while those of [x] still have their initial values, so
    [x] and [y] may be the same object. *)
Definition member2 (x y : nat) (f : List → List → M T List) (w : world)
  : result world :=
  match vars w !! y with
  | Some r => member x (λ l, f l r) w
  | None => Err UB
  end.

(** An exchange of the members of [x] and [y]. *)
Definition exchange (x y : nat) (f : List → List → List * List) (w : world)
  : result world :=
  match vars w !! x, vars w !! y with
  | Some l, Some r =>
      Ok (mkWorld (store w) (<[y := snd (f l r)]> (<[x := fst (f l r)]> (vars w))))
  | _, _ => Err UB
  end.

Definition step (moved_from : T → T) (o : op) (w : world) : result world :=
  match o with
  | Construct => construct (ret list_default) w
  | ConstructFill num t => construct (list_fill num t) w
  | ConstructIl il => construct (list_il il) w
  | ConstructRange range => construct (list_range range) w
  | ConstructCopy y =>
      match vars w !! y with
      | Some r => construct (list_copy r) w
      | None => Err UB
      end
  | ConstructMove y =>
      match vars w !! y with
      | Some r =>
          Ok (mkWorld (store w)
                (<[y := snd (list_move r)]> (vars w) ++ [fst (list_move r)]))
      | None => Err UB
      end
  | PushFront x d => member x (push_front d) w
  | PushFrontMove x d => member x (push_front_move d) w
  | PushBack x d => member x (push_back d) w
  | PushBackMove x d => member x (push_back_move d) w
  | PopFront x => member x pop_front w
  | PopBack x => member x pop_back w
  | Insert x k d =>
      member x (λ l, let* it := advance k (begin l) in
                     let* r := insert it d l in ret (snd r)) w
  | InsertMove x k d =>
      member x (λ l, let* it := advance k (begin l) in
                     let* r := insert_move it d l in ret (snd r)) w
  | Erase x k =>
      member x (λ l, let* it := advance k (begin l) in
                     let* r := erase it l in ret (snd r)) w
  | Clear x => member x clear w
  | AssignCopy x y => member2 x y assign_copy w
  | AssignMove x y => member2 x y (assign_move moved_from) w
  | AssignIl x il => member x (λ l, assign_il l il) w
  | Swap x y => exchange x y swap w
  | SwapFree x y => exchange x y swap_free w
  end.

(** A program: a sequence of operations. *)
Fixpoint run (moved_from : T → T) (ops : list op) (w : world) : result world :=
  match ops with
  | [] => Ok w
  | o :: ops' =>
      match step moved_from o w with
      | Ok w' => run moved_from ops' w'
      | Err e => Err e
      end
  end.

Definition init : world := mkWorld ∅ [].

(** The objects an operation may write to, besides the one it constructs. *)
Definition targets (o : op) : list nat :=
  match o with
  | Construct | ConstructFill _ _ | ConstructIl _ | ConstructRange _
  | ConstructCopy _ => []
  | ConstructMove y => [y]
  | PushFront x _ | PushFrontMove x _ | PushBack x _ | PushBackMove x _
  | PopFront x | PopBack x | Insert x _ _ | InsertMove x _ _ | Erase x _
  | Clear x | AssignCopy x _ | AssignIl x _ => [x]
  | AssignMove x y | Swap x y | SwapFree x y => [x; y]
  end.

(** The elements of object [x], read by walking it front to back. *)
Definition contents (w : world) (x : nat) : option (list T) :=
  match vars w !! x with
  | Some l =>
      match to_list l (store w) with
      | Ok (vs, _) => Some vs
      | Err _ => None
      end
  | None => None
  end.

(** The representation of a whole world: one chain per object, on
    pairwise disjoint nodes. *)
Definition repr (w : world) (xss : list (list (loc * T))) : Prop :=
  length (vars w) = length xss
  ∧ (∀ i l xs, vars w !! i = Some l → xss !! i = Some xs →
       is_list (store w) l xs)
  ∧ (∀ i j xs ys, i ≠ j → xss !! i = Some xs → xss !! j = Some ys →
       xs.*1 ## ys.*1).

(** What a member function of one list object does to the store: it keeps
    the object a list, writes only to the object's nodes, and adds only
    nodes that were not live. *)
Definition local_ok (f : List → M T List) : Prop :=
  ∀ h l xs l' h',
    is_list h l xs → f l h = Ok (l', h') →
    ∃ xs', is_list h' l' xs' ∧ frame xs.*1 h h' ∧ grown_from h xs.*1 xs'.*1.

(** What a constructor does to the store: it builds a list on nodes that
    were not live. *)
Definition construct_ok (m : M T List) : Prop :=
  ∀ h l' h', m h = Ok (l', h') →
    ∃ xs', is_list h' l' xs' ∧ frame [] h h' ∧ grown_from h [] xs'.*1.

(** The same for a member function that also receives a second, different
    list object, whose nodes it may write to but not add or drop. *)
Definition local2_ok (f : List → List → M T List) : Prop :=
  ∀ h l r xs ys l' h',
    is_list h l xs → is_list h r ys → xs.*1 ## ys.*1 →
    f l r h = Ok (l', h') →
    ∃ xs' ys',
      is_list h' l' xs' ∧ is_list h' r ys' ∧ ys'.*1 = ys.*1
      ∧ frame (xs.*1 ++ ys.*1) h h' ∧ grown_from h xs.*1 xs'.*1.

(** ** The range constructor on the iterators of a list *)

(** The loop [for (auto it = first; it != last; it++) push_back( *it );] of
    [list(Iterator first, Iterator last)] with [Iterator] the iterator of
    this class. *)
Fixpoint range_loop (fuel : nat) (it last : iterator) (this : List) : M T List :=
  if it_ne it last then
    match fuel with
    | O => fail OutOfFuel
    | S fuel' =>
        let* src := deref it in
        let* v := read_ref src in
        let* this' := push_back v this in
        let* r := post_incr it in
        range_loop fuel' (snd r) last this'
    end
  else ret this.

Definition list_range_iter (first last : iterator) : M T List :=
  let* n := live in
  range_loop (S n) first last (mkList 0 None None).

(** ** Accounting of nodes and the end of a scope *)

(** Sum of [size()] over the list objects of a program. *)
Definition total_size (vs : list List) : Z := foldr (λ l s, size l + s) 0 vs.

(** Every live node is counted by exactly one list object. *)
Definition balanced (w : world) : Prop :=
  Z.of_nat (base.size (store w)) = total_size (vars w).

(** A member function changes the number of live nodes by as much as it
    changes the count of its object. *)
Definition counts_ok (f : List → M T List) : Prop :=
  ∀ h l xs l' h',
    is_list h l xs → f l h = Ok (l', h') →
    Z.of_nat (base.size h') + size l = Z.of_nat (base.size h) + size l'.

(** The destructors [~list()] of a sequence of objects, first to last. *)
Fixpoint destroy_all (vs : list List) : M T unit :=
  match vs with
  | [] => ret tt
  | l :: vs' => let* _ := destroy l in destroy_all vs'
  end.

(** The end of the scope of a program: its objects are destroyed in the
    reverse order of their construction. *)
Definition exit_scope (w : world) : result (unit * heap) :=
  destroy_all (reverse (vars w)) (store w).

End operations.

(** ** Sample data

    A store holding two lists of integers, [[9, 9]] on the nodes 1 and 2
    and [[1, 2, 3]] on the nodes 3, 4 and 5, on which the statements proved
    below are exercised. *)
Definition sample_store : gmap loc (Node Z) :=
  <[1%positive := mkNode 9 (Some 2%positive) None]>
    (<[2%positive := mkNode 9 None (Some 1%positive)]>
       (<[3%positive := mkNode 1 (Some 4%positive) None]>
          (<[4%positive := mkNode 2 (Some 5%positive) (Some 3%positive)]>
             (<[5%positive := mkNode 3 None (Some 4%positive)]> ∅)))).

Definition nines : List := mkList 2 (Some 1%positive) (Some 2%positive).
Definition digits : List := mkList 3 (Some 3%positive) (Some 5%positive).

Definition nines_nodes : list (loc * Z) := [(1%positive, 9); (2%positive, 9)].
Definition digits_nodes : list (loc * Z) :=
  [(3%positive, 1); (4%positive, 2); (5%positive, 3)].

Definition sample_world : world := mkWorld sample_store [nines; digits].

(** ** Proofs *)

Section basics.

Context {T : Type}.

Local Abbreviation heap := (gmap loc (Node T)).
Implicit Types (h : gmap loc (Node T)) (v : T).
Implicit Types (xs ys : list (loc * T)).

(** *** Running the primitives *)

Lemma bind_ok {A B} (m : M T A) (k : A → M T B) h a h' :
  m h = Ok (a, h') → bind m k h = k a h'.
Proof. unfold bind. by intros ->. Qed.

Lemma bind_err {A B} (m : M T A) (k : A → M T B) h e :
  m h = Err e → bind m k h = Err e.
Proof. unfold bind. by intros ->. Qed.

Lemma bind_inv {A B} (m : M T A) (k : A → M T B) h b h2 :
  bind m k h = Ok (b, h2) → ∃ a h1, m h = Ok (a, h1) ∧ k a h1 = Ok (b, h2).
Proof.
  unfold bind. destruct (m h) as [[a h1]|e]; [|done]. intros ?. by exists a, h1.
Qed.

Lemma new_ok d h :
  Z.of_nat (base.size h) < max_nodes →
  new d h = Ok (fresh (dom h), <[fresh (dom h) := mkNode d None None]> h).
Proof. intros Hlt. unfold new. by rewrite bool_decide_eq_true_2. Qed.

Lemma fresh_dead (h : heap) : h !! fresh (dom h) = None.
Proof. apply not_elem_of_dom, is_fresh. Qed.

Lemma load_ok a n h : h !! a = Some n → load (Some a) h = Ok (n, h).
Proof. unfold load. by intros ->. Qed.

Lemma get_data_ok a n h : h !! a = Some n → get_data (Some a) h = Ok (data n, h).
Proof. intros H. unfold get_data. by rewrite (bind_ok _ _ _ _ _ (load_ok _ _ _ H)). Qed.

Lemma get_pNext_ok a n h : h !! a = Some n → get_pNext (Some a) h = Ok (pNext n, h).
Proof. intros H. unfold get_pNext. by rewrite (bind_ok _ _ _ _ _ (load_ok _ _ _ H)). Qed.

Lemma get_pPrev_ok a n h : h !! a = Some n → get_pPrev (Some a) h = Ok (pPrev n, h).
Proof. intros H. unfold get_pPrev. by rewrite (bind_ok _ _ _ _ _ (load_ok _ _ _ H)). Qed.

Lemma alter_as_insert (f : Node T → Node T) a n (h : heap) :
  h !! a = Some n → alter f a h = <[a := f n]> h.
Proof.
  intros H. apply map_eq. intros b. rewrite lookup_alter, lookup_insert.
  case_decide; subst; by rewrite ?H.
Qed.

Lemma modify_ok f a n h :
  h !! a = Some n → modify f (Some a) h = Ok (tt, <[a := f n]> h).
Proof. intros H. unfold modify. by rewrite H, (alter_as_insert _ _ _ _ H). Qed.

Lemma set_data_ok a n d h :
  h !! a = Some n →
  set_data (Some a) d h = Ok (tt, <[a := mkNode d (pNext n) (pPrev n)]> h).
Proof. apply modify_ok. Qed.

Lemma set_pNext_ok a n q h :
  h !! a = Some n →
  set_pNext (Some a) q h = Ok (tt, <[a := mkNode (data n) q (pPrev n)]> h).
Proof. apply modify_ok. Qed.

Lemma set_pPrev_ok a n q h :
  h !! a = Some n →
  set_pPrev (Some a) q h = Ok (tt, <[a := mkNode (data n) (pNext n) q]> h).
Proof. apply modify_ok. Qed.

Lemma delete_node_ok a n h :
  h !! a = Some n → delete_node a h = Ok (tt, delete a h).
Proof. unfold delete_node. by intros ->. Qed.

(** *** Chains *)

Lemma first_or_app d (xs ys : list (loc * T)) :
  first_or d (xs ++ ys) = first_or (first_or d ys) xs.
Proof. by destruct xs. Qed.

Lemma last_or_app d (xs ys : list (loc * T)) :
  last_or d (xs ++ ys) = last_or (last_or d xs) ys.
Proof.
  unfold last_or. rewrite last_app. by destruct (last ys).
Qed.

Lemma last_or_snoc d (xs : list (loc * T)) x : last_or d (xs ++ [x]) = Some (fst x).
Proof. by rewrite last_or_app. Qed.

Lemma last_or_cons d (xs : list (loc * T)) x :
  last_or d (x :: xs) = last_or (Some (fst x)) xs.
Proof. exact (last_or_app d [x] xs). Qed.

Lemma last_or_nil d : last_or d ([] : list (loc * T)) = d.
Proof. done. Qed.

Lemma first_or_None_inv (xs : list (loc * T)) : first_or None xs = None → xs = [].
Proof. by destruct xs. Qed.

Lemma last_or_None_inv (xs : list (loc * T)) : last_or None xs = None → xs = [].
Proof.
  destruct xs as [|x xs] using rev_ind; [done|]. by rewrite last_or_snoc.
Qed.

Lemma seg_frame h h' prv xs nxt :
  seg h prv xs nxt →
  (∀ a, a ∈ xs.*1 → h' !! a = h !! a) →
  seg h' prv xs nxt.
Proof.
  revert prv. induction xs as [|x xs IH]; intros prv; simpl; [done|].
  intros [Hx Hxs] Hsame. split.
  - rewrite Hsame; [done|]. apply list_elem_of_here.
  - apply IH; [done|]. intros a Ha. apply Hsame. by apply list_elem_of_further.
Qed.

Lemma seg_app h prv xs ys nxt :
  seg h prv (xs ++ ys) nxt ↔
  seg h prv xs (first_or nxt ys) ∧ seg h (last_or prv xs) ys nxt.
Proof.
  revert prv. induction xs as [|x xs IH]; intros prv; simpl.
  - unfold last_or; simpl. tauto.
  - rewrite IH, first_or_app, last_or_cons. tauto.
Qed.

Lemma seg_live h prv xs nxt a :
  seg h prv xs nxt → a ∈ xs.*1 → is_Some (h !! a).
Proof.
  revert prv. induction xs as [|x xs IH]; intros prv; simpl.
  - intros _ Ha. by apply elem_of_nil in Ha.
  - intros [Hx Hxs] Ha. apply elem_of_cons in Ha as [->|Ha]; [by eexists|].
    by eapply IH.
Qed.

Lemma seg_lookup h prv xs nxt a v :
  seg h prv xs nxt → (a, v) ∈ xs → ∃ n, h !! a = Some n ∧ data n = v.
Proof.
  revert prv. induction xs as [|x xs IH]; intros prv; simpl.
  - intros _ Ha. by apply elem_of_nil in Ha.
  - intros [Hx Hxs] Ha. apply elem_of_cons in Ha as [<-|Ha]; [by eexists|].
    by eapply IH.
Qed.

(** A chain is no longer than the store is large. *)
Lemma seg_length h prv xs nxt :
  seg h prv xs nxt → NoDup xs.*1 → (length xs ≤ base.size h)%nat.
Proof.
  intros Hseg Hnd.
  rewrite <- (length_fmap fst xs), <- (size_list_to_set (C := gset loc)) by done.
  rewrite <- size_dom. apply subseteq_size. intros a Ha.
  apply elem_of_list_to_set in Ha. apply elem_of_dom. by eapply seg_live.
Qed.

Lemma is_list_length h l xs :
  is_list h l xs → (length xs ≤ base.size h)%nat.
Proof. intros (Hseg & Hnd & _). by eapply seg_length. Qed.

Lemma returns_ok {A} need (m : M T A) h Q :
  returns need m h Q → Z.of_nat (base.size h + need) ≤ max_nodes →
  ∃ a h', m h = Ok (a, h') ∧ Q a h'.
Proof.
  unfold returns. destruct (m h) as [[a h']|e]; [by eauto|]. intros [_ ?]. lia.
Qed.

Lemma returns_inv {A} need (m : M T A) h Q a h' :
  returns need m h Q → m h = Ok (a, h') → Q a h'.
Proof. unfold returns. intros H Hm. by rewrite Hm in H. Qed.

Lemma returns_intro {A} need (m : M T A) h (Q : A → heap → Prop) a h' :
  m h = Ok (a, h') → Q a h' → returns need m h Q.
Proof. unfold returns. by intros ->. Qed.

Lemma returns_mono {A} need (m : M T A) h (Q Q' : A → heap → Prop) :
  returns need m h Q → (∀ a h', Q a h' → Q' a h') → returns need m h Q'.
Proof. unfold returns. destruct (m h) as [[a h']|e]; [|done]. eauto. Qed.

Lemma is_list_frame ps h h' l xs :
  is_list h l xs → frame ps h h' → ps ## xs.*1 → is_list h' l xs.
Proof.
  intros (Hseg & Hnd & Hrest) Hfr Hdisj. split; [|done].
  eapply seg_frame; [done|]. intros a Ha. apply Hfr.
  - intros Hps. by apply (Hdisj a).
  - by eapply seg_live.
Qed.

Lemma is_list_nil h : is_list h (mkList 0 None None) [].
Proof. repeat split; [constructor|done]. Qed.

Lemma is_list_empty_iff h l xs :
  is_list h l xs →
  (numElements l = 0 ↔ xs = []) ∧ (pHead l = None ↔ xs = [])
  ∧ (pTail l = None ↔ xs = []).
Proof.
  intros (_ & _ & Hh & Ht & Hn & _). rewrite Hh, Ht, Hn. repeat split.
  - destruct xs; simpl; [done|lia].
  - by intros ->.
  - apply first_or_None_inv.
  - by intros ->.
  - apply last_or_None_inv.
  - by intros ->.
Qed.

Lemma seg_dead h prv xs nxt a :
  seg h prv xs nxt → h !! a = None → a ∉ xs.*1.
Proof.
  intros Hseg Ha Hin. eapply seg_live in Hin as [n Hn]; [|done]. congruence.
Qed.

Lemma seg_mid h prv l1 x l2 nxt :
  seg h prv (l1 ++ x :: l2) nxt ↔
  seg h prv l1 (Some x.1)
  ∧ h !! x.1 = Some (mkNode x.2 (first_or nxt l2) (last_or prv l1))
  ∧ seg h (Some x.1) l2 nxt.
Proof. rewrite seg_app. simpl. tauto. Qed.

Lemma seg_snoc h prv l1 x nxt :
  seg h prv (l1 ++ [x]) nxt ↔
  seg h prv l1 (Some x.1)
  ∧ h !! x.1 = Some (mkNode x.2 nxt (last_or prv l1)).
Proof. rewrite seg_mid. simpl. tauto. Qed.

Lemma wrap64_small z : 0 ≤ z < 2 ^ 64 → wrap64 z = z.
Proof. intros. unfold wrap64. by apply Z.mod_small. Qed.

Lemma size_delete_live (h : heap) a n :
  h !! a = Some n → S (base.size (delete a h)) = base.size h.
Proof.
  intros H. rewrite <- (insert_delete_id h a n H) at 2.
  by rewrite map_size_insert_None by apply lookup_delete_eq.
Qed.

Lemma ptr_eqb_refl q : ptr_eqb q q = true.
Proof. unfold ptr_eqb. by apply bool_decide_eq_true_2. Qed.

Lemma assert_true h : assert true h = Ok (tt, h).
Proof. done. Qed.

Lemma ret_ok {A} (a : A) h : ret a h = Ok (a, h).
Proof. done. Qed.

Lemma bind_assoc {A B C} (m : M T A) (k1 : A → M T B) (k2 : B → M T C) h :
  bind (bind m k1) k2 h = bind m (λ x, bind (k1 x) k2) h.
Proof. unfold bind. by destruct (m h) as [[a h']|e]. Qed.

Lemma new_spec d h :
  Z.of_nat (base.size h) < max_nodes →
  ∃ a, h !! a = None ∧ new d h = Ok (a, <[a := mkNode d None None]> h).
Proof. intros Hroom. eexists. split; [apply fresh_dead|by apply new_ok]. Qed.

Lemma new_full d h :
  ¬ Z.of_nat (base.size h) < max_nodes → new d h = Err BadAlloc.
Proof. intros Hfull. unfold new. by rewrite bool_decide_eq_false_2. Qed.

End basics.

Create HintDb ends.
#[local] Hint Rewrite @last_or_app @last_or_cons @last_or_nil @first_or_app : ends.
#[local] Hint Rewrite @app_nil_r @length_app @fmap_app : ends.

(** Bring the ends of concrete chains to a normal form. *)
Ltac tidy :=
  cbn [app fst snd length first_or fmap list_fmap seg] in *;
  autorewrite with ends in *;
  cbn [app fst snd length first_or fmap list_fmap seg] in *.

(** *** Tactics for stores and chains *)

(** Take apart what is known about distinct addresses. *)
Ltac split_facts :=
  repeat match goal with
    | H : NoDup (_ ++ _) |- _ => apply NoDup_app in H as (? & ? & ?)
    | H : NoDup (_ :: _) |- _ => apply NoDup_cons in H as [? ?]
    | H : _ ∉ _ ++ _ |- _ => apply not_elem_of_app in H as [? ?]
    | H : _ ∉ _ :: _ |- _ => apply not_elem_of_cons in H as [? ?]
    | H : _ ∉ [] |- _ => clear H
    | H : NoDup [] |- _ => clear H
    end.

(** Membership in the address list of a chain, the list taken as a whole. *)
Ltac addr_sets :=
  repeat match goal with
    | |- context [fst <$> ?l] =>
        let ps := fresh "ps" in set (ps := fst <$> l) in *; clearbody ps
    | H : context [fst <$> ?l] |- _ =>
        let ps := fresh "ps" in set (ps := fst <$> l) in *; clearbody ps
    end;
  set_solver.

(** Lookups in a store written by a sequence of inserts and deletes: split
    on every address comparison and close the impossible cases. *)
Ltac heap_cases :=
  repeat first [rewrite lookup_insert | rewrite lookup_delete];
  repeat case_decide; simplify_eq/=;
  first [done | congruence | addr_sets].

(** Two addresses differ. *)
Ltac neq :=
  let E := fresh in
  intros E; simplify_eq/=; first [done | congruence | addr_sets].

(** The same when the node found is still to be determined: only rewrite
    with comparisons that are settled. *)
Ltac heap_lookup :=
  repeat first
    [ rewrite lookup_insert_eq
    | rewrite lookup_delete_eq
    | rewrite lookup_insert_ne by neq
    | rewrite lookup_delete_ne by neq ];
  first [done | eassumption | reflexivity].

(** The size of a store written by a sequence of inserts and deletes. *)
Ltac heap_size :=
  repeat first
    [ erewrite size_delete_live by heap_lookup
    | erewrite map_size_insert_Some by heap_lookup
    | erewrite map_size_insert_None by heap_lookup ];
  first [done | lia].

(** A chain whose nodes were not written is still a chain. *)
Ltac seg_same H :=
  eapply seg_frame; [exact H|];
  let e := fresh "e" in let He := fresh "He" in
  intros e He; heap_cases.

(** Distinctness of the addresses of a chain put together from parts. *)
Ltac nodup :=
  repeat first
    [ apply NoDup_nil_2
    | apply NoDup_cons; split
    | apply NoDup_app; split; [|split] ];
  first [done | addr_sets].

(** *** Symbolic execution *)

(** Reduce the record projections and the matches they expose. *)
Ltac proj :=
  cbn beta iota zeta delta
    [pNext pPrev data numElements pHead pTail p fst snd
     iterator_at iterator_default begin rbegin end_ first_or].

(** Run the first command of a sequence. *)
Ltac exec :=
  rewrite ?bind_assoc, ?ptr_eqb_refl;
  erewrite bind_ok;
  [| first [ eassumption
           | eapply get_pPrev_ok | eapply get_pNext_ok | eapply get_data_ok
           | eapply set_pNext_ok | eapply set_pPrev_ok | eapply set_data_ok
           | eapply delete_node_ok | eapply assert_true | eapply ret_ok ];
     heap_lookup ];
  proj.

(** Open the representation of a list object. *)
Ltac open_list Hl l :=
  let n := fresh "n" in let hd := fresh "hd" in let tl := fresh "tl" in
  let Hseg := fresh "Hseg" in let Hnd := fresh "Hnd" in
  let Hh := fresh "Hh" in let Ht := fresh "Ht" in
  let Hn := fresh "Hn" in let Hmax := fresh "Hmax" in
  destruct l as [n hd tl];
  destruct Hl as (Hseg & Hnd & Hh & Ht & Hn & Hmax);
  cbn [numElements pHead pTail] in Hh, Ht, Hn; subst n hd tl; proj.

(** Establish the representation of a list object. *)
Ltac close_list :=
  split_and!; proj; tidy; [| |try done|try done|try lia|try lia].

Section proofs.

Context {T : Type}.

Local Abbreviation heap := (gmap loc (Node T)).
Implicit Types (h : gmap loc (Node T)) (v : T).
Implicit Types (xs ys : list (loc * T)).

(** *** push_back and push_front *)

Lemma push_back_move_eq (d : T) l : push_back_move d l = push_back d l.
Proof. reflexivity. Qed.

Lemma push_front_move_eq (d : T) l : push_front_move d l = push_front d l.
Proof. reflexivity. Qed.

Lemma push_back_spec h l xs d :
  is_list h l xs → Z.of_nat (base.size h) < max_nodes →
  ∃ a l' h',
    push_back d l h = Ok (l', h')
    ∧ h !! a = None
    ∧ is_list h' l' (xs ++ [(a, d)])
    ∧ frame xs.*1 h h'
    ∧ (∀ b, is_Some (h !! b) → is_Some (h' !! b))
    ∧ base.size h' = S (base.size h).
Proof.
  intros Hl Hroom. pose proof (is_list_length _ _ _ Hl) as Hlen.
  open_list Hl l.
  destruct (new_spec d h Hroom) as (a & Hfresh & Hnew).
  pose proof (seg_dead _ _ _ _ _ Hseg Hfresh) as Hax.
  assert (Hcount : wrap64 (Z.of_nat (length xs) + 1) = Z.of_nat (length xs) + 1).
  { rewrite wrap64_small; unfold max_nodes in *; lia. }
  exists a. unfold push_back. proj. rewrite Hcount.
  destruct xs as [|t xs _] using rev_ind; tidy.
  - eexists _, _. exec. split; [reflexivity|]. split; [done|]. split; [|split; [|split]].
    + close_list; [heap_cases|nodup].
    + intros b _ [n Hb]. heap_cases.
    + intros e' [ne' Hne']. heap_cases.
    + heap_size.
  - apply seg_snoc in Hseg as [Hseg Hlast]. split_facts.
    assert (∃ q, first_or (Some t.1) xs = Some q) as [q Hq] by (destruct xs; by eexists).
    rewrite Hq. eexists _, _. repeat exec.
    split; [reflexivity|]. split; [done|]. split; [|split; [|split]].
    + close_list.
      * rewrite <- app_assoc. apply seg_app. split; [seg_same Hseg|].
        tidy. split_and!; heap_cases.
      * nodup.
    + intros b Hb [n Hbn]. split_facts. heap_cases.
    + intros e' [ne' Hne']. heap_cases.
    + heap_size.
Qed.

Lemma push_back_full h l d :
  ¬ Z.of_nat (base.size h) < max_nodes → push_back d l h = Err BadAlloc.
Proof.
  intros Hfull. unfold push_back.
  destruct (pHead l); by rewrite (bind_err _ _ _ _ (new_full d h Hfull)).
Qed.

Lemma push_back_returns h l xs d :
  is_list h l xs →
  returns 1 (push_back d l) h (λ l' h',
    ∃ a, h !! a = None ∧ is_list h' l' (xs ++ [(a, d)])
         ∧ frame xs.*1 h h'
         ∧ (∀ b, is_Some (h !! b) → is_Some (h' !! b))
         ∧ base.size h' = S (base.size h)).
Proof.
  intros Hl. destruct (decide (Z.of_nat (base.size h) < max_nodes)) as [Hroom|Hfull].
  - destruct (push_back_spec _ _ _ d Hl Hroom) as (a & l' & h' & Hrun & Hpost).
    eapply returns_intro; [exact Hrun|]. by exists a.
  - unfold returns. rewrite (push_back_full _ _ _ Hfull). split; [done|lia].
Qed.

Lemma push_front_spec h l xs d :
  is_list h l xs → Z.of_nat (base.size h) < max_nodes →
  ∃ a l' h',
    push_front d l h = Ok (l', h')
    ∧ h !! a = None
    ∧ is_list h' l' ((a, d) :: xs)
    ∧ frame xs.*1 h h'
    ∧ (∀ b, is_Some (h !! b) → is_Some (h' !! b))
    ∧ base.size h' = S (base.size h).
Proof.
  intros Hl Hroom. pose proof (is_list_length _ _ _ Hl) as Hlen.
  open_list Hl l.
  destruct (new_spec d h Hroom) as (a & Hfresh & Hnew).
  pose proof (seg_dead _ _ _ _ _ Hseg Hfresh) as Hax.
  assert (Hcount : wrap64 (Z.of_nat (length xs) + 1) = Z.of_nat (length xs) + 1).
  { rewrite wrap64_small; unfold max_nodes in *; lia. }
  exists a. unfold push_front. proj. rewrite Hcount.
  destruct xs as [|t xs]; tidy.
  - eexists _, _. exec. split; [reflexivity|]. split; [done|]. split; [|split; [|split]].
    + close_list; [heap_cases|nodup].
    + intros b _ [n Hb]. heap_cases.
    + intros e' [ne' Hne']. heap_cases.
    + heap_size.
  - destruct Hseg as [Hfirst Hseg]. split_facts.
    assert (∃ q, last_or (Some t.1) xs = Some q) as [q Hq].
    { destruct xs as [|t' xs _] using rev_ind; tidy; by eexists. }
    rewrite Hq. eexists _, _. repeat exec.
    split; [reflexivity|]. split; [done|]. split; [|split; [|split]].
    + close_list.
      * split_and!; [heap_cases|heap_cases|seg_same Hseg].
      * nodup.
    + intros b Hb [n Hbn]. split_facts. heap_cases.
    + intros e' [ne' Hne']. heap_cases.
    + heap_size.
Qed.

Lemma push_front_full h l d :
  ¬ Z.of_nat (base.size h) < max_nodes → push_front d l h = Err BadAlloc.
Proof.
  intros Hfull. unfold push_front.
  destruct (pTail l); by rewrite (bind_err _ _ _ _ (new_full d h Hfull)).
Qed.

Lemma push_front_returns h l xs d :
  is_list h l xs →
  returns 1 (push_front d l) h (λ l' h',
    ∃ a, h !! a = None ∧ is_list h' l' ((a, d) :: xs)
         ∧ frame xs.*1 h h'
         ∧ (∀ b, is_Some (h !! b) → is_Some (h' !! b))
         ∧ base.size h' = S (base.size h)).
Proof.
  intros Hl. destruct (decide (Z.of_nat (base.size h) < max_nodes)) as [Hroom|Hfull].
  - destruct (push_front_spec _ _ _ d Hl Hroom) as (a & l' & h' & Hrun & Hpost).
    eapply returns_intro; [exact Hrun|]. by exists a.
  - unfold returns. rewrite (push_front_full _ _ _ Hfull). split; [done|lia].
Qed.

(** *** erase *)

Lemma erase_null h l : erase (iterator_at None) l h = Ok ((iterator_at None, l), h).
Proof. reflexivity. Qed.

Lemma erase_spec h l l1 a v l2 :
  is_list h l (l1 ++ (a, v) :: l2) →
  ∃ h',
    erase (iterator_at (Some a)) l h
    = Ok ((iterator_at (first_or None l2),
           mkList (numElements l - 1) (first_or None (l1 ++ l2))
             (last_or None (l1 ++ l2))), h')
    ∧ is_list h'
        (mkList (numElements l - 1) (first_or None (l1 ++ l2))
           (last_or None (l1 ++ l2)))
        (l1 ++ l2)
    ∧ frame (l1 ++ (a, v) :: l2).*1 h h'
    ∧ h' !! a = None
    ∧ (∀ b, h !! b = None → h' !! b = None)
    ∧ S (base.size h') = base.size h.
Proof.
  intros Hl. pose proof (is_list_length _ _ _ Hl) as Hlen.
  open_list Hl l.
  apply seg_mid in Hseg as (Hs1 & Ha & Hs2).
  assert (Hcount : wrap64 (Z.of_nat (length (l1 ++ (a, v) :: l2)) - 1)
                   = Z.of_nat (length (l1 ++ (a, v) :: l2)) - 1).
  { rewrite length_app in *. simpl in *.
    apply wrap64_small. unfold max_nodes in *. lia. }
  unfold erase. proj.
  destruct l1 as [|b l1 _] using rev_ind; destruct l2 as [|c l2]; tidy; split_facts.
  - (* the only node *)
    eexists. repeat exec. rewrite Hcount. split; [reflexivity|]. split; [|split; [|split; [|split]]].
    + close_list; [done|nodup].
    + intros b Hb _. split_facts. heap_cases.
    + heap_cases.
    + intros e He. heap_cases.
    + heap_size.
  - (* the head, with a successor *)
    destruct Hs2 as [Hc Hs2].
    eexists. repeat exec. rewrite Hcount. split; [reflexivity|]. split; [|split; [|split; [|split]]].
    + close_list; [|nodup]. split; [heap_cases|seg_same Hs2].
    + intros b Hb _. split_facts. heap_cases.
    + heap_cases.
    + intros e He. heap_cases.
    + heap_size.
  - (* the tail, with a predecessor *)
    apply seg_snoc in Hs1 as [Hs1 Hb].
    eexists. repeat exec. rewrite Hcount. split; [reflexivity|]. split; [|split; [|split; [|split]]].
    + close_list; [|nodup]. apply seg_snoc. split; [seg_same Hs1|heap_cases].
    + intros c Hc _. split_facts. heap_cases.
    + heap_cases.
    + intros e He. heap_cases.
    + heap_size.
  - (* a node with both neighbours *)
    apply seg_snoc in Hs1 as [Hs1 Hb]. destruct Hs2 as [Hc Hs2].
    eexists. repeat exec. rewrite Hcount. split; [reflexivity|]. split; [|split; [|split; [|split]]].
    + close_list; [|nodup].
      rewrite <- app_assoc. apply seg_app. split; [seg_same Hs1|].
      tidy. split_and!; [heap_cases|heap_cases|seg_same Hs2].
    + intros e He _. split_facts. heap_cases.
    + heap_cases.
    + intros e He. heap_cases.
    + heap_size.
Qed.

(** *** insert *)

Lemma insert_move_eq it (d : T) l : insert_move it d l = insert it d l.
Proof. reflexivity. Qed.

Lemma empty_length n q r (xs : list (loc * T)) :
  n = Z.of_nat (length xs) → empty (mkList n q r) = bool_decide (xs = []).
Proof.
  intros ->. unfold empty, size. by destruct xs.
Qed.

Lemma it_eq_end_None l : it_eq (mkIt None) (end_ l) = true.
Proof. done. Qed.

Lemma it_eq_end_Some b l : it_eq (mkIt (Some b)) (end_ l) = false.
Proof. done. Qed.

Lemma it_ne_end_None l : it_ne (mkIt None) (end_ l) = false.
Proof. done. Qed.

Lemma it_ne_end_Some b l : it_ne (mkIt (Some b)) (end_ l) = true.
Proof. done. Qed.

(** [insert] before the node at the head of [l2], or at the end when [l2]
    is empty. *)
Lemma insert_spec h l l1 l2 it d :
  is_list h l (l1 ++ l2) → p it = first_or None l2 →
  Z.of_nat (base.size h) < max_nodes →
  ∃ a l' h',
    insert it d l h = Ok ((iterator_at (Some a), l'), h')
    ∧ h !! a = None
    ∧ is_list h' l' (l1 ++ (a, d) :: l2)
    ∧ frame (l1 ++ l2).*1 h h'
    ∧ (∀ b, is_Some (h !! b) → is_Some (h' !! b))
    ∧ base.size h' = S (base.size h).
Proof.
  intros Hl Hit Hroom. pose proof (is_list_length _ _ _ Hl) as Hlen.
  destruct it as [q]. simpl in Hit. subst q.
  destruct (new_spec d h Hroom) as (a & Hfresh & Hnew).
  pose proof Hl as (Hseg' & _).
  pose proof (seg_dead _ _ _ _ _ Hseg' Hfresh) as Hax. clear Hseg'.
  destruct l as [n hd tl]. exists a. unfold insert.
  rewrite (empty_length n hd tl (l1 ++ l2)) by apply Hl.
  open_list Hl (mkList n hd tl).
  assert (Hcount : wrap64 (Z.of_nat (length (l1 ++ l2)) + 1)
                   = Z.of_nat (length (l1 ++ l2)) + 1).
  { rewrite wrap64_small; unfold max_nodes in *; lia. }
  proj.
  destruct l1 as [|t l1 _] using rev_ind; destruct l2 as [|[b v] l2]; tidy; split_facts.
  - (* the empty list *)
    rewrite bool_decide_eq_true_2 by done.
    eexists _, _. exec. split; [reflexivity|]. split; [done|]. split; [|split; [|split]].
    + close_list; [heap_cases|nodup].
    + intros e _ [ne Hne]. heap_cases.
    + intros e' [ne' Hne']. heap_cases.
    + heap_size.
  - (* before the head *)
    rewrite bool_decide_eq_false_2, it_eq_end_Some, it_ne_end_Some by done.
    destruct Hseg as [Hb Hseg].
    eexists _, _. repeat exec. rewrite Hcount.
    split; [reflexivity|]. split; [done|]. split; [|split; [|split]].
    + close_list; [|nodup]. split_and!; [heap_cases|heap_cases|seg_same Hseg].
    + intros e He [ne Hne]. split_facts. heap_cases.
    + intros e' [ne' Hne']. heap_cases.
    + heap_size.
  - (* at the end *)
    rewrite bool_decide_eq_false_2, it_eq_end_None by (by destruct l1).
    apply seg_snoc in Hseg as [Hseg Ht].
    eexists _, _. repeat exec. rewrite Hcount.
    split; [reflexivity|]. split; [done|]. split; [|split; [|split]].
    + close_list; [|nodup]. rewrite <- app_assoc. apply seg_app.
      split; [seg_same Hseg|]. tidy. split_and!; heap_cases.
    + intros e He [ne Hne]. split_facts. heap_cases.
    + intros e' [ne' Hne']. heap_cases.
    + heap_size.
  - (* between two nodes *)
    rewrite bool_decide_eq_false_2, it_eq_end_Some, it_ne_end_Some by (by destruct l1).
    apply seg_mid in Hseg as (Hs1 & Hb & Hs2). tidy.
    apply seg_snoc in Hs1 as [Hs1 Ht].
    eexists _, _. repeat exec. rewrite Hcount.
    split; [reflexivity|]. split; [done|]. split; [|split; [|split]].
    + close_list; [|nodup]. rewrite <- app_assoc. apply seg_app.
      split; [seg_same Hs1|]. tidy. split_and!; [heap_cases..|seg_same Hs2].
    + intros e He [ne Hne]. split_facts. heap_cases.
    + intros e' [ne' Hne']. heap_cases.
    + heap_size.
Qed.

Lemma it_ne_negb it it' : it_ne it it' = negb (it_eq it it').
Proof. done. Qed.

Lemma insert_full h l it d :
  ¬ Z.of_nat (base.size h) < max_nodes → insert it d l h = Err BadAlloc.
Proof.
  intros Hfull. unfold insert. rewrite it_ne_negb.
  destruct (empty l); [by rewrite (bind_err _ _ _ _ (new_full d h Hfull))|].
  destruct (it_eq it (end_ l)); simpl;
    by rewrite (bind_err _ _ _ _ (new_full d h Hfull)).
Qed.

Lemma insert_returns h l l1 l2 it d :
  is_list h l (l1 ++ l2) → p it = first_or None l2 →
  returns 1 (insert it d l) h (λ r h',
    ∃ a, fst r = iterator_at (Some a) ∧ h !! a = None
         ∧ is_list h' (snd r) (l1 ++ (a, d) :: l2)
         ∧ frame (l1 ++ l2).*1 h h'
         ∧ (∀ b, is_Some (h !! b) → is_Some (h' !! b))
         ∧ base.size h' = S (base.size h)).
Proof.
  intros Hl Hit.
  destruct (decide (Z.of_nat (base.size h) < max_nodes)) as [Hroom|Hfull].
  - destruct (insert_spec _ _ _ _ _ d Hl Hit Hroom) as (a & l' & h' & Hrun & Hpost).
    eapply returns_intro; [exact Hrun|]. by exists a.
  - unfold returns. rewrite (insert_full _ _ _ _ Hfull). split; [done|lia].
Qed.

(** On an empty list the position given does not matter. *)
Lemma insert_empty_spec h l it d :
  is_list h l [] → Z.of_nat (base.size h) < max_nodes →
  ∃ a h',
    insert it d l h
    = Ok ((iterator_at (Some a), mkList 1 (Some a) (Some a)), h')
    ∧ h !! a = None
    ∧ h' = <[a := mkNode d None None]> h
    ∧ is_list h' (mkList 1 (Some a) (Some a)) [(a, d)].
Proof.
  intros Hl Hroom. destruct (new_spec d h Hroom) as (a & Hfresh & Hnew).
  destruct l as [n hd tl]. exists a. unfold insert.
  rewrite (empty_length n hd tl []) by apply Hl.
  rewrite bool_decide_eq_true_2 by done.
  eexists. exec. split; [reflexivity|]. split; [done|]. split; [done|].
  close_list; [heap_cases|nodup].
Qed.

(** Inserting at the end iterator is [push_back]. *)
Lemma insert_end_push_back h l xs d :
  is_list h l xs →
  insert (end_ l) d l h
  = (let* l' := push_back d l in ret (iterator_at (pTail l'), l')) h.
Proof.
  intros Hl.
  destruct (decide (Z.of_nat (base.size h) < max_nodes)) as [Hroom|Hfull].
  2:{ by rewrite (insert_full _ _ _ _ Hfull),
        (bind_err _ _ _ _ (push_back_full _ _ _ Hfull)). }
  destruct (new_spec d h Hroom) as (a & Hfresh & Hnew).
  pose proof Hl as (Hseg' & _).
  pose proof (seg_dead _ _ _ _ _ Hseg' Hfresh) as Hax. clear Hseg'.
  destruct l as [n hd tl]. unfold insert, push_back.
  rewrite (empty_length n hd tl xs) by apply Hl.
  open_list Hl (mkList n hd tl).
  destruct xs as [|t xs _] using rev_ind; tidy; split_facts.
  - rewrite bool_decide_eq_true_2 by done. repeat exec.
    by rewrite Z.add_0_l, wrap64_small.
  - rewrite bool_decide_eq_false_2, it_eq_end_None by (by destruct xs).
    apply seg_snoc in Hseg as [Hseg Ht].
    assert (∃ q, first_or (Some t.1) xs = Some q) as [q Hq] by (destruct xs; by eexists).
    rewrite Hq. repeat exec. unfold ret. do 2 f_equal.
    apply map_eq. intros e. heap_cases.
Qed.

(** *** pop_front and pop_back *)

Lemma pop_back_empty h l : is_list h l [] → pop_back l h = Ok (l, h).
Proof.
  intros (_ & _ & _ & Ht & _). unfold pop_back. by rewrite Ht.
Qed.

Lemma pop_front_empty h l : is_list h l [] → pop_front l h = Ok (l, h).
Proof.
  intros (_ & _ & Hh & _). unfold pop_front. by rewrite Hh.
Qed.

Lemma pop_back_spec h l xs a v :
  is_list h l (xs ++ [(a, v)]) →
  ∃ l' h',
    pop_back l h = Ok (l', h')
    ∧ is_list h' l' xs
    ∧ frame (xs ++ [(a, v)]).*1 h h'
    ∧ S (base.size h') = base.size h.
Proof.
  intros Hl. destruct (erase_spec _ _ _ _ _ _ Hl) as (h' & Hrun & Hl' & Hfr & _ & _ & Hsz).
  rewrite app_nil_r in *. eexists _, h'. unfold pop_back.
  replace (pTail l) with (Some a)
    by (destruct Hl as (_ & _ & _ & -> & _); by rewrite last_or_snoc).
  rewrite (bind_ok _ _ _ _ _ Hrun). done.
Qed.

Lemma pop_front_spec h l xs a v :
  is_list h l ((a, v) :: xs) →
  ∃ l' h',
    pop_front l h = Ok (l', h')
    ∧ is_list h' l' xs
    ∧ frame ((a, v) :: xs).*1 h h'
    ∧ S (base.size h') = base.size h.
Proof.
  intros Hl. destruct (erase_spec _ _ [] _ _ _ Hl) as (h' & Hrun & Hl' & Hfr & _ & _ & Hsz).
  eexists _, h'. unfold pop_front.
  replace (pHead l) with (Some a) by (by destruct Hl as (_ & _ & -> & _)).
  rewrite (bind_ok _ _ _ _ _ Hrun). done.
Qed.

(** *** Frames *)

Lemma frame_refl ps h : frame ps h h.
Proof. by intros b _ _. Qed.

Lemma frame_trans ps ps' h h' h'' :
  frame ps h h' → frame ps' h' h'' → grown_from h ps ps' → frame ps h h''.
Proof.
  intros H1 H2 Hg b Hb Hlive. rewrite <- (H1 b Hb Hlive). apply H2.
  - intros Hb'. destruct (Hg b Hb') as [?|Hdead]; [done|].
    destruct Hlive as [n Hn]. congruence.
  - by rewrite (H1 b Hb Hlive).
Qed.

Lemma frame_weaken ps ps' h h' :
  frame ps h h' → (∀ b, b ∈ ps → b ∈ ps') → frame ps' h h'.
Proof. intros H Hsub b Hb Hlive. apply H; [|done]. intros ?. apply Hb. auto. Qed.

Lemma grown_from_refl h ps : grown_from h ps ps.
Proof. intros b Hb. by left. Qed.

Lemma grown_from_sub h ps ps' : (∀ b, b ∈ ps' → b ∈ ps) → grown_from h ps ps'.
Proof. intros Hsub b Hb. left. auto. Qed.

(** *** Moving an iterator *)

Lemma pre_incr_node h a n :
  h !! a = Some n → pre_incr (mkIt (Some a)) h = Ok (mkIt (pNext n), h).
Proof. intros Ha. unfold pre_incr. proj. by exec. Qed.

Lemma pre_decr_node h a n :
  h !! a = Some n → pre_decr (mkIt (Some a)) h = Ok (mkIt (pPrev n), h).
Proof. intros Ha. unfold pre_decr. proj. by exec. Qed.

Lemma pre_incr_null h : pre_incr (mkIt None) h = Ok (mkIt None, h).
Proof. done. Qed.

Lemma pre_decr_null h : pre_decr (mkIt None) h = Ok (mkIt None, h).
Proof. done. Qed.

Lemma advance_null k h : advance k (mkIt None) h = Ok (mkIt None, h).
Proof. induction k as [|k IH]; [done|]. simpl. by rewrite (bind_ok _ _ _ _ _ (pre_incr_null h)). Qed.

Lemma advance_spec h prv xs k :
  seg h prv xs None →
  advance k (mkIt (first_or None xs)) h = Ok (mkIt (first_or None (drop k xs)), h).
Proof.
  revert prv xs. induction k as [|k IH]; intros prv xs Hseg; [by rewrite drop_0|].
  destruct xs as [|x xs]; [apply advance_null|].
  destruct Hseg as [Hx Hseg]. simpl.
  rewrite (bind_ok _ _ _ _ _ (pre_incr_node _ _ _ Hx)). simpl. by eapply IH.
Qed.

(** *** Walking a list *)

Lemma walk_forward_spec h prv xs fuel :
  seg h prv xs None → (length xs < fuel)%nat →
  walk_forward fuel (mkIt (first_or None xs)) h = Ok (xs.*2, h).
Proof.
  revert prv xs. induction fuel as [|fuel IH]; intros prv xs Hseg Hfuel; [lia|].
  destruct xs as [|x xs]; [done|].
  destruct Hseg as [Hx Hseg]. simpl in Hfuel.
  cbn [walk_forward first_or]. rewrite it_ne_end_Some with (l := mkList 0 None None).
  unfold deref, read_ref. proj. repeat exec.
  rewrite (bind_ok _ _ _ _ _ (pre_incr_node _ _ _ Hx)). proj.
  erewrite bind_ok; [|eapply IH; [exact Hseg|lia]]. done.
Qed.

Lemma walk_backward_spec h xs nxt fuel :
  seg h None xs nxt → (length xs < fuel)%nat →
  walk_backward fuel (mkIt (last_or None xs)) h = Ok (reverse xs.*2, h).
Proof.
  revert xs nxt. induction fuel as [|fuel IH]; intros xs nxt Hseg Hfuel; [lia|].
  destruct xs as [|x xs _] using rev_ind; [done|].
  apply seg_snoc in Hseg as [Hseg Hx]. rewrite length_app in Hfuel. simpl in Hfuel.
  rewrite last_or_snoc, fmap_app, reverse_app. cbn [walk_backward].
  rewrite it_ne_end_Some with (l := mkList 0 None None).
  unfold deref, read_ref. proj. repeat exec.
  rewrite (bind_ok _ _ _ _ _ (pre_decr_node _ _ _ Hx)). proj.
  erewrite bind_ok; [|eapply IH; [exact Hseg|lia]]. done.
Qed.

Lemma to_list_spec h l xs : is_list h l xs → to_list l h = Ok (xs.*2, h).
Proof.
  intros Hl. pose proof (is_list_length _ _ _ Hl) as Hlen.
  destruct Hl as (Hseg & _ & Hh & _). unfold to_list, live, begin, iterator_at.
  rewrite Hh. unfold bind. eapply walk_forward_spec; [done|lia].
Qed.

Lemma to_list_rev_spec h l xs :
  is_list h l xs → to_list_rev l h = Ok (reverse xs.*2, h).
Proof.
  intros Hl. pose proof (is_list_length _ _ _ Hl) as Hlen.
  destruct Hl as (Hseg & _ & _ & Ht & _). unfold to_list_rev, live, rbegin, iterator_at.
  rewrite Ht. unfold bind. eapply walk_backward_spec; [done|lia].
Qed.

(** *** clear *)

Lemma clear_loop_spec xs : ∀ h prv tl fuel,
  seg h prv xs None → NoDup xs.*1 → (length xs < fuel)%nat →
  Z.of_nat (length xs) ≤ max_nodes →
  ∃ h',
    clear_loop fuel (mkList (Z.of_nat (length xs)) (first_or None xs) tl) h
    = Ok (mkList 0 None tl, h')
    ∧ (∀ b, b ∉ xs.*1 → h' !! b = h !! b)
    ∧ (∀ b, b ∈ xs.*1 → h' !! b = None)
    ∧ (base.size h' + length xs = base.size h)%nat.
Proof.
  induction xs as [|x xs IH]; intros h prv tl fuel Hseg Hnd Hfuel Hmax.
  - exists h. destruct fuel; [lia|]. split; [done|]. split; [done|].
    split; [|simpl; lia]. intros b Hb. by apply elem_of_nil in Hb.
  - destruct fuel as [|fuel]; [lia|]. tidy. destruct Hseg as [Hx Hseg]. split_facts.
    destruct (IH (delete x.1 h) (Some x.1) tl fuel) as (h' & Hrun & Hout & Hin & Hsz);
      [seg_same Hseg|done|lia|lia|].
    exists h'. cbn [clear_loop]. proj. repeat exec.
    replace (wrap64 (Z.of_nat (S (length xs)) - 1)) with (Z.of_nat (length xs))
      by (rewrite wrap64_small; unfold max_nodes in *; lia).
    split; [exact Hrun|]. split; [|split].
    + intros b Hb. split_facts. rewrite Hout by done. heap_cases.
    + intros b Hb. apply elem_of_cons in Hb as [->|Hb]; [|by apply Hin].
      rewrite Hout by done. heap_cases.
    + rewrite <- (size_delete_live h x.1 _ Hx). lia.
Qed.

Lemma clear_spec h l xs :
  is_list h l xs →
  ∃ h',
    clear l h = Ok (mkList 0 None None, h')
    ∧ is_list h' (mkList 0 None None) []
    ∧ frame xs.*1 h h'
    ∧ (∀ b, b ∈ xs.*1 → h' !! b = None)
    ∧ (∀ b, h !! b = None → h' !! b = None)
    ∧ (base.size h' + length xs = base.size h)%nat.
Proof.
  intros Hl. pose proof (is_list_length _ _ _ Hl) as Hlen. open_list Hl l.
  destruct (clear_loop_spec xs h None (last_or None xs) (S (base.size h)))
    as (h' & Hrun & Hout & Hin & Hsz); [done|done|lia|done|].
  exists h'. unfold clear, live. unfold bind at 1.
  rewrite (bind_ok _ _ _ _ _ Hrun). split; [done|]. split; [apply is_list_nil|].
  split; [|split; [done|split; [|done]]].
  - intros b Hb _. by apply Hout.
  - intros b Hb. rewrite Hout; [done|]. by eapply seg_dead.
Qed.

(** *** The loop that erases to the end *)

Lemma erase_loop_spec l2 : ∀ h l l1 fuel,
  is_list h l (l1 ++ l2) → (length l2 < fuel)%nat →
  ∃ l' h',
    erase_loop fuel (mkIt (first_or None l2)) l h = Ok ((mkIt None, l'), h')
    ∧ is_list h' l' l1
    ∧ frame (l1 ++ l2).*1 h h'
    ∧ (∀ b, b ∈ l2.*1 → h' !! b = None)
    ∧ (∀ b, h !! b = None → h' !! b = None)
    ∧ (base.size h' + length l2 = base.size h)%nat.
Proof.
  induction l2 as [|[a v] l2 IH]; intros h l l1 fuel Hl Hfuel.
  - exists l, h. rewrite app_nil_r in *. destruct fuel; [lia|].
    split; [done|]. split; [done|]. split; [apply frame_refl|].
    split; [|split; [done|simpl; lia]]. intros b Hb. by apply elem_of_nil in Hb.
  - destruct fuel as [|fuel]; [lia|]. simpl in Hfuel.
    destruct (erase_spec _ _ _ _ _ _ Hl)
      as (h1 & Hrun & Hl1 & Hfr1 & Ha & Hdead1 & Hsz1).
    destruct (IH h1 _ l1 fuel Hl1)
      as (l' & h' & Hrun' & Hl' & Hfr' & Hin & Hdead' & Hsz'); [lia|].
    exists l', h'. cbn [erase_loop first_or p].
    change (mkIt (Some a)) with (iterator_at (Some a)).
    rewrite (bind_ok _ _ _ _ _ Hrun). cbn [fst snd]. split; [exact Hrun'|].
    split; [done|]. split; [|split; [|split]].
    + eapply frame_trans; [exact Hfr1|exact Hfr'|]. apply grown_from_sub.
      intros b. rewrite !fmap_app, !elem_of_app, fmap_cons, elem_of_cons. tauto.
    + intros b Hb. apply elem_of_cons in Hb as [->|Hb]; [by apply Hdead'|by apply Hin].
    + auto.
    + simpl. lia.
Qed.

(** *** Overwriting the element of a node *)

Lemma is_list_update h h' l l1 b w v l2 :
  is_list h l (l1 ++ (b, w) :: l2) →
  h' !! b = Some (mkNode v (first_or None l2) (last_or None l1)) →
  (∀ e, e ∈ (l1 ++ l2).*1 → h' !! e = h !! e) →
  is_list h' l (l1 ++ (b, v) :: l2).
Proof.
  intros (Hseg & Hnd & Hh & Ht & Hn & Hmax) Hb Hsame.
  apply seg_mid in Hseg as (Hs1 & _ & Hs2). tidy.
  split_and!.
  - apply seg_mid. tidy. split_and!; [|done|].
    + eapply seg_frame; [exact Hs1|]. intros e He. apply Hsame.
      apply elem_of_app. by left.
    + eapply seg_frame; [exact Hs2|]. intros e He. apply Hsame.
      apply elem_of_app. by right.
  - by tidy.
  - rewrite Hh. by tidy.
  - rewrite Ht. by tidy.
  - rewrite Hn. by tidy.
  - by tidy.
Qed.

Lemma write_ref_spec h l l1 b w l2 v :
  is_list h l (l1 ++ (b, w) :: l2) →
  ∃ h',
    write_ref b v h = Ok (tt, h')
    ∧ is_list h' l (l1 ++ (b, v) :: l2)
    ∧ (∀ e, e ≠ b → h' !! e = h !! e)
    ∧ is_Some (h' !! b)
    ∧ base.size h' = base.size h.
Proof.
  intros Hl. pose proof Hl as (Hseg & Hnd & _).
  apply seg_mid in Hseg as (_ & Hb & _). tidy. split_facts.
  eexists. unfold write_ref. split; [by eapply set_data_ok|]. split; [|split; [|split]].
  - eapply is_list_update; [exact Hl|heap_cases|]. intros e He.
    rewrite fmap_app in He. heap_cases.
  - intros e He. heap_cases.
  - heap_cases.
  - heap_size.
Qed.

Lemma post_incr_node h a n :
  h !! a = Some n → post_incr (mkIt (Some a)) h = Ok ((mkIt (pNext n), mkIt (pNext n)), h).
Proof. intros Ha. unfold post_incr. proj. by repeat exec. Qed.

Lemma post_incr_null (h : heap) : post_incr (mkIt None) h = Ok ((mkIt None, mkIt None), h).
Proof. done. Qed.

(** *** Sequencing computations that allocate *)

Lemma returns_bind {A B} n1 n2 n (m : M T A) (k : A → M T B) h
    (Q : A → heap → Prop) (R : B → heap → Prop) :
  returns n1 m h Q →
  (n1 ≤ n)%nat →
  (∀ a h', Q a h' →
     returns n2 (k a) h' R ∧ (base.size h' + n2 ≤ base.size h + n)%nat) →
  returns n (bind m k) h R.
Proof.
  unfold returns, bind. intros Hm Hn Hk.
  destruct (m h) as [[a h']|e]; [|split; [tauto|lia]].
  destruct (Hk a h' Hm) as [Hka Hsz].
  destruct (k a h') as [[b h'']|e]; [done|]. split; [tauto|lia].
Qed.

Lemma returns_step {A B} n (m : M T A) (k : A → M T B) h a h'
    (Q : B → heap → Prop) :
  m h = Ok (a, h') → base.size h' = base.size h →
  returns n (k a) h' Q → returns n (bind m k) h Q.
Proof. unfold returns, bind. intros -> <-. done. Qed.

Lemma returns_pure {A} n (m : M T A) h (Q : A → heap → Prop) a h' :
  m h = Ok (a, h') → Q a h' → returns n m h Q.
Proof. apply returns_intro. Qed.

(** *** Assignment from an initializer list *)

Lemma overwritten_nil_r l2 : overwritten l2 ([] : list T) = l2.
Proof. by destruct l2. Qed.

Lemma overwritten_fst l2 (vs : list T) : (overwritten l2 vs).*1 = l2.*1.
Proof.
  revert vs. induction l2 as [|x l2 IH]; intros [|v vs]; simpl; try done.
  by rewrite IH.
Qed.

Lemma overwritten_length l2 (vs : list T) : length (overwritten l2 vs) = length l2.
Proof. by rewrite <- (length_fmap fst), overwritten_fst, length_fmap. Qed.

Lemma overwritten_snd l2 (vs : list T) :
  (overwritten l2 vs).*2 = take (length l2) vs ++ drop (length vs) l2.*2.
Proof.
  revert vs. induction l2 as [|x l2 IH]; intros [|v vs]; simpl; try done.
  by rewrite IH.
Qed.

Lemma overwritten_drop l2 (vs : list T) :
  drop (length vs) (overwritten l2 vs) = drop (length vs) l2.
Proof.
  revert vs. induction l2 as [|x l2 IH]; intros [|v vs]; simpl; try done.
Qed.

Lemma il_overwrite_spec (rhs : list T) : ∀ h l l1 l2,
  is_list h l (l1 ++ l2) →
  returns (length rhs - length l2) (il_overwrite rhs (mkIt (first_or None l2)) l) h
    (λ r h',
      ∃ new,
        new.*2 = drop (length l2) rhs
        ∧ (∀ b, b ∈ new.*1 → h !! b = None)
        ∧ is_list h' (snd r) (l1 ++ overwritten l2 rhs ++ new)
        ∧ fst r = mkIt (first_or None (drop (length rhs) l2))
        ∧ frame (l1 ++ l2).*1 h h'
        ∧ (∀ b, is_Some (h !! b) → is_Some (h' !! b))
        ∧ base.size h' = (base.size h + length new)%nat).
Proof.
  induction rhs as [|item rhs IH]; intros h l l1 l2 Hl.
  - eapply returns_intro; [reflexivity|]. exists []. simpl.
    rewrite overwritten_nil_r, app_nil_r, drop_nil.
    split_and!; try done. by intros b Hb%elem_of_nil.
  - destruct l2 as [|[b w] l2].
    + (* past the end: push_back *)
      cbn [il_overwrite first_or]. rewrite it_eq_end_None.
      eapply (returns_bind 1 (length rhs - 0)); [by eapply push_back_returns|simpl; lia|].
      intros l' h' (a & Ha & Hl' & Hfr & Hlive & Hsz). split; [|simpl; lia].
      eapply returns_step; [apply post_incr_null|done|]. cbn [snd].
      rewrite app_nil_r in *.
      pose proof (IH h' l' (l1 ++ [(a, item)]) []) as Hrec.
      rewrite app_nil_r in Hrec. specialize (Hrec Hl').
      eapply returns_mono; [exact Hrec|]. clear Hrec.
      intros r h'' (new & Hnew & Hdead & Hl'' & Hit & Hfr' & Hlive' & Hsz').
      exists ((a, item) :: new). simpl in *.
      split_and!.
      * by f_equal.
      * intros e He. apply elem_of_cons in He as [->|He]; [done|].
        destruct (h !! e) as [ne|] eqn:Hne; [|done].
        destruct (Hlive e) as [ne' Hne']; [by eexists|].
        rewrite (Hdead e He) in Hne'. done.
      * by rewrite <- app_assoc in Hl''.
      * by rewrite Hit, drop_nil.
      * eapply frame_trans; [exact Hfr|exact Hfr'|].
        intros e He. rewrite fmap_app in He. apply elem_of_app in He as [He|He]; [by left|].
        apply list_elem_of_singleton in He. subst. by right.
      * auto.
      * lia.
    + (* on a node: overwrite its element *)
      cbn [il_overwrite first_or]. rewrite it_eq_end_Some.
      destruct (write_ref_spec _ _ _ _ _ _ item Hl) as (h' & Hw & Hl' & Hsame & Hb & Hsz).
      pose proof Hl' as (Hseg' & _). apply seg_mid in Hseg' as (_ & Hb' & _).
      unfold deref. proj.
      eapply returns_step; [|exact Hsz|].
      { exec. rewrite (bind_ok _ _ _ _ _ Hw). reflexivity. }
      eapply returns_step; [apply (post_incr_node _ _ _ Hb')|done|]. proj.
      pose proof (IH h' l (l1 ++ [(b, item)]) l2) as Hrec.
      rewrite <- app_assoc in Hrec. specialize (Hrec Hl').
      eapply returns_mono; [exact Hrec|]. clear Hrec.
      intros r h'' (new & Hnew & Hdead & Hl'' & Hit & Hfr' & Hlive' & Hsz').
      exists new. simpl in *. rewrite <- app_assoc in Hl''. split_and!; try done.
      * intros e He. specialize (Hdead e He).
        destruct (decide (e = b)) as [->|Hne]; [by destruct Hb; congruence|].
        by rewrite <- Hsame.
      * intros e He Hlive. rewrite fmap_app, fmap_cons in He.
        assert (e ≠ b) by (intros ->; apply He; set_solver).
        rewrite <- (Hsame e) by done.
        apply Hfr'; [by rewrite fmap_app, fmap_cons|by rewrite Hsame].
      * intros e He. apply Hlive'. destruct (decide (e = b)) as [->|Hne]; [done|].
        by rewrite Hsame.
      * lia.
Qed.

Lemma it_ne_end_first_or (l : List) xs :
  it_ne (mkIt (first_or None xs)) (end_ l) = negb (bool_decide (xs = [])).
Proof. by destruct xs. Qed.

Lemma assign_il_spec h l xs (rhs : list T) :
  is_list h l xs →
  returns (length rhs - length xs) (assign_il l rhs) h (λ l' h',
    ∃ new,
      is_list h' l' (take (length rhs) (overwritten xs rhs) ++ new)
      ∧ new.*2 = drop (length xs) rhs
      ∧ (∀ b, b ∈ new.*1 → h !! b = None)
      ∧ (∀ b, b ∈ drop (length rhs) xs.*1 → h' !! b = None)
      ∧ frame xs.*1 h h'
      ∧ (base.size h' + (length xs - length rhs) = base.size h + length new)%nat).
Proof.
  intros Hl. unfold assign_il, begin, iterator_at.
  replace (pHead l) with (first_or None xs) by (by destruct Hl as (_ & _ & -> & _)).
  eapply (returns_bind (length rhs - length xs) 0);
    [exact (il_overwrite_spec rhs h l [] xs Hl)|lia|].
  intros [it l'] h' (new & Hnew & Hdead & Hl' & Hit & Hfr & Hlive & Hsz).
  simpl in Hl', Hit, Hfr. subst it. proj.
  assert (Hlnew : length new = (length rhs - length xs)%nat).
  { by rewrite <- (length_fmap snd), Hnew, length_drop. }
  split; [|lia].
  rewrite it_ne_end_first_or. case_bool_decide as Hdrop; cbn [negb].
  - (* the literal is at least as long: nothing to release *)
    apply (f_equal length) in Hdrop. rewrite length_drop in Hdrop. simpl in Hdrop.
    eapply returns_intro; [reflexivity|]. exists new.
    rewrite take_ge by (rewrite overwritten_length; lia).
    split_and!; try done; [|lia].
    intros b Hb. rewrite <- fmap_drop, drop_ge in Hb by lia. by apply elem_of_nil in Hb.
  - (* the literal is shorter: release the surplus nodes *)
    assert (Hlt : (length rhs < length xs)%nat).
    { destruct (decide (length rhs < length xs)%nat); [done|].
      exfalso. apply Hdrop. apply drop_ge. lia. }
    assert (new = []) as ->.
    { rewrite drop_ge in Hnew by lia. by apply fmap_nil_inv in Hnew. }
    rewrite app_nil_r in *.
    rewrite <- (take_drop (length rhs) (overwritten xs rhs)), overwritten_drop in Hl'.
    pose proof (is_list_length _ _ _ Hl') as Hlen. rewrite length_app in Hlen.
    destruct (erase_loop_spec (drop (length rhs) xs) h' l'
                (take (length rhs) (overwritten xs rhs)) (S (base.size h')) Hl')
      as (l'' & h'' & Hrun & Hl'' & Hfr' & Hin & Hdead' & Hsz'); [lia|].
    eapply returns_intro.
    { unfold live. unfold bind at 1. rewrite (bind_ok _ _ _ _ _ Hrun). reflexivity. }
    exists []. rewrite app_nil_r. rewrite length_drop in Hsz'. simpl in *.
    split_and!; try done; [| |lia].
    + intros b Hb. apply Hin. by rewrite fmap_drop.
    + eapply frame_trans; [exact Hfr|exact Hfr'|]. apply grown_from_sub.
      intros b. rewrite fmap_app, <- overwritten_drop, <- fmap_app, take_drop.
      by rewrite overwritten_fst.
Qed.

Lemma assign_il_contents xs (rhs : list T) (nw : list (loc * T)) :
  nw.*2 = drop (length xs) rhs →
  (take (length rhs) (overwritten xs rhs) ++ nw).*2 = rhs.
Proof.
  intros Hnew. rewrite fmap_app, Hnew, fmap_take, overwritten_snd.
  destruct (decide (length xs ≤ length rhs)%nat) as [Hle|Hgt].
  - rewrite drop_ge by (rewrite length_fmap; lia). rewrite app_nil_r.
    rewrite take_take. replace (length rhs `min` length xs)%nat with (length xs) by lia.
    apply take_drop.
  - rewrite (drop_ge rhs) by lia. rewrite app_nil_r.
    rewrite (take_ge rhs) by lia. by rewrite take_app_length.
Qed.

Lemma assign_il_nodes xs (rhs : list T) (nw : list (loc * T)) :
  (take (length rhs) (overwritten xs rhs) ++ nw).*1
  = take (length rhs) xs.*1 ++ nw.*1.
Proof. by rewrite fmap_app, fmap_take, overwritten_fst. Qed.

(** *** Move assignment *)

Lemma is_list_same h h' l xs :
  is_list h l xs → (∀ e, e ∈ xs.*1 → h' !! e = h !! e) → is_list h' l xs.
Proof.
  intros (Hseg & Hrest) Hsame. split; [|done]. by eapply seg_frame.
Qed.

Lemma moved_prefix_nil (mf : T → T) n : moved_prefix mf n [] = [].
Proof. by destruct n. Qed.

Lemma moved_prefix_fst (mf : T → T) n r2 : (moved_prefix mf n r2).*1 = r2.*1.
Proof.
  revert r2. induction n as [|n IH]; intros [|x r2]; simpl; try done.
  by rewrite IH.
Qed.

Lemma moved_prefix_length (mf : T → T) n r2 :
  length (moved_prefix mf n r2) = length r2.
Proof. by rewrite <- (length_fmap fst), moved_prefix_fst, length_fmap. Qed.

Lemma moved_prefix_id n (r2 : list (loc * T)) : moved_prefix id n r2 = r2.
Proof.
  revert r2. induction n as [|n IH]; intros [|[c v] r2]; simpl; try done.
  by rewrite IH.
Qed.

Lemma move_overwrite_spec (mf : T → T) r2 : ∀ l2 h l r l1 r1 fuel,
  is_list h l (l1 ++ l2) → is_list h r (r1 ++ r2) →
  (l1 ++ l2).*1 ## (r1 ++ r2).*1 → (length r2 < fuel)%nat →
  ∃ h',
    move_overwrite mf fuel (mkIt (first_or None r2)) (mkIt (first_or None l2)) l r h
    = Ok ((mkIt (first_or None (drop (length l2) r2)),
           mkIt (first_or None (drop (length r2) l2))), h')
    ∧ is_list h' l (l1 ++ overwritten l2 r2.*2)
    ∧ is_list h' r (r1 ++ moved_prefix mf (length l2) r2)
    ∧ (∀ e, e ∉ (l1 ++ l2).*1 → e ∉ (r1 ++ r2).*1 → h' !! e = h !! e)
    ∧ (∀ e, is_Some (h' !! e) ↔ is_Some (h !! e))
    ∧ base.size h' = base.size h.
Proof.
  induction r2 as [|[c v] r2 IH]; intros l2 h l r l1 r1 fuel Hl Hr Hdisj Hfuel.
  - exists h. destruct fuel; [simpl in Hfuel; lia|].
    rewrite moved_prefix_nil, overwritten_nil_r, drop_nil, drop_0. by split_and!.
  - destruct l2 as [|[b w] l2].
    + exists h. destruct fuel; [simpl in Hfuel; lia|]. rewrite drop_nil. by split_and!.
    + destruct fuel as [|fuel]; [simpl in Hfuel; lia|]. simpl in Hfuel.
      assert (Hbc : b ≠ c).
      { intros ->. apply (Hdisj c); rewrite fmap_app, elem_of_app; right; set_solver. }
      destruct (write_ref_spec _ _ _ _ _ _ (mf v) Hr)
        as (hc & Hwc & Hrc & Hsamec & Hlivec & Hszc).
      assert (Hlc : is_list hc l (l1 ++ (b, w) :: l2)).
      { eapply is_list_same; [exact Hl|]. intros e He. apply Hsamec. intros ->.
        apply (Hdisj c He). rewrite fmap_app, elem_of_app. right. set_solver. }
      destruct (write_ref_spec _ _ _ _ _ _ v Hlc)
        as (hb & Hwb & Hlb & Hsameb & Hliveb & Hszb).
      assert (Hrb : is_list hb r (r1 ++ (c, mf v) :: r2)).
      { eapply is_list_same; [exact Hrc|]. intros e He. apply Hsameb. intros ->.
        apply (Hdisj b); rewrite fmap_app, elem_of_app; [right; set_solver|].
        rewrite fmap_app, elem_of_app in He. set_solver. }
      pose proof Hr as (Hsr & _). apply seg_mid in Hsr as (_ & Hc & _).
      pose proof Hlb as (Hsl & _). apply seg_mid in Hsl as (_ & Hb & _).
      pose proof Hrb as (Hsr & _). apply seg_mid in Hsr as (_ & Hc' & _).
      destruct (IH l2 hb l r (l1 ++ [(b, v)]) (r1 ++ [(c, mf v)]) fuel)
        as (h' & Hrun & Hl' & Hr' & Hsame' & Hlive' & Hsz').
      { by rewrite <- app_assoc. }
      { by rewrite <- app_assoc. }
      { rewrite <- !app_assoc. simpl. intros e. rewrite !fmap_app, !fmap_cons.
        intros He1 He2. apply (Hdisj e); by rewrite fmap_app, fmap_cons. }
      { lia. }
      exists h'. rewrite <- !app_assoc in *. cbn [app] in *.
      cbn [move_overwrite first_or]. cbn [fst]. rewrite !it_ne_end_Some. cbn [andb].
      unfold deref, move_assign_T, read_ref. proj.
      do 2 exec. rewrite ?bind_assoc. exec.
      rewrite !bind_assoc. rewrite (bind_ok _ _ _ _ _ Hwc).
      rewrite (bind_ok _ _ _ _ _ Hwb).
      rewrite (bind_ok _ _ _ _ _ (pre_incr_node _ _ _ Hb)).
      rewrite (bind_ok _ _ _ _ _ (pre_incr_node _ _ _ Hc')). proj.
      split; [exact Hrun|]. split_and!; try done.
      * intros e He1 He2. rewrite fmap_app, fmap_cons in He1, He2.
        rewrite Hsame'; [|by rewrite fmap_app, fmap_cons..].
        rewrite Hsameb by set_solver. apply Hsamec. set_solver.
      * intros e. rewrite Hlive'. destruct (decide (e = b)) as [->|Hne].
        { split; intros _; [|done]. rewrite <- Hsamec by done.
          destruct Hlc as (Hs & _). eapply seg_live; [exact Hs|]. set_solver. }
        rewrite Hsameb by done. destruct (decide (e = c)) as [->|Hne'].
        { split; intros _; [by eexists|done]. }
        by rewrite Hsamec.
      * lia.
Qed.

Lemma move_append_eq (fuel : nat) it (l r : List) :
  @move_append T fuel it l r = copy_append fuel it l r.
Proof. reflexivity. Qed.

Lemma copy_append_spec r2 : ∀ h l xs r r1 fuel,
  is_list h l xs → is_list h r (r1 ++ r2) →
  xs.*1 ## (r1 ++ r2).*1 → (length r2 < fuel)%nat →
  returns (length r2) (copy_append fuel (mkIt (first_or None r2)) l r) h
    (λ l' h',
      ∃ new,
        new.*2 = r2.*2
        ∧ (∀ b, b ∈ new.*1 → h !! b = None)
        ∧ is_list h' l' (xs ++ new)
        ∧ frame xs.*1 h h'
        ∧ (∀ b, is_Some (h !! b) → is_Some (h' !! b))
        ∧ base.size h' = (base.size h + length new)%nat).
Proof.
  induction r2 as [|[c v] r2 IH]; intros h l xs r r1 fuel Hl Hr Hdisj Hfuel.
  - destruct fuel; [simpl in Hfuel; lia|].
    eapply returns_intro; [reflexivity|]. exists []. rewrite app_nil_r.
    split_and!; try done; try (simpl; lia); try apply frame_refl.
    by intros b Hb%elem_of_nil.
  - destruct fuel as [|fuel]; [simpl in Hfuel; lia|]. simpl in Hfuel.
    pose proof Hr as (Hsr & _). apply seg_mid in Hsr as (_ & Hc & _).
    cbn [fst snd] in Hc.
    assert (Hcx : c ∉ xs.*1).
    { intros Hin. apply (Hdisj c Hin). rewrite fmap_app, elem_of_app. right. set_solver. }
    cbn [copy_append first_or fst]. rewrite it_ne_end_Some.
    unfold deref, read_ref. proj.
    eapply returns_step; [apply ret_ok|done|].
    eapply returns_step; [by eapply get_data_ok|done|]. proj.
    eapply (returns_bind 1 (length r2)); [by eapply push_back_returns|simpl; lia|].
    intros l' h' (a & Ha & Hl' & Hfr & Hlive & Hsz). split; [|simpl; lia].
    assert (Hr' : is_list h' r ((r1 ++ [(c, v)]) ++ r2)).
    { rewrite <- app_assoc. eapply is_list_frame; [exact Hr|exact Hfr|done]. }
    assert (Hc' : h' !! c = h !! c) by (apply Hfr; [done|by eexists]).
    rewrite Hc in Hc'.
    eapply returns_step; [apply (pre_incr_node _ _ _ Hc')|done|]. proj.
    assert (Har : a ∉ (r1 ++ (c, v) :: r2).*1).
    { destruct Hr as (Hs & _). by eapply seg_dead. }
    pose proof (IH h' l' (xs ++ [(a, v)]) r (r1 ++ [(c, v)]) fuel Hl' Hr') as Hrec.
    eapply returns_mono; [apply Hrec; [|lia]|]; clear Hrec.
    { rewrite <- app_assoc. simpl. intros e He. rewrite fmap_app in He.
      apply elem_of_app in He as [He|He]; [by apply Hdisj|].
      apply list_elem_of_singleton in He. by subst. }
    intros l'' h'' (new & Hnew & Hdead & Hl'' & Hfr' & Hlive' & Hsz').
    exists ((a, v) :: new). rewrite <- app_assoc in Hl''. split_and!; try done.
    + simpl. by f_equal.
    + intros e He. simpl in He. apply elem_of_cons in He as [->|He]; [done|].
      destruct (h !! e) as [ne|] eqn:Hne; [|done].
      destruct (Hlive e) as [ne' Hne']; [by eexists|].
      rewrite (Hdead e He) in Hne'. done.
    + eapply frame_trans; [exact Hfr|exact Hfr'|].
      intros e He. rewrite fmap_app in He. apply elem_of_app in He as [He|He]; [by left|].
      apply list_elem_of_singleton in He. subst. by right.
    + auto.
    + simpl. lia.
Qed.

(** *** Construction from a sequence *)

Lemma push_back_all_spec (src : list T) : ∀ h l xs,
  is_list h l xs →
  returns (length src) (push_back_all src l) h
    (λ l' h',
      ∃ new,
        new.*2 = src
        ∧ (∀ b, b ∈ new.*1 → h !! b = None)
        ∧ is_list h' l' (xs ++ new)
        ∧ frame xs.*1 h h'
        ∧ (∀ b, is_Some (h !! b) → is_Some (h' !! b))
        ∧ base.size h' = (base.size h + length new)%nat).
Proof.
  induction src as [|v src IH]; intros h l xs Hl.
  - eapply returns_intro; [reflexivity|]. exists []. rewrite app_nil_r.
    split_and!; try done; try (simpl; lia); try apply frame_refl.
    by intros b Hb%elem_of_nil.
  - cbn [push_back_all].
    eapply (returns_bind 1 (length src)); [by eapply push_back_returns|simpl; lia|].
    intros l' h' (a & Ha & Hl' & Hfr & Hlive & Hsz). split; [|simpl; lia].
    eapply returns_mono; [exact (IH h' l' _ Hl')|].
    intros l'' h'' (new & Hnew & Hdead & Hl'' & Hfr' & Hlive' & Hsz').
    exists ((a, v) :: new). rewrite <- app_assoc in Hl''. split_and!; try done.
    + simpl. by f_equal.
    + intros e He. simpl in He. apply elem_of_cons in He as [->|He]; [done|].
      destruct (h !! e) as [ne|] eqn:Hne; [|done].
      destruct (Hlive e) as [ne' Hne']; [by eexists|].
      rewrite (Hdead e He) in Hne'. done.
    + eapply frame_trans; [exact Hfr|exact Hfr'|].
      intros e He. rewrite fmap_app in He. apply elem_of_app in He as [He|He]; [by left|].
      apply list_elem_of_singleton in He. subst. by right.
    + auto.
    + simpl. lia.
Qed.

Lemma moved_prefix_drop (mf : T → T) n r2 :
  drop n (moved_prefix mf n r2) = drop n r2.
Proof.
  revert r2. induction n as [|n IH]; intros [|x r2]; simpl; try done.
Qed.

Lemma live_ok h : @live T h = Ok (base.size h, h).
Proof. done. Qed.

Lemma empty_is_list h r ys : is_list h r ys → empty r = bool_decide (ys = []).
Proof. intros Hr. destruct r as [n hd tl]. apply empty_length. apply Hr. Qed.

Lemma assign_move_spec (mf : T → T) h l r xs ys :
  is_list h l xs → is_list h r ys → xs.*1 ## ys.*1 →
  returns (length ys - length xs) (assign_move mf l r) h (λ l' h',
    ∃ new,
      is_list h' l' (take (length ys) (overwritten xs ys.*2) ++ new)
      ∧ is_list h' r (moved_prefix mf (length xs) ys)
      ∧ new.*2 = drop (length xs) ys.*2
      ∧ (∀ b, b ∈ new.*1 → h !! b = None)
      ∧ (∀ b, b ∈ drop (length ys) xs.*1 → h' !! b = None)
      ∧ frame (xs.*1 ++ ys.*1) h h'
      ∧ (base.size h' + (length xs - length ys) = base.size h + length new)%nat).
Proof.
  intros Hl Hr Hdisj. unfold assign_move, begin, iterator_at.
  replace (pHead l) with (first_or None xs) by (by destruct Hl as (_ & _ & -> & _)).
  replace (pHead r) with (first_or None ys) by (by destruct Hr as (_ & _ & -> & _)).
  pose proof (is_list_length _ _ _ Hr) as Hlenr.
  destruct (move_overwrite_spec mf ys xs h l r [] [] (S (base.size h)) Hl Hr Hdisj)
    as (h1 & Hrun & Hl1 & Hr1 & Hsame1 & Hlive1 & Hsz1); [lia|].
  cbn [app] in Hl1, Hr1, Hsame1.
  eapply returns_step; [apply live_ok|done|].
  eapply returns_step; [exact Hrun|done|]. proj.
  assert (Hfr1 : frame (xs.*1 ++ ys.*1) h h1).
  { intros e He _. apply not_elem_of_app in He as [? ?]. by apply Hsame1. }
  rewrite !it_ne_end_first_or, (empty_is_list _ _ _ Hr).
  case_bool_decide as Hdr; cbn [negb].
  - (* the source is not longer *)
    apply (f_equal length) in Hdr. rewrite length_drop in Hdr. simpl in Hdr.
    case_bool_decide as Hys.
    + (* an empty source: clear *)
      subst ys. rewrite overwritten_nil_r in Hl1.
      destruct (clear_spec _ _ _ Hl1) as (h' & Hclr & Hl' & Hfr' & Hin & Hdead & Hsz').
      eapply returns_intro; [exact Hclr|]. exists []. simpl in *.
      rewrite ?moved_prefix_nil in *.
      split; [done|]. split.
      { eapply is_list_same; [exact Hr1|]. by intros e He%elem_of_nil. }
      split; [by rewrite drop_nil|]. split; [by intros b Hb%elem_of_nil|].
      split; [done|]. split; [|lia].
      eapply frame_trans; [exact Hfr1|exact Hfr'|].
      apply grown_from_sub. intros e He. by rewrite app_nil_r.
    + case_bool_decide as Hdl; cbn [negb].
      * (* equal lengths *)
        apply (f_equal length) in Hdl. rewrite length_drop in Hdl. simpl in Hdl.
        eapply returns_intro; [reflexivity|]. exists [].
        rewrite app_nil_r, take_ge by (rewrite overwritten_length; lia).
        rewrite drop_ge by (rewrite length_fmap; lia).
        split_and!; try done; try (simpl; lia); try (by intros ? ?%elem_of_nil).
        intros b Hb. rewrite drop_ge in Hb by (rewrite length_fmap; lia).
        by apply elem_of_nil in Hb.
      * (* a shorter source: release the surplus nodes *)
        assert (Hlt : (length ys < length xs)%nat).
        { destruct (decide (length ys < length xs)%nat); [done|].
          exfalso. apply Hdl. apply drop_ge. lia. }
        rewrite <- (take_drop (length ys) (overwritten xs ys.*2)) in Hl1.
        replace (drop (length ys) (overwritten xs ys.*2)) with (drop (length ys) xs) in Hl1
          by (rewrite <- (length_fmap snd ys); by rewrite overwritten_drop).
        pose proof (is_list_length _ _ _ Hl1) as Hlen. rewrite length_app in Hlen.
        destruct (erase_loop_spec (drop (length ys) xs) h1 l
                    (take (length ys) (overwritten xs ys.*2)) (S (base.size h1)) Hl1)
          as (l'' & h'' & Hrun' & Hl'' & Hfr' & Hin & Hdead' & Hsz'); [lia|].
        eapply returns_step; [apply live_ok|done|].
        eapply returns_intro; [by rewrite (bind_ok _ _ _ _ _ Hrun')|].
        exists []. rewrite app_nil_r. rewrite length_drop in Hsz'.
        rewrite drop_ge by (rewrite length_fmap; lia).
        assert (Hfoot : ∀ e, e ∈ (take (length ys) (overwritten xs ys.*2)
                                   ++ drop (length ys) xs).*1 ↔ e ∈ xs.*1).
        { intros e. rewrite fmap_app, <- (length_fmap snd ys), <- overwritten_drop.
          by rewrite <- fmap_app, take_drop, overwritten_fst. }
        split_and!; try done; try (simpl; lia); try (by intros ? ?%elem_of_nil).
        -- eapply is_list_frame; [exact Hr1|exact Hfr'|].
           intros e He1 He2. rewrite moved_prefix_fst in He2.
           apply (Hdisj e); [by apply Hfoot|done].
        -- intros b Hb. apply Hin. by rewrite fmap_drop.
        -- eapply frame_trans; [exact Hfr1|exact Hfr'|].
           apply grown_from_sub. intros e He. apply elem_of_app. left.
           by apply Hfoot.
  - (* a longer source: append the rest *)
    assert (Hlt : (length xs < length ys)%nat).
    { destruct (decide (length xs < length ys)%nat); [done|].
      exfalso. apply Hdr. apply drop_ge. lia. }
    rewrite <- (take_drop (length xs) (moved_prefix mf (length xs) ys)),
      moved_prefix_drop in Hr1.
    eapply returns_step; [apply live_ok|done|].
    rewrite move_append_eq.
    pose proof (is_list_length _ _ _ Hr1) as Hlen1. rewrite length_app in Hlen1.
    eapply returns_mono.
    { replace (length ys - length xs)%nat with (length (drop (length xs) ys))
        by (by rewrite length_drop).
      eapply (copy_append_spec _ h1 l _ r _ (S (base.size h1)) Hl1 Hr1); [|lia].
      rewrite overwritten_fst, fmap_app, <- (moved_prefix_drop mf), <- fmap_app, take_drop.
      by rewrite moved_prefix_fst. }
    intros l' h' (new & Hnew & Hdead & Hl' & Hfr' & Hlive' & Hsz').
    exists new. rewrite <- (moved_prefix_drop mf), take_drop in Hr1.
    rewrite take_ge by (rewrite overwritten_length; lia).
    split_and!; try done.
    + eapply is_list_frame; [exact Hr1|exact Hfr'|].
      rewrite overwritten_fst, moved_prefix_fst. done.
    + by rewrite Hnew, fmap_drop.
    + intros b Hb. specialize (Hdead b Hb).
      destruct (h !! b) eqn:Hb'; [|done]. destruct (Hlive1 b) as [_ Hx].
      destruct Hx as [? Hx]; [by eexists|]. congruence.
    + intros b Hb. rewrite drop_ge in Hb by (rewrite length_fmap; lia).
      by apply elem_of_nil in Hb.
    + eapply frame_trans; [exact Hfr1|exact Hfr'|].
      apply grown_from_sub. intros e He. apply elem_of_app. left.
      by rewrite overwritten_fst in He.
    + lia.
Qed.

(** *** Copy assignment: the move assignment of a type whose moves copy *)

Lemma bind_ext {A B} (m : M T A) (k k' : A → M T B) h :
  (∀ a h', k a h' = k' a h') → bind m k h = bind m k' h.
Proof. intros Hk. unfold bind. destruct (m h) as [[a h']|e]; [apply Hk|done]. Qed.

Lemma bind_ext2 {A B} (m m' : M T A) (k k' : A → M T B) h :
  m h = m' h → (∀ a h', k a h' = k' a h') → bind m k h = bind m' k' h.
Proof.
  intros Hm Hk. unfold bind. rewrite Hm. destruct (m' h) as [[a h']|e]; [apply Hk|done].
Qed.

Lemma move_assign_T_id {B} (dst src : loc) (k : M T B) h :
  (let* _ := move_assign_T id dst src in k) h
  = (let* v := read_ref src in let* _ := write_ref dst v in k) h.
Proof.
  unfold move_assign_T, read_ref, write_ref, get_data, set_data, modify, load, bind, ret.
  destruct (h !! src) as [n|] eqn:Hsrc; [|reflexivity].
  cbn beta iota. rewrite Hsrc. cbn beta iota.
  rewrite (alter_as_insert _ _ _ _ Hsrc).
  replace (<[src := with_data (id (data n)) n]> h) with h; [done|].
  symmetry. apply insert_id. by destruct n.
Qed.

Lemma copy_overwrite_as_move fuel : ∀ itR itL (l r : List) h,
  copy_overwrite fuel itR itL l r h = @move_overwrite T id fuel itR itL l r h.
Proof.
  induction fuel as [|fuel IH]; intros itR itL l r h; [done|].
  cbn [copy_overwrite move_overwrite].
  destruct (it_ne itR (end_ r) && it_ne itL (end_ l)); [|done].
  apply bind_ext. intros src h1. apply bind_ext. intros dst h2.
  rewrite move_assign_T_id.
  apply bind_ext. intros v h3. apply bind_ext. intros _ h4.
  apply bind_ext. intros itL' h5. apply bind_ext. intros itR' h6. apply IH.
Qed.

Lemma assign_copy_as_move (l r : List) h :
  assign_copy l r h = @assign_move T id l r h.
Proof.
  unfold assign_copy, assign_move. apply bind_ext. intros n h1.
  apply bind_ext2; [apply copy_overwrite_as_move|]. intros its h2.
  reflexivity.
Qed.

Lemma seg_agree h h' prv xs nxt e :
  seg h prv xs nxt → seg h' prv xs nxt → e ∈ xs.*1 → h' !! e = h !! e.
Proof.
  revert prv. induction xs as [|x xs IH]; intros prv Hs Hs' He.
  - by apply elem_of_nil in He.
  - destruct Hs as [Hx Hs]. destruct Hs' as [Hx' Hs'].
    rewrite fmap_cons in He. apply elem_of_cons in He as [->|He]; [congruence|].
    by eapply IH.
Qed.

Lemma assign_copy_spec h l r xs ys :
  is_list h l xs → is_list h r ys → xs.*1 ## ys.*1 →
  returns (length ys - length xs) (assign_copy l r) h (λ l' h',
    ∃ new,
      is_list h' l' (take (length ys) (overwritten xs ys.*2) ++ new)
      ∧ is_list h' r ys
      ∧ new.*2 = drop (length xs) ys.*2
      ∧ (∀ b, b ∈ new.*1 → h !! b = None)
      ∧ (∀ b, b ∈ drop (length ys) xs.*1 → h' !! b = None)
      ∧ frame xs.*1 h h'
      ∧ (base.size h' + (length xs - length ys) = base.size h + length new)%nat).
Proof.
  intros Hl Hr Hdisj. unfold returns. rewrite assign_copy_as_move.
  pose proof (assign_move_spec id h l r xs ys Hl Hr Hdisj) as Hmove.
  unfold returns in Hmove. destruct (assign_move id l r h) as [[l' h']|e]; [|done].
  destruct Hmove as (new & Hl' & Hr' & Hnew & Hdead & Hrel & Hfr & Hsz).
  rewrite moved_prefix_id in Hr'. exists new. split_and!; try done.
  (* the nodes of the source are not written either *)
  intros e He Hlive. destruct (decide (e ∈ ys.*1)) as [Hin|Hout].
  - destruct Hr as (Hs & _). destruct Hr' as (Hs' & _). by eapply seg_agree.
  - apply Hfr; [|done]. by apply not_elem_of_app.
Qed.

(** *** Assigning a list to itself *)

Lemma move_assign_T_self (mf : T → T) (c : loc) n h :
  h !! c = Some n → move_assign_T mf c c h = Ok (tt, h).
Proof.
  intros Hc. unfold move_assign_T, read_ref, write_ref. repeat exec.
  erewrite set_data_ok by heap_lookup. proj. do 2 f_equal.
  rewrite insert_insert_eq. apply insert_id. by destruct n.
Qed.

Lemma move_overwrite_self (mf : T → T) xs : ∀ h prv (l r : List) fuel,
  seg h prv xs None → (length xs < fuel)%nat →
  move_overwrite mf fuel (mkIt (first_or None xs)) (mkIt (first_or None xs)) l r h
  = Ok ((mkIt None, mkIt None), h).
Proof.
  induction xs as [|[c v] xs IH]; intros h prv l r fuel Hseg Hfuel.
  - by destruct fuel.
  - destruct fuel as [|fuel]; [simpl in Hfuel; lia|]. simpl in Hfuel.
    destruct Hseg as [Hc Hseg]. cbn [fst snd] in *.
    cbn [move_overwrite first_or fst]. rewrite !it_ne_end_Some. cbn [andb].
    unfold deref. proj. do 2 exec.
    rewrite (bind_ok _ _ _ _ _ (move_assign_T_self mf _ _ _ Hc)).
    rewrite (bind_ok _ _ _ _ _ (pre_incr_node _ _ _ Hc)).
    rewrite (bind_ok _ _ _ _ _ (pre_incr_node _ _ _ Hc)). proj.
    eapply IH; [exact Hseg|lia].
Qed.

Lemma is_list_nil_inv h l : is_list h l [] → l = mkList 0 None None.
Proof. intros (_ & _ & Hh & Ht & Hn & _). destruct l. simpl in *. by subst. Qed.

Lemma assign_move_self (mf : T → T) h l xs :
  is_list h l xs → assign_move mf l l h = Ok (l, h).
Proof.
  intros Hl. pose proof (is_list_length _ _ _ Hl) as Hlen.
  unfold assign_move, begin, iterator_at.
  rewrite (bind_ok _ _ _ _ _ (live_ok h)).
  erewrite bind_ok.
  2:{ destruct Hl as (Hseg & _ & -> & _). eapply move_overwrite_self; [exact Hseg|lia]. }
  proj. rewrite it_ne_end_None, (empty_is_list _ _ _ Hl).
  case_bool_decide as Hxs; [|done]. subst xs.
  rewrite (is_list_nil_inv _ _ Hl). reflexivity.
Qed.

Lemma assign_copy_self h l xs : is_list h l xs → assign_copy l l h = Ok (l, h).
Proof. intros Hl. rewrite assign_copy_as_move. by eapply assign_move_self. Qed.

(** *** The fill constructors *)

Lemma fill_loop_spec (t : T) num (k : nat) : ∀ i h l xs fuel,
  Z.to_nat (num - i) = k → 0 ≤ i ≤ INT_MAX → num ≤ INT_MAX → (k ≤ fuel)%nat →
  is_list h l xs →
  returns k (fill_loop fuel i num t l) h
    (λ l' h',
      ∃ new,
        new.*2 = replicate k t
        ∧ (∀ b, b ∈ new.*1 → h !! b = None)
        ∧ is_list h' l' (xs ++ new)
        ∧ frame xs.*1 h h'
        ∧ (∀ b, is_Some (h !! b) → is_Some (h' !! b))
        ∧ base.size h' = (base.size h + length new)%nat).
Proof.
  induction k as [|k IH]; intros i h l xs fuel Hk Hi Hnum Hfuel Hl.
  - assert (Hcond : (wrap64 i <? num) = false).
    { apply Z.ltb_ge. rewrite wrap64_small by (unfold INT_MAX in *; lia). lia. }
    eapply returns_intro; [by destruct fuel; simpl; rewrite Hcond|].
    exists []. rewrite app_nil_r.
    split_and!; try done; try (simpl; lia); try apply frame_refl.
    by intros b Hb%elem_of_nil.
  - assert (Hcond : (wrap64 i <? num) = true).
    { apply Z.ltb_lt. rewrite wrap64_small by (unfold INT_MAX in *; lia). lia. }
    destruct fuel as [|fuel]; [lia|]. cbn [fill_loop]. rewrite Hcond.
    eapply (returns_bind 1 k); [by eapply push_back_returns|lia|].
    intros l' h' (a & Ha & Hl' & Hfr & Hlive & Hsz). split; [|lia].
    replace (i =? INT_MAX) with false by (symmetry; apply Z.eqb_neq; lia).
    eapply returns_mono; [apply (IH (i + 1) h' l' (xs ++ [(a, t)]) fuel); try done; lia|].
    intros l'' h'' (new & Hnew & Hdead & Hl'' & Hfr' & Hlive' & Hsz').
    exists ((a, t) :: new). rewrite <- app_assoc in Hl''. split_and!; try done.
    + simpl. by f_equal.
    + intros e He. simpl in He. apply elem_of_cons in He as [->|He]; [done|].
      destruct (h !! e) as [ne|] eqn:Hne; [|done].
      destruct (Hlive e) as [ne' Hne']; [by eexists|].
      rewrite (Hdead e He) in Hne'. done.
    + eapply frame_trans; [exact Hfr|exact Hfr'|].
      intros e He. rewrite fmap_app in He. apply elem_of_app in He as [He|He]; [by left|].
      apply list_elem_of_singleton in He. subst. by right.
    + auto.
    + simpl. lia.
Qed.

(** A count above [INT_MAX] makes the loop counter overflow: the loop
    never returns. *)
Lemma fill_loop_overflow (t : T) num fuel : ∀ i l h,
  0 ≤ i ≤ INT_MAX → INT_MAX < num →
  ∃ e, fill_loop fuel i num t l h = Err e.
Proof.
  induction fuel as [|fuel IH]; intros i l h Hi Hnum;
    assert (Hcond : (wrap64 i <? num) = true)
      by (apply Z.ltb_lt; rewrite wrap64_small by (unfold INT_MAX in *; lia); lia);
    cbn [fill_loop]; rewrite Hcond; [by eexists|].
  unfold bind. destruct (push_back t l h) as [[l' h']|e]; [|by eexists].
  destruct (Z.eqb_spec i INT_MAX) as [->|Hne]; [by eexists|].
  apply IH; lia.
Qed.

(** *** Programs: every operation keeps the representation *)

Lemma repr_lookup w xss i l :
  repr w xss → vars w !! i = Some l → ∃ xs, xss !! i = Some xs ∧ is_list (store w) l xs.
Proof.
  intros (Hlen & Hall & _) Hl.
  destruct (xss !! i) as [xs|] eqn:Hxs.
  - exists xs. split; [done|]. by eapply Hall.
  - apply lookup_ge_None in Hxs. apply lookup_lt_Some in Hl. lia.
Qed.

Lemma addrs_disjoint_sym (ps qs : list loc) : ps ## qs → qs ## ps.
Proof. intros H b Hq Hp. by apply (H b). Qed.

Lemma grown_disjoint h ps ps' qs :
  grown_from h ps ps' → ps ## qs → (∀ b, b ∈ qs → is_Some (h !! b)) → ps' ## qs.
Proof.
  intros Hg Hd Hlive b Hb Hq. destruct (Hg b Hb) as [Hin|Hdead].
  - by apply (Hd b).
  - destruct (Hlive b Hq) as [n Hn]. congruence.
Qed.

Lemma is_list_live h l xs b : is_list h l xs → b ∈ xs.*1 → is_Some (h !! b).
Proof. intros (Hseg & _) Hb. by eapply seg_live. Qed.

(** One object is replaced; the others keep their nodes. *)
Lemma repr_member w xss x l xs l' xs' h' :
  repr w xss → vars w !! x = Some l → xss !! x = Some xs →
  is_list h' l' xs' → frame xs.*1 (store w) h' → grown_from (store w) xs.*1 xs'.*1 →
  repr (mkWorld h' (<[x := l']> (vars w))) (<[x := xs']> xss).
Proof.
  intros (Hlen & Hall & Hdisj) Hl Hxs Hl' Hfr Hg.
  assert (Hother : ∀ j ys, j ≠ x → xss !! j = Some ys → xs'.*1 ## ys.*1).
  { intros j ys Hj Hys. eapply grown_disjoint; [exact Hg|by eapply (Hdisj x j)|].
    intros b Hb. destruct (lookup_lt_is_Some_2 (vars w) j) as [lj Hlj].
    { rewrite Hlen. by eapply lookup_lt_Some. }
    eapply is_list_live; [by eapply Hall|done]. }
  split_and!; simpl.
  - by rewrite !length_insert.
  - intros i li ys Hi Hys. destruct (decide (i = x)) as [->|Hne].
    + rewrite list_lookup_insert_eq in Hi by (by eapply lookup_lt_Some).
      rewrite list_lookup_insert_eq in Hys by (by eapply lookup_lt_Some).
      by simplify_eq.
    + rewrite list_lookup_insert_ne in Hi by done.
      rewrite list_lookup_insert_ne in Hys by done.
      eapply is_list_frame; [by eapply Hall|exact Hfr|]. by apply (Hdisj x i).
  - intros i j ys zs Hij Hys Hzs.
    destruct (decide (i = x)) as [->|Hi]; destruct (decide (j = x)) as [->|Hj]; [done|..].
    + rewrite list_lookup_insert_eq in Hys by (by eapply lookup_lt_Some).
      rewrite list_lookup_insert_ne in Hzs by done. simplify_eq. by eapply Hother.
    + rewrite list_lookup_insert_eq in Hzs by (by eapply lookup_lt_Some).
      rewrite list_lookup_insert_ne in Hys by done. simplify_eq.
      apply addrs_disjoint_sym. by eapply Hother.
    + rewrite list_lookup_insert_ne in Hys by done.
      rewrite list_lookup_insert_ne in Hzs by done. by eapply (Hdisj i j).
Qed.

(** An object is added on nodes that were not live. *)
Lemma repr_construct w xss l' xs' h' :
  repr w xss →
  is_list h' l' xs' → frame [] (store w) h' → grown_from (store w) [] xs'.*1 →
  repr (mkWorld h' (vars w ++ [l'])) (xss ++ [xs']).
Proof.
  intros (Hlen & Hall & Hdisj) Hl' Hfr Hg.
  assert (Hother : ∀ j ys, xss !! j = Some ys → xs'.*1 ## ys.*1).
  { intros j ys Hys. eapply grown_disjoint; [exact Hg|by intros b Hb%elem_of_nil|].
    intros b Hb. destruct (lookup_lt_is_Some_2 (vars w) j) as [lj Hlj].
    { rewrite Hlen. by eapply lookup_lt_Some. }
    eapply is_list_live; [by eapply Hall|done]. }
  assert (Hsplit : ∀ i ys, (xss ++ [xs']) !! i = Some ys →
            (xss !! i = Some ys ∧ (i < length xss)%nat) ∨ (i = length xss ∧ ys = xs')).
  { intros i ys Hi. apply lookup_app_Some in Hi as [Hi|[Hge Hi]].
    - left. split; [done|]. by eapply lookup_lt_Some.
    - right. apply list_lookup_singleton_Some in Hi as [Hi ->]. split; [lia|done]. }
  split_and!; simpl.
  - by rewrite !length_app, Hlen.
  - intros i li ys Hi Hys. apply Hsplit in Hys as [[Hys Hlt]|[-> ->]].
    + rewrite lookup_app_l in Hi by lia.
      eapply is_list_frame; [by eapply Hall|exact Hfr|]. by intros b Hb%elem_of_nil.
    + rewrite <- Hlen, lookup_app_r, Nat.sub_diag in Hi by lia. by simplify_eq/=.
  - intros i j ys zs Hij Hys Hzs.
    apply Hsplit in Hys as [[Hys Hi]|[-> ->]]; apply Hsplit in Hzs as [[Hzs Hj]|[-> ->]].
    + by eapply (Hdisj i j).
    + apply addrs_disjoint_sym. by eapply Hother.
    + by eapply Hother.
    + done.
Qed.

(** *** Every member function is local to its object *)

Lemma grown_snoc h xs a d :
  h !! a = None → grown_from h xs.*1 (xs ++ [(a, d)]).*1.
Proof.
  intros Ha b Hb. rewrite fmap_app in Hb. apply elem_of_app in Hb as [Hb|Hb]; [by left|].
  apply list_elem_of_singleton in Hb. subst. by right.
Qed.

Lemma grown_app h xs new :
  (∀ b, b ∈ new.*1 → h !! b = None) → grown_from h xs.*1 (xs ++ new).*1.
Proof.
  intros Hnew b Hb. rewrite fmap_app in Hb. apply elem_of_app in Hb as [Hb|Hb]; [by left|].
  right. by apply Hnew.
Qed.

Lemma elem_of_take_sub {A} (b : A) n (ps : list A) : b ∈ take n ps → b ∈ ps.
Proof. intros Hb. rewrite <- (take_drop n ps). apply elem_of_app. by left. Qed.

Lemma push_back_local (d : T) : local_ok (push_back d).
Proof.
  intros h l xs l' h' Hl Hrun.
  destruct (returns_inv _ _ _ _ _ _ (push_back_returns _ _ _ d Hl) Hrun)
    as (a & Ha & Hl' & Hfr & _).
  exists (xs ++ [(a, d)]). split_and!; [done|done|by apply grown_snoc].
Qed.

Lemma push_front_local (d : T) : local_ok (push_front d).
Proof.
  intros h l xs l' h' Hl Hrun.
  destruct (returns_inv _ _ _ _ _ _ (push_front_returns _ _ _ d Hl) Hrun)
    as (a & Ha & Hl' & Hfr & _).
  exists ((a, d) :: xs). split_and!; [done|done|].
  intros b Hb. rewrite fmap_cons in Hb. apply elem_of_cons in Hb as [->|Hb]; [by right|by left].
Qed.

Lemma pop_back_local : local_ok (@pop_back T).
Proof.
  intros h l xs l' h' Hl Hrun. destruct xs as [|[a v] xs _] using rev_ind.
  - rewrite (pop_back_empty _ _ Hl) in Hrun. simplify_eq.
    exists []. split_and!; [done|apply frame_refl|apply grown_from_refl].
  - destruct (pop_back_spec _ _ _ _ _ Hl) as (l0 & h0 & Hrun0 & Hl0 & Hfr & _).
    rewrite Hrun0 in Hrun. simplify_eq. exists xs. split_and!; [done|done|].
    apply grown_from_sub. intros b Hb. rewrite fmap_app. apply elem_of_app. by left.
Qed.

Lemma pop_front_local : local_ok (@pop_front T).
Proof.
  intros h l xs l' h' Hl Hrun. destruct xs as [|[a v] xs].
  - rewrite (pop_front_empty _ _ Hl) in Hrun. simplify_eq.
    exists []. split_and!; [done|apply frame_refl|apply grown_from_refl].
  - destruct (pop_front_spec _ _ _ _ _ Hl) as (l0 & h0 & Hrun0 & Hl0 & Hfr & _).
    rewrite Hrun0 in Hrun. simplify_eq. exists xs. split_and!; [done|done|].
    apply grown_from_sub. intros b Hb. rewrite fmap_cons. apply elem_of_cons. by right.
Qed.

Lemma clear_local : local_ok (@clear T).
Proof.
  intros h l xs l' h' Hl Hrun.
  destruct (clear_spec _ _ _ Hl) as (h0 & Hrun0 & Hl0 & Hfr & _).
  rewrite Hrun0 in Hrun. simplify_eq. exists []. split_and!; [done|done|].
  by intros b Hb%elem_of_nil.
Qed.

Lemma advance_begin h l xs k :
  is_list h l xs →
  advance k (begin l) h = Ok (mkIt (first_or None (drop k xs)), h).
Proof.
  intros (Hseg & _ & Hh & _). unfold begin, iterator_at. rewrite Hh.
  by eapply advance_spec.
Qed.

Lemma insert_at_local k (d : T) :
  local_ok (λ l, let* it := advance k (begin l) in
                 let* r := insert it d l in ret (snd r)).
Proof.
  intros h l xs l' h' Hl Hrun.
  rewrite (bind_ok _ _ _ _ _ (advance_begin _ _ _ k Hl)) in Hrun.
  apply bind_inv in Hrun as ([it l0] & h0 & Hrun & Hret). unfold ret in Hret.
  simplify_eq/=.
  rewrite <- (take_drop k xs) in Hl.
  destruct (returns_inv _ _ _ _ _ _
              (insert_returns _ _ _ _ (mkIt (first_or None (drop k xs))) d Hl eq_refl) Hrun)
    as (a & _ & Ha & Hl' & Hfr & _).
  rewrite take_drop in Hfr. simpl in Hl'.
  eexists. split_and!; [exact Hl'|done|].
  intros b Hb. rewrite fmap_app, fmap_cons in Hb.
  rewrite <- (take_drop k xs) at 1. rewrite fmap_app.
  set_solver.
Qed.

Lemma erase_at_local k :
  local_ok (λ l, let* it := advance k (begin l) in
                 let* r := @erase T it l in ret (snd r)).
Proof.
  intros h l xs l' h' Hl Hrun.
  rewrite (bind_ok _ _ _ _ _ (advance_begin _ _ _ k Hl)) in Hrun.
  destruct (drop k xs) as [|[a v] l2] eqn:Hdrop.
  - change (mkIt (first_or None [])) with (iterator_at None) in Hrun.
    rewrite (bind_ok _ _ _ _ _ (erase_null h l)) in Hrun. unfold ret in Hrun.
    simplify_eq/=. exists xs. split_and!; [done|apply frame_refl|apply grown_from_refl].
  - rewrite <- (take_drop k xs), Hdrop in Hl.
    destruct (erase_spec _ _ _ _ _ _ Hl) as (h0 & Hrun0 & Hl0 & Hfr & _).
    change (mkIt (first_or None ((a, v) :: l2))) with (iterator_at (Some a)) in Hrun.
    rewrite (bind_ok _ _ _ _ _ Hrun0) in Hrun. unfold ret in Hrun. simplify_eq/=.
    rewrite <- Hdrop, take_drop in Hfr.
    eexists. split_and!; [exact Hl0|done|].
    apply grown_from_sub. intros b Hb. rewrite <- (take_drop k xs), Hdrop.
    rewrite fmap_app in *. set_solver.
Qed.

Lemma assign_il_local (il : list T) : local_ok (λ l, assign_il l il).
Proof.
  intros h l xs l' h' Hl Hrun.
  destruct (returns_inv _ _ _ _ _ _ (assign_il_spec _ _ _ il Hl) Hrun)
    as (new & Hl' & Hnew & Hdead & _ & Hfr & _).
  eexists. split_and!; [exact Hl'|done|].
  intros b Hb. rewrite assign_il_nodes in Hb. apply elem_of_app in Hb as [Hb|Hb].
  - left. by eapply elem_of_take_sub.
  - right. by apply Hdead.
Qed.

Lemma assign_move_local (mf : T → T) : local2_ok (assign_move mf).
Proof.
  intros h l r xs ys l' h' Hl Hr Hdisj Hrun.
  destruct (returns_inv _ _ _ _ _ _ (assign_move_spec mf _ _ _ _ _ Hl Hr Hdisj) Hrun)
    as (new & Hl' & Hr' & Hnew & Hdead & _ & Hfr & _).
  eexists _, _. split_and!; [exact Hl'|exact Hr'|apply moved_prefix_fst|done|].
  intros b Hb. rewrite fmap_app, fmap_take, overwritten_fst in Hb.
  apply elem_of_app in Hb as [Hb|Hb].
  - left. by eapply elem_of_take_sub.
  - right. by apply Hdead.
Qed.

Lemma assign_copy_local : local2_ok (@assign_copy T).
Proof.
  intros h l r xs ys l' h' Hl Hr Hdisj Hrun. rewrite assign_copy_as_move in Hrun.
  by eapply assign_move_local.
Qed.

(** *** Constructors build a list on new nodes *)

Lemma list_default_ok : @construct_ok T (ret list_default).
Proof.
  intros h l' h' Hrun. unfold ret in Hrun. simplify_eq. exists [].
  split_and!; [apply is_list_nil|apply frame_refl|apply grown_from_refl].
Qed.

Lemma push_back_all_ok (src : list T) :
  construct_ok (push_back_all src (mkList 0 None None)).
Proof.
  intros h l' h' Hrun.
  destruct (returns_inv _ _ _ _ _ _
              (push_back_all_spec src h _ [] (is_list_nil h)) Hrun)
    as (new & _ & Hdead & Hl' & Hfr & _).
  exists new. split_and!; [done|done|]. intros b Hb. right. by apply Hdead.
Qed.

Lemma list_fill_ok num (t : T) : construct_ok (list_fill num t).
Proof.
  intros h l' h' Hrun. unfold list_fill in Hrun.
  destruct (decide (num ≤ INT_MAX)) as [Hle|Hgt].
  - pose proof (fill_loop_spec t num (Z.to_nat (num - 0)) 0 h (mkList 0 None None) []
                  (Z.to_nat num))
      as Hspec.
    destruct (returns_inv _ _ _ _ _ _ (Hspec eq_refl ltac:(unfold INT_MAX; lia) Hle
                ltac:(lia) (is_list_nil h)) Hrun)
      as (new & _ & Hdead & Hl' & Hfr & _).
    exists new. split_and!; [done|done|]. intros b Hb. right. by apply Hdead.
  - destruct (fill_loop_overflow t num (Z.to_nat num) 0 (mkList 0 None None) h)
      as [e He]; [unfold INT_MAX; lia|lia|]. congruence.
Qed.

Lemma list_copy_ok h r ys l' h' :
  is_list h r ys → @list_copy T r h = Ok (l', h') →
  ∃ xs', is_list h' l' xs' ∧ xs'.*2 = ys.*2
         ∧ frame [] h h' ∧ grown_from h [] xs'.*1.
Proof.
  intros Hr Hrun. unfold list_copy in Hrun.
  destruct (returns_inv _ _ _ _ _ _
              (assign_copy_spec h _ r [] ys (is_list_nil h) Hr
                 ltac:(by intros b Hb%elem_of_nil)) Hrun)
    as (new & Hl' & _ & Hnew & Hdead & _ & Hfr & _).
  cbn [overwritten] in Hl'. rewrite take_nil in Hl'.
  exists new. split_and!; [done|by rewrite Hnew|done|].
  intros b Hb. right. by apply Hdead.
Qed.

(** An object takes over nodes that no other object holds. *)
Lemma repr_snoc h vs xss l' xs' :
  repr (mkWorld h vs) xss → is_list h l' xs' →
  (∀ j ys, xss !! j = Some ys → xs'.*1 ## ys.*1) →
  repr (mkWorld h (vs ++ [l'])) (xss ++ [xs']).
Proof.
  intros (Hlen & Hall & Hdisj) Hl' Hother. simpl in *.
  assert (Hsplit : ∀ i ys, (xss ++ [xs']) !! i = Some ys →
            (xss !! i = Some ys ∧ (i < length xss)%nat) ∨ (i = length xss ∧ ys = xs')).
  { intros i ys Hi. apply lookup_app_Some in Hi as [Hi|[Hge Hi]].
    - left. split; [done|]. by eapply lookup_lt_Some.
    - right. apply list_lookup_singleton_Some in Hi as [Hi ->]. split; [lia|done]. }
  split_and!; simpl.
  - by rewrite !length_app, Hlen.
  - intros i li ys Hi Hys. apply Hsplit in Hys as [[Hys Hlt]|[-> ->]].
    + rewrite lookup_app_l in Hi by lia. by eapply Hall.
    + rewrite <- Hlen, lookup_app_r, Nat.sub_diag in Hi by lia. by simplify_eq/=.
  - intros i j ys zs Hij Hys Hzs.
    apply Hsplit in Hys as [[Hys Hi]|[-> ->]]; apply Hsplit in Hzs as [[Hzs Hj]|[-> ->]].
    + by eapply (Hdisj i j).
    + apply addrs_disjoint_sym. by eapply Hother.
    + by eapply Hother.
    + done.
Qed.

(** Two different objects are replaced; the second keeps its nodes. *)
Lemma repr_member2 w xss x y l r xs ys l' xs' ys' h' :
  repr w xss → x ≠ y →
  vars w !! x = Some l → xss !! x = Some xs →
  vars w !! y = Some r → xss !! y = Some ys →
  is_list h' l' xs' → is_list h' r ys' → ys'.*1 = ys.*1 →
  frame (xs.*1 ++ ys.*1) (store w) h' → grown_from (store w) xs.*1 xs'.*1 →
  repr (mkWorld h' (<[x := l']> (vars w))) (<[y := ys']> (<[x := xs']> xss)).
Proof.
  intros Hw Hxy Hl Hxs Hr Hys Hl' Hr' Hsame Hfr Hg.
  pose proof Hw as (Hlen & Hall & Hdisj).
  pose proof (lookup_lt_Some _ _ _ Hxs) as Hx.
  pose proof (lookup_lt_Some _ _ _ Hys) as Hy.
  assert (Hlook : ∀ i zs, (<[y := ys']> (<[x := xs']> xss)) !! i = Some zs →
            (i = x ∧ zs = xs') ∨ (i = y ∧ zs = ys')
            ∨ (i ≠ x ∧ i ≠ y ∧ xss !! i = Some zs)).
  { intros i zs Hi. destruct (decide (i = y)) as [->|Hiy].
    - rewrite list_lookup_insert_eq in Hi by (by rewrite length_insert). simplify_eq. auto.
    - rewrite list_lookup_insert_ne in Hi by done. destruct (decide (i = x)) as [->|Hix].
      + rewrite list_lookup_insert_eq in Hi by done. simplify_eq. auto.
      + rewrite list_lookup_insert_ne in Hi by done. auto. }
  assert (Hxo : ∀ j zs, j ≠ x → xss !! j = Some zs → xs'.*1 ## zs.*1).
  { intros j zs Hj Hzs. eapply grown_disjoint; [exact Hg|by eapply (Hdisj x j)|].
    intros b Hb. destruct (lookup_lt_is_Some_2 (vars w) j) as [lj Hlj].
    { rewrite Hlen. by eapply lookup_lt_Some. }
    eapply is_list_live; [by eapply Hall|done]. }
  split_and!; simpl.
  - by rewrite !length_insert.
  - intros i li zs Hi Hzs. apply Hlook in Hzs as [[-> ->]|[[-> ->]|(Hix & Hiy & Hzs)]].
    + rewrite list_lookup_insert_eq in Hi by (by eapply lookup_lt_Some). by simplify_eq.
    + rewrite list_lookup_insert_ne in Hi by done. by simplify_eq.
    + rewrite list_lookup_insert_ne in Hi by done.
      eapply is_list_frame; [by eapply Hall|exact Hfr|].
      intros b Hb1 Hb2. apply elem_of_app in Hb1 as [Hb1|Hb1].
      * by apply (Hdisj x i _ _ ltac:(done) Hxs Hzs b).
      * by apply (Hdisj y i _ _ ltac:(done) Hys Hzs b).
  - intros i j zs1 zs2 Hij H1 H2.
    apply Hlook in H1 as [[-> ->]|[[-> ->]|(Hix & Hiy & H1)]];
      apply Hlook in H2 as [[-> ->]|[[-> ->]|(Hjx & Hjy & H2)]]; try done.
    + rewrite Hsame. by eapply Hxo.
    + by eapply Hxo.
    + rewrite Hsame. apply addrs_disjoint_sym. by eapply Hxo.
    + rewrite Hsame. by eapply (Hdisj y j).
    + apply addrs_disjoint_sym. by eapply Hxo.
    + rewrite Hsame. by eapply (Hdisj i y).
    + by eapply (Hdisj i j).
Qed.

(** Two objects exchange their nodes. *)
Lemma repr_exchange w xss x y l r xs ys :
  repr w xss →
  vars w !! x = Some l → xss !! x = Some xs →
  vars w !! y = Some r → xss !! y = Some ys →
  repr (mkWorld (store w) (<[y := l]> (<[x := r]> (vars w))))
       (<[y := xs]> (<[x := ys]> xss)).
Proof.
  intros Hw Hl Hxs Hr Hys. pose proof Hw as (Hlen & Hall & Hdisj).
  pose proof (lookup_lt_Some _ _ _ Hxs) as Hx.
  pose proof (lookup_lt_Some _ _ _ Hys) as Hy.
  set (σ := λ i : nat, if decide (i = y) then x else if decide (i = x) then y else i).
  assert (Hσ : ∀ i j, σ i = σ j → i = j).
  { intros i j. unfold σ. repeat case_decide; congruence. }
  assert (Hv : ∀ i, (<[y := l]> (<[x := r]> (vars w))) !! i = vars w !! σ i).
  { intros i. unfold σ. destruct (decide (i = y)) as [->|Hiy].
    - rewrite list_lookup_insert_eq by (rewrite length_insert; lia). done.
    - rewrite list_lookup_insert_ne by done. destruct (decide (i = x)) as [->|Hix].
      + rewrite list_lookup_insert_eq by lia. done.
      + by rewrite list_lookup_insert_ne. }
  assert (Hf : ∀ i, (<[y := xs]> (<[x := ys]> xss)) !! i = xss !! σ i).
  { intros i. unfold σ. destruct (decide (i = y)) as [->|Hiy].
    - rewrite list_lookup_insert_eq by (rewrite length_insert; lia). done.
    - rewrite list_lookup_insert_ne by done. destruct (decide (i = x)) as [->|Hix].
      + rewrite list_lookup_insert_eq by lia. done.
      + by rewrite list_lookup_insert_ne. }
  split_and!; simpl.
  - by rewrite !length_insert.
  - intros i li zs. rewrite Hv, Hf. apply Hall.
  - intros i j zs1 zs2 Hij. rewrite !Hf. apply Hdisj. intros E. by apply Hij, Hσ.
Qed.

Lemma swap_eq (l r : List) : swap l r = (r, l).
Proof. by destruct l, r. Qed.

Lemma swap_free_eq (l r : List) : swap_free l r = (r, l).
Proof. by destruct l, r. Qed.

Lemma list_move_eq (r : List) : list_move r = (r, mkList 0 None None).
Proof. by destruct r. Qed.

Lemma member_repr x (f : List → M T List) w w' xss :
  local_ok f → repr w xss → member x f w = Ok w' →
  ∃ xs', repr w' (<[x := xs']> xss).
Proof.
  intros Hf Hw Hrun. unfold member in Hrun.
  destruct (vars w !! x) as [l|] eqn:Hl; [|done].
  destruct (f l (store w)) as [[l' h']|e] eqn:Hfl; [|done]. simplify_eq.
  destruct (repr_lookup _ _ _ _ Hw Hl) as (xs & Hxs & Hlx).
  destruct (Hf _ _ _ _ _ Hlx Hfl) as (xs' & Hl' & Hfr & Hg).
  exists xs'. by eapply repr_member.
Qed.

Lemma construct_repr (m : M T List) w w' xss :
  construct_ok m → repr w xss → construct m w = Ok w' →
  ∃ xs', repr w' (xss ++ [xs']).
Proof.
  intros Hm Hw Hrun. unfold construct in Hrun.
  destruct (m (store w)) as [[l' h']|e] eqn:Hml; [|done]. simplify_eq.
  destruct (Hm _ _ _ Hml) as (xs' & Hl' & Hfr & Hg).
  exists xs'. by eapply repr_construct.
Qed.

Lemma member2_repr x y (f : List → List → M T List) w w' xss :
  local2_ok f → (∀ h l xs, is_list h l xs → f l l h = Ok (l, h)) →
  repr w xss → member2 x y f w = Ok w' →
  ∃ xss', repr w' xss' ∧ ∀ z, z ≠ x → z ≠ y → xss' !! z = xss !! z.
Proof.
  intros Hf Hself Hw Hrun. unfold member2, member in Hrun.
  destruct (vars w !! y) as [r|] eqn:Hr; [|done].
  destruct (vars w !! x) as [l|] eqn:Hl; [|done].
  destruct (f l r (store w)) as [[l' h']|e] eqn:Hfl; [|done]. simplify_eq.
  destruct (repr_lookup _ _ _ _ Hw Hl) as (xs & Hxs & Hlx).
  destruct (repr_lookup _ _ _ _ Hw Hr) as (ys & Hys & Hry).
  destruct (decide (x = y)) as [->|Hxy].
  - simplify_eq. rewrite (Hself _ _ _ Hlx) in Hfl. simplify_eq.
    exists xss. split; [|done]. rewrite list_insert_id by done. by destruct w.
  - destruct Hw as (Hlen & Hall & Hdisj).
    destruct (Hf _ _ _ _ _ _ _ Hlx Hry (Hdisj x y _ _ Hxy Hxs Hys) Hfl)
      as (xs' & ys' & Hl' & Hr' & Hsame & Hfr & Hg).
    exists (<[y := ys']> (<[x := xs']> xss)). split.
    + by eapply repr_member2.
    + intros z Hzx Hzy. by rewrite !list_lookup_insert_ne.
Qed.

Lemma exchange_repr x y (f : List → List → List * List) w w'
    (xss : list (list (loc * T))) :
  (∀ l r, f l r = (r, l)) → repr w xss → exchange x y f w = Ok w' →
  ∃ xss', repr w' xss' ∧ ∀ z, z ≠ x → z ≠ y → xss' !! z = xss !! z.
Proof.
  intros Hf Hw Hrun. unfold exchange in Hrun.
  destruct (vars w !! x) as [l|] eqn:Hl; [|done].
  destruct (vars w !! y) as [r|] eqn:Hr; [|done].
  rewrite Hf in Hrun. simplify_eq/=.
  destruct (repr_lookup _ _ _ _ Hw Hl) as (xs & Hxs & Hlx).
  destruct (repr_lookup _ _ _ _ Hw Hr) as (ys & Hys & Hry).
  exists (<[y := xs]> (<[x := ys]> xss)). split.
  - by eapply repr_exchange.
  - intros z Hzx Hzy. by rewrite !list_lookup_insert_ne.
Qed.

Lemma step_repr (mf : T → T) o w w' xss :
  repr w xss → step mf o w = Ok w' →
  ∃ xss',
    repr w' xss'
    ∧ ∀ y, y ∉ targets o → (y < length xss)%nat → xss' !! y = xss !! y.
Proof.
  intros Hw Hrun.
  assert (Hone : ∀ x (f : List → M T List), local_ok f → member x f w = Ok w' →
            ∃ xss', repr w' xss'
              ∧ ∀ y, y ∉ [x] → (y < length xss)%nat → xss' !! y = xss !! y).
  { intros x f Hf Hm. destruct (member_repr _ _ _ _ _ Hf Hw Hm) as (xs' & Hw').
    eexists. split; [exact Hw'|]. intros y Hy _.
    apply not_elem_of_cons in Hy as [Hy _]. by rewrite list_lookup_insert_ne. }
  assert (Hnew : ∀ (m : M T List), construct_ok m → construct m w = Ok w' →
            ∃ xss', repr w' xss'
              ∧ ∀ y, y ∉ [] → (y < length xss)%nat → xss' !! y = xss !! y).
  { intros m Hm Hc. destruct (construct_repr _ _ _ _ Hm Hw Hc) as (xs' & Hw').
    eexists. split; [exact Hw'|]. intros y _ Hy. by rewrite lookup_app_l. }
  assert (Htwo : ∀ x y, (∃ xss', repr w' xss'
                    ∧ ∀ z, z ≠ x → z ≠ y → xss' !! z = xss !! z) →
            ∃ xss', repr w' xss'
              ∧ ∀ z, z ∉ [x; y] → (z < length xss)%nat → xss' !! z = xss !! z).
  { intros x y (xss' & Hw' & Hsame). exists xss'. split; [done|].
    intros z Hz _. apply not_elem_of_cons in Hz as [Hzx Hz].
    apply not_elem_of_cons in Hz as [Hzy _]. by apply Hsame. }
  destruct o; cbn [step targets] in *.
  - apply (Hnew _ list_default_ok Hrun).
  - apply (Hnew _ (list_fill_ok _ _) Hrun).
  - apply (Hnew _ (push_back_all_ok _) Hrun).
  - apply (Hnew _ (push_back_all_ok _) Hrun).
  - (* copy construction *)
    destruct (vars w !! y) as [r|] eqn:Hr; [|done].
    destruct (repr_lookup _ _ _ _ Hw Hr) as (ys & Hys & Hry).
    unfold construct in Hrun.
    destruct (list_copy r (store w)) as [[l' h']|e] eqn:Hc; [|done]. simplify_eq.
    destruct (list_copy_ok _ _ _ _ _ Hry Hc) as (xs' & Hl' & _ & Hfr & Hg).
    exists (xss ++ [xs']). split; [by eapply repr_construct|].
    intros z _ Hz. by rewrite lookup_app_l.
  - (* move construction *)
    destruct (vars w !! y) as [r|] eqn:Hr; [|done].
    rewrite list_move_eq in Hrun. simplify_eq/=.
    destruct (repr_lookup _ _ _ _ Hw Hr) as (ys & Hys & Hry).
    exists (<[y := []]> xss ++ [ys]). split.
    + apply repr_snoc.
      * apply (repr_member w xss y r ys (mkList 0 None None) [] (store w) Hw Hr Hys
                 (is_list_nil _) (frame_refl _ _)).
        by intros b Hb%elem_of_nil.
      * done.
      * intros j zs Hj. destruct (decide (j = y)) as [->|Hne].
        -- rewrite list_lookup_insert_eq in Hj by (by eapply lookup_lt_Some).
           simplify_eq. by intros b _ Hb%elem_of_nil.
        -- rewrite list_lookup_insert_ne in Hj by done.
           destruct Hw as (_ & _ & Hdisj). by eapply (Hdisj y j).
    + intros z Hz Hlt. apply not_elem_of_cons in Hz as [Hz _].
      rewrite lookup_app_l by (by rewrite length_insert).
      by rewrite list_lookup_insert_ne.
  - apply (Hone _ _ (push_front_local _) Hrun).
  - apply (Hone _ _ (push_front_local _) Hrun).
  - apply (Hone _ _ (push_back_local _) Hrun).
  - apply (Hone _ _ (push_back_local _) Hrun).
  - apply (Hone _ _ pop_front_local Hrun).
  - apply (Hone _ _ pop_back_local Hrun).
  - apply (Hone _ _ (insert_at_local _ _) Hrun).
  - apply (Hone _ _ (insert_at_local _ _) Hrun).
  - apply (Hone _ _ (erase_at_local _) Hrun).
  - apply (Hone _ _ clear_local Hrun).
  - (* copy assignment: only the destination is written *)
    unfold member2, member in Hrun.
    destruct (vars w !! y) as [r|] eqn:Hr; [|done].
    destruct (vars w !! x) as [l|] eqn:Hl; [|done].
    destruct (assign_copy l r (store w)) as [[l' h']|e] eqn:Hfl; [|done]. simplify_eq.
    destruct (repr_lookup _ _ _ _ Hw Hl) as (xs & Hxs & Hlx).
    destruct (repr_lookup _ _ _ _ Hw Hr) as (ys & Hys & Hry).
    destruct (decide (x = y)) as [->|Hxy].
    + simplify_eq. rewrite (assign_copy_self _ _ _ Hlx) in Hfl. simplify_eq.
      exists xss. split; [|done]. rewrite list_insert_id by done. by destruct w.
    + pose proof Hw as (Hlen & Hall & Hdisj).
      pose proof (Hdisj x y _ _ Hxy Hxs Hys) as Hd.
      destruct (returns_inv _ _ _ _ _ _ (assign_copy_spec _ _ _ _ _ Hlx Hry Hd) Hfl)
        as (new & Hl' & Hr' & Hnew' & Hdead & _ & Hfr & _).
      eexists (<[y := ys]> (<[x := _]> xss)). split.
      * eapply (repr_member2 w xss x y l r xs ys); try done.
        -- eapply frame_weaken; [exact Hfr|]. intros b Hb. apply elem_of_app. by left.
        -- intros b Hb. rewrite fmap_app, fmap_take, overwritten_fst in Hb.
           apply elem_of_app in Hb as [Hb|Hb].
           ++ left. by eapply elem_of_take_sub.
           ++ right. by apply Hdead.
      * intros z Hz _. apply not_elem_of_cons in Hz as [Hz _].
        rewrite (list_insert_id _ y ys).
        -- by rewrite list_lookup_insert_ne.
        -- by rewrite list_lookup_insert_ne.
  - apply Htwo. eapply member2_repr; [apply assign_move_local| |done..].
    intros h l xs. apply assign_move_self.
  - apply (Hone _ _ (assign_il_local _) Hrun).
  - apply Htwo. eapply exchange_repr; [apply swap_eq|done..].
  - apply Htwo. eapply exchange_repr; [apply swap_free_eq|done..].
Qed.

(** *** The invariants of a list object *)

Lemma seg_path h prv xs : seg h prv xs None → path h (first_or None xs) xs.*1.
Proof.
  revert prv. induction xs as [|x xs IH]; intros prv Hseg; [done|].
  destruct Hseg as [Hx Hseg]. simpl. split; [done|]. eexists. split; [exact Hx|].
  by eapply IH.
Qed.

Lemma path_unique h q ps ps' : path h q ps → path h q ps' → ps = ps'.
Proof.
  revert q ps'. induction ps as [|a ps IH]; intros q [|a' ps'] Hp Hp'; simpl in *.
  - done.
  - destruct Hp' as [? _]. congruence.
  - destruct Hp as [? _]. congruence.
  - destruct Hp as (-> & n & Hn & Hp). destruct Hp' as (? & n' & Hn' & Hp'). simplify_eq.
    f_equal. by eapply IH.
Qed.

Lemma last_fst xs : last xs.*1 = last_or None xs.
Proof. unfold last_or. rewrite fmap_last. by destruct (last xs). Qed.

Lemma seg_index xs : ∀ h prv nxt i a v,
  seg h prv xs nxt → xs !! i = Some (a, v) →
  h !! a = Some (mkNode v
                   (match xs.*1 !! S i with Some b => Some b | None => nxt end)
                   (match i with O => prv | S j => xs.*1 !! j end)).
Proof.
  induction xs as [|x xs IH]; intros h prv nxt i a v Hseg Hi; [done|].
  destruct Hseg as [Hx Hseg]. destruct i as [|i].
  - simpl in Hi. simplify_eq. simpl in *. rewrite Hx. do 2 f_equal. by destruct xs.
  - simpl in Hi. rewrite (IH _ _ _ _ _ _ Hseg Hi). by destruct i.
Qed.

(** Two nodes of a list: one is the successor of the other exactly when
    the other is its predecessor. *)
Lemma is_list_links h l xs A B nA nB :
  is_list h l xs → A ∈ xs.*1 → B ∈ xs.*1 →
  h !! A = Some nA → h !! B = Some nB →
  pNext nA = Some B ↔ pPrev nB = Some A.
Proof.
  intros (Hseg & Hnd & _) HA HB HnA HnB.
  apply list_elem_of_lookup in HA as [i Hi]. apply list_elem_of_lookup in HB as [j Hj].
  pose proof Hi as Hi'. pose proof Hj as Hj'.
  rewrite list_lookup_fmap in Hi', Hj'.
  destruct (xs !! i) as [[A' va]|] eqn:Hxi; [|done].
  destruct (xs !! j) as [[B' vb]|] eqn:Hxj; [|done]. simpl in *. simplify_eq.
  rewrite (seg_index _ _ _ _ _ _ _ Hseg Hxi) in HnA.
  rewrite (seg_index _ _ _ _ _ _ _ Hseg Hxj) in HnB. simplify_eq. simpl.
  split.
  - intros Hnext. destruct (xs.*1 !! S i) as [b|] eqn:Hsi; [|done]. simplify_eq.
    rewrite (NoDup_lookup _ _ _ _ Hnd Hj Hsi). done.
  - intros Hprev. destruct j as [|j]; [done|].
    rewrite (NoDup_lookup _ _ _ _ Hnd Hi Hprev). by rewrite Hj.
Qed.

Lemma is_list_invariants h l xs :
  is_list h l xs →
  path h (pHead l) xs.*1 ∧ last xs.*1 = pTail l
  ∧ size l = Z.of_nat (length xs.*1)
  ∧ empty l = (size l =? 0)
  ∧ (numElements l = 0 ↔ pHead l = None)
  ∧ (pHead l = None ↔ pTail l = None).
Proof.
  intros Hl. destruct (is_list_empty_iff _ _ _ Hl) as (Hn & Hh & Ht).
  destruct Hl as (Hseg & _ & Hhd & Htl & Hcnt & _).
  split_and!.
  - rewrite Hhd. by eapply seg_path.
  - by rewrite last_fst.
  - by rewrite length_fmap.
  - done.
  - by rewrite Hn, Hh.
  - by rewrite Hh, Ht.
Qed.

(** *** Programs *)

Lemma repr_init : @repr T init [].
Proof. split_and!; [done|intros i l xs Hi; done|intros i j xs ys _ Hi; done]. Qed.

Lemma run_repr (mf : T → T) ops : ∀ w w' xss,
  repr w xss → run mf ops w = Ok w' → ∃ xss', repr w' xss'.
Proof.
  induction ops as [|o ops IH]; intros w w' xss Hw Hrun; simpl in Hrun.
  - simplify_eq. by exists xss.
  - destruct (step mf o w) as [w1|e] eqn:Hstep; [|done].
    destruct (step_repr _ _ _ _ _ Hw Hstep) as (xss1 & Hw1 & _). by eapply IH.
Qed.

Lemma contents_repr w xss x (xs : list (loc * T)) :
  repr w xss → xss !! x = Some xs → contents w x = Some xs.*2.
Proof.
  intros (Hlen & Hall & _) Hxs. unfold contents.
  destruct (lookup_lt_is_Some_2 (vars w) x) as [l Hl].
  { rewrite Hlen. by eapply lookup_lt_Some. }
  rewrite Hl. by rewrite (to_list_spec _ _ _ (Hall _ _ _ Hl Hxs)).
Qed.

(** ** The properties of the specification *)

(** C1 (as amended). After move-construction the destination holds exactly
    the source's prior elements in the same order and the source is left
    empty: head and tail null, [size() == 0], [empty() == true]. After
    move-assignment between two distinct lists the destination holds exactly
    the source's prior elements in the same order and its size is the
    source's; the source is not emptied: it keeps its head, tail, count and
    nodes. *)
Theorem move_transfers_elements (mf : T → T) h l r xs ys :
  is_list h l xs → is_list h r ys → xs.*1 ## ys.*1 →
  (is_list h (fst (list_move r)) ys
   ∧ to_list (fst (list_move r)) h = Ok (ys.*2, h)
   ∧ pHead (snd (list_move r)) = None
   ∧ pTail (snd (list_move r)) = None
   ∧ size (snd (list_move r)) = 0
   ∧ empty (snd (list_move r)) = true)
  ∧ (Z.of_nat (base.size h + (length ys - length xs)) ≤ max_nodes →
     ∃ l' h' ys',
       assign_move mf l r h = Ok (l', h')
       ∧ to_list l' h' = Ok (ys.*2, h')
       ∧ size l' = Z.of_nat (length ys)
       ∧ is_list h' r ys'
       ∧ ys'.*1 = ys.*1
       ∧ to_list_rev r h' = Ok (reverse ys'.*2, h')).
Proof.
  intros Hl Hr Hdisj. split.
  - rewrite list_move_eq. simpl. split_and!; try done. by apply to_list_spec.
  - intros Hroom.
    destruct (returns_ok _ _ _ _ (assign_move_spec mf _ _ _ _ _ Hl Hr Hdisj) Hroom)
      as (l' & h' & Hrun & new & Hl' & Hr' & Hnew & _).
    exists l', h', (moved_prefix mf (length xs) ys). split_and!.
    + done.
    + rewrite (to_list_spec _ _ _ Hl'). do 2 f_equal.
      rewrite <- (length_fmap snd ys). by apply assign_il_contents.
    + destruct Hl' as (_ & _ & _ & _ & Hcnt & _). unfold size. rewrite Hcnt. f_equal.
      rewrite <- (length_fmap snd (_ ++ _)). rewrite <- (length_fmap snd ys) at 1.
      rewrite assign_il_contents by done. by rewrite !length_fmap.
    + done.
    + apply moved_prefix_fst.
    + by apply to_list_rev_spec.
Qed.

(** C2. [erase] on a null-position iterator returns the end iterator and
    leaves the list unchanged. [erase] on an iterator naming a node of the
    list unlinks and releases that node: the head is repointed to the
    successor when the node has no predecessor, the tail to the predecessor
    when it has no successor (so erasing the sole element leaves head and
    tail both null), the count goes down by one, and the iterator returned
    names the node that followed, or is the end iterator if the node was the
    tail. [pop_front] and [pop_back] are [erase] on an iterator at head and
    at tail, hence do nothing on an empty list. *)
Theorem erase_unlinks_node h l l1 a v l2 :
  is_list h l (l1 ++ (a, v) :: l2) →
  erase (iterator_at None) l h = Ok ((end_ l, l), h)
  ∧ (∃ l' h',
       erase (iterator_at (Some a)) l h = Ok ((iterator_at (first_or None l2), l'), h')
       ∧ is_list h' l' (l1 ++ l2)
       ∧ h' !! a = None
       ∧ pHead l' = (if bool_decide (l1 = []) then first_or None l2 else pHead l)
       ∧ pTail l' = (if bool_decide (l2 = []) then last_or None l1 else pTail l)
       ∧ (l1 = [] → l2 = [] → pHead l' = None ∧ pTail l' = None)
       ∧ numElements l' = numElements l - 1
       ∧ (l2 = [] → iterator_at (first_or None l2) = end_ l))
  ∧ pop_front l h = (let* r := erase (begin l) l in ret (snd r)) h
  ∧ pop_back l h = (let* r := erase (rbegin l) l in ret (snd r)) h
  ∧ (∀ h0 l0, is_list h0 l0 [] →
       pop_front l0 h0 = Ok (l0, h0) ∧ pop_back l0 h0 = Ok (l0, h0)).
Proof.
  intros Hl. split; [done|]. split; [|split; [done|split; [done|]]].
  - destruct (erase_spec _ _ _ _ _ _ Hl) as (h' & Hrun & Hl' & _ & Ha & _).
    destruct Hl as (_ & _ & Hh & Ht & _).
    eexists _, h'. split; [exact Hrun|]. split_and!; try done; simpl.
    + rewrite Hh. destruct l1; by rewrite ?first_or_app.
    + rewrite Ht. destruct l2 as [|y l2].
      * by rewrite app_nil_r.
      * rewrite bool_decide_eq_false_2 by done. by rewrite !last_or_app, !last_or_cons.
    + by intros -> ->.
    + by intros ->.
  - intros h0 l0 Hl0. split; [by eapply pop_front_empty|by eapply pop_back_empty].
Qed.

(** C3. After copy-assignment between two lists the destination's length
    and per-position values exactly match the source, the source is
    unchanged, and the two lists share no nodes: whatever operation then
    mutates one of the two lists leaves the contents of the other
    unaffected. *)
Theorem copy_assign_independent (mf : T → T) w xss x y xs ys :
  repr w xss → x ≠ y → xss !! x = Some xs → xss !! y = Some ys →
  Z.of_nat (base.size (store w) + (length ys - length xs)) ≤ max_nodes →
  ∃ w1 xss1 xs',
    step mf (AssignCopy x y) w = Ok w1
    ∧ repr w1 xss1 ∧ xss1 !! x = Some xs' ∧ xss1 !! y = Some ys
    ∧ xs'.*2 = ys.*2
    ∧ vars w1 !! y = vars w !! y
    ∧ (∀ b, b ∈ ys.*1 → store w1 !! b = store w !! b)
    ∧ xs'.*1 ## ys.*1
    ∧ contents w1 x = Some ys.*2
    ∧ contents w1 y = Some ys.*2
    ∧ ∀ o w2, step mf o w1 = Ok w2 →
        (y ∉ targets o → contents w2 y = Some ys.*2)
        ∧ (x ∉ targets o → contents w2 x = Some ys.*2).
Proof.
  intros Hw Hxy Hxs Hys Hroom. pose proof Hw as (Hlen & Hall & Hdisj).
  destruct (lookup_lt_is_Some_2 (vars w) x) as [l Hl].
  { rewrite Hlen. by eapply lookup_lt_Some. }
  destruct (lookup_lt_is_Some_2 (vars w) y) as [r Hr].
  { rewrite Hlen. by eapply lookup_lt_Some. }
  pose proof (Hall _ _ _ Hl Hxs) as Hlx. pose proof (Hall _ _ _ Hr Hys) as Hry.
  pose proof (Hdisj x y _ _ Hxy Hxs Hys) as Hd.
  destruct (returns_ok _ _ _ _ (assign_copy_spec _ _ _ _ _ Hlx Hry Hd) Hroom)
    as (l' & h' & Hrun & new & Hl' & Hr' & Hnew & Hdead & _ & Hfr & _).
  set (xs' := take (length ys) (overwritten xs ys.*2) ++ new) in *.
  assert (Hw1 : repr (mkWorld h' (<[x := l']> (vars w))) (<[y := ys]> (<[x := xs']> xss))).
  { eapply (repr_member2 w xss x y l r xs ys); try done.
    - eapply frame_weaken; [exact Hfr|]. intros b Hb. apply elem_of_app. by left.
    - intros b Hb. unfold xs' in Hb. rewrite fmap_app, fmap_take, overwritten_fst in Hb.
      apply elem_of_app in Hb as [Hb|Hb].
      + left. by eapply elem_of_take_sub.
      + right. by apply Hdead. }
  assert (Hx1 : (<[y := ys]> (<[x := xs']> xss)) !! x = Some xs').
  { rewrite list_lookup_insert_ne by done.
    apply list_lookup_insert_eq. by eapply lookup_lt_Some. }
  assert (Hy1 : (<[y := ys]> (<[x := xs']> xss)) !! y = Some ys).
  { apply list_lookup_insert_eq. rewrite length_insert. by eapply lookup_lt_Some. }
  assert (Hvals : xs'.*2 = ys.*2).
  { unfold xs'. rewrite <- (length_fmap snd ys). by apply assign_il_contents. }
  eexists _, _, xs'. split_and!.
  - cbn [step]. unfold member2, member. rewrite Hr, Hl, Hrun. reflexivity.
  - exact Hw1.
  - exact Hx1.
  - exact Hy1.
  - exact Hvals.
  - simpl. by rewrite list_lookup_insert_ne.
  - intros b Hb. simpl. apply Hfr; [|by eapply is_list_live].
    intros Hbx. by apply (Hd b).
  - destruct Hw1 as (_ & _ & Hdisj1). by eapply (Hdisj1 x y).
  - rewrite <- Hvals. by eapply contents_repr.
  - by eapply contents_repr.
  - intros o w2 Hstep.
    destruct (step_repr _ _ _ _ _ Hw1 Hstep) as (xss2 & Hw2 & Hsame).
    split; intros Ht.
    + eapply contents_repr; [exact Hw2|]. rewrite Hsame; [done|done|].
      by eapply lookup_lt_Some.
    + rewrite <- Hvals. eapply contents_repr; [exact Hw2|]. rewrite Hsame; [done|done|].
      by eapply lookup_lt_Some.
Qed.

(** C4. [insert(position, value)] inserts a new node holding the value
    immediately before the node named by the position, returns an iterator
    to the new node and increments the count by one. On an empty list the
    new node becomes the sole head and tail, whatever the position; when the
    position is the end iterator the node is appended as the new tail, as by
    [push_back]; otherwise the node is spliced between the position's
    predecessor and the position, and the head is updated when the position
    had no predecessor. The move variant builds the same list. *)
Theorem insert_before_position h l l1 l2 it (d : T) :
  is_list h l (l1 ++ l2) → p it = first_or None l2 →
  Z.of_nat (base.size h) < max_nodes →
  ∃ a l' h',
    insert it d l h = Ok ((iterator_at (Some a), l'), h')
    ∧ h !! a = None
    ∧ h' !! a = Some (mkNode d (first_or None l2) (last_or None l1))
    ∧ is_list h' l' (l1 ++ (a, d) :: l2)
    ∧ numElements l' = numElements l + 1
    ∧ (l1 = [] → pHead l' = Some a)
    ∧ (l1 ≠ [] → pHead l' = pHead l)
    ∧ (l2 = [] → pTail l' = Some a)
    ∧ (l2 ≠ [] → pTail l' = pTail l)
    ∧ (l2 = [] →
       insert it d l h
       = (let* l'' := push_back d l in ret (iterator_at (pTail l''), l'')) h)
    ∧ (l1 ++ l2 = [] → ∀ it', insert it' d l h = insert it d l h)
    ∧ insert_move it d l h = insert it d l h.
Proof.
  intros Hl Hit Hroom.
  destruct (insert_spec _ _ _ _ _ d Hl Hit Hroom) as (a & l' & h' & Hrun & Ha & Hl' & _).
  exists a, l', h'. pose proof Hl' as (Hseg' & _ & Hh' & Ht' & Hn' & _).
  pose proof Hl as (_ & _ & Hh & Ht & Hn & _).
  apply seg_mid in Hseg' as (_ & Hnode & _).
  split_and!; try done.
  - rewrite Hn', Hn, !length_app. simpl. lia.
  - intros ->. by rewrite Hh'.
  - intros Hne. rewrite Hh', Hh, !first_or_app. by destruct l1.
  - intros ->. by rewrite Ht', last_or_app, last_or_cons.
  - intros Hne. rewrite Ht', Ht, !last_or_app, last_or_cons.
    destruct l2 as [|y l2]; [done|]. by rewrite !last_or_cons.
  - intros ->. destruct it as [q]. simpl in Hit. subst q.
    rewrite app_nil_r in Hl. by eapply (insert_end_push_back h l l1).
  - intros Hnil it'. rewrite Hnil in Hl. unfold insert.
    rewrite (empty_is_list _ _ _ Hl). by rewrite bool_decide_eq_true_2.
Qed.

(** C5. For every list reached by a sequence of constructions,
    [push_front]/[push_back], [pop_front]/[pop_back], [insert], [erase],
    [clear], assignments and swaps: [size()] is the number of nodes met from
    head by following the next links, the last of which is tail;
    [empty() == (size() == 0)]; the count is zero iff head is null iff tail
    is null; and for two nodes A and B of the list, [A.next == B] iff
    [B.prev == A]. *)
Theorem reachable_list_invariants (mf : T → T) ops w x l :
  run mf ops init = Ok w → vars w !! x = Some l →
  ∃ ps,
    path (store w) (pHead l) ps
    ∧ last ps = pTail l
    ∧ size l = Z.of_nat (length ps)
    ∧ empty l = (size l =? 0)
    ∧ (numElements l = 0 ↔ pHead l = None)
    ∧ (pHead l = None ↔ pTail l = None)
    ∧ ∀ A B nA nB,
        A ∈ ps → B ∈ ps → store w !! A = Some nA → store w !! B = Some nB →
        (pNext nA = Some B ↔ pPrev nB = Some A).
Proof.
  intros Hrun Hl.
  destruct (run_repr mf ops _ _ _ repr_init Hrun) as (xss & Hw).
  destruct (repr_lookup _ _ _ _ Hw Hl) as (xs & _ & Hlx).
  destruct (is_list_invariants _ _ _ Hlx) as (Hp & Hlast & Hsz & Hemp & Hz & Hht).
  exists xs.*1. split_and!; try done.
  intros A B nA nB. by apply (is_list_links _ l xs).
Qed.

(** C6. Assigning a literal sequence onto an existing list yields a list
    whose length and per-position values exactly match the literal. Existing
    nodes are reused by overwriting their values, nodes are appended when the
    literal is longer, and the surplus nodes are released when it is shorter.
    Assigning [{1,2}] onto [[9,9,9,9]] yields [[1,2]] with [size() == 2];
    assigning [{1,2,3,4}] onto [[9,9]] yields [[1,2,3,4]]. *)
Theorem assign_il_matches_literal h l xs (il : list T) :
  is_list h l xs →
  Z.of_nat (base.size h + (length il - length xs)) ≤ max_nodes →
  (∃ l' h' ys added,
     assign_il l il h = Ok (l', h')
     ∧ is_list h' l' ys
     ∧ ys.*2 = il
     ∧ size l' = Z.of_nat (length il)
     ∧ to_list l' h' = Ok (il, h')
     ∧ ys.*1 = take (length il) xs.*1 ++ added
     ∧ length added = (length il - length xs)%nat
     ∧ (∀ b, b ∈ added → h !! b = None)
     ∧ (∀ b, b ∈ drop (length il) xs.*1 → h' !! b = None))
  ∧ (∃ w, run id [ConstructIl [9; 9; 9; 9]; AssignIl 0 [1; 2]] init = Ok w
          ∧ contents w 0 = Some [1; 2]
          ∧ (size <$> vars w !! 0%nat) = Some 2)
  ∧ (∃ w, run id [ConstructIl [9; 9]; AssignIl 0 [1; 2; 3; 4]] init = Ok w
          ∧ contents w 0 = Some [1; 2; 3; 4]
          ∧ (size <$> vars w !! 0%nat) = Some 4).
Proof.
  intros Hl Hroom. split; [|split].
  - destruct (returns_ok _ _ _ _ (assign_il_spec _ _ _ il Hl) Hroom)
      as (l' & h' & Hrun & new & Hl' & Hnew & Hdead & Hrel & _).
    exists l', h', (take (length il) (overwritten xs il) ++ new), new.*1.
    pose proof (assign_il_contents xs il new Hnew) as Hvals.
    split_and!; try done.
    + destruct Hl' as (_ & _ & _ & _ & Hcnt & _). unfold size. rewrite Hcnt. f_equal.
      by rewrite <- (length_fmap snd (_ ++ _)), Hvals.
    + by rewrite (to_list_spec _ _ _ Hl'), Hvals.
    + apply assign_il_nodes.
    + by rewrite length_fmap, <- (length_fmap snd new), Hnew, length_drop.
  - eexists. split; [vm_compute; reflexivity|]. split; vm_compute; reflexivity.
  - eexists. split; [vm_compute; reflexivity|]. split; vm_compute; reflexivity.
Qed.

(** C7. For every finite sequence [S], constructing a list from [S] (from
    an initializer list or from a pair of iterators) and then iterating from
    [begin()] by increments until [end()] yields exactly [S] in order, and
    iterating from [rbegin()] by decrements yields [S] reversed. *)
Theorem construct_roundtrip (S : list T) h :
  Z.of_nat (base.size h + length S) ≤ max_nodes →
  ∃ l h',
    list_il S h = Ok (l, h')
    ∧ list_range S h = Ok (l, h')
    ∧ to_list l h' = Ok (S, h')
    ∧ to_list_rev l h' = Ok (reverse S, h')
    ∧ size l = Z.of_nat (length S).
Proof.
  intros Hroom.
  destruct (returns_ok _ _ _ _ (push_back_all_spec S h _ [] (is_list_nil h)) Hroom)
    as (l & h' & Hrun & new & Hnew & _ & Hl & _).
  simpl in Hl. exists l, h'. split_and!; try done.
  - by rewrite (to_list_spec _ _ _ Hl), Hnew.
  - by rewrite (to_list_rev_spec _ _ _ Hl), Hnew.
  - destruct Hl as (_ & _ & _ & _ & Hcnt & _). unfold size. rewrite Hcnt.
    by rewrite <- Hnew, length_fmap.
Qed.

(** C8. [front()] and [back()] on a non-empty list return a mutable
    reference to the element at head and at tail respectively: reading
    through it gives that element and writing through it replaces that
    element. On an empty list each throws the empty-list error and does not
    return. *)
Theorem front_back_access h l xs :
  is_list h l xs →
  empty l = bool_decide (xs = [])
  ∧ (xs = [] →
     front l h = Err (Throw empty_list_msg) ∧ back l h = Err (Throw empty_list_msg))
  ∧ (∀ a v xs', xs = (a, v) :: xs' →
       front l h = Ok (a, h) ∧ pHead l = Some a ∧ read_ref a h = Ok (v, h)
       ∧ ∀ d, ∃ h', write_ref a d h = Ok (tt, h') ∧ is_list h' l ((a, d) :: xs'))
  ∧ (∀ a v xs', xs = xs' ++ [(a, v)] →
       back l h = Ok (a, h) ∧ pTail l = Some a ∧ read_ref a h = Ok (v, h)
       ∧ ∀ d, ∃ h', write_ref a d h = Ok (tt, h') ∧ is_list h' l (xs' ++ [(a, d)])).
Proof.
  intros Hl. split; [by eapply empty_is_list|]. split; [|split].
  - intros ->. destruct Hl as (_ & _ & Hh & Ht & _). unfold front, back.
    by rewrite Hh, Ht.
  - intros a v xs' ->. pose proof Hl as (Hseg & _ & Hh & _).
    destruct Hseg as [Ha _]. unfold front. rewrite Hh. simpl in *.
    split_and!; try done.
    + apply (get_data_ok _ _ _ Ha).
    + intros d. destruct (write_ref_spec h l [] a v xs' d Hl) as (h' & Hw & Hl' & _).
      by exists h'.
  - intros a v xs' ->. pose proof Hl as (Hseg & _ & _ & Ht & _).
    apply seg_snoc in Hseg as [_ Ha]. unfold back. rewrite Ht, last_or_snoc. simpl in *.
    split_and!; try done.
    + apply (get_data_ok _ _ _ Ha).
    + intros d. destruct (write_ref_spec h l xs' a v [] d Hl) as (h' & Hw & Hl' & _).
      by exists h'.
Qed.

(** C9. For an iterator whose position is null (the end iterator),
    increment and decrement, prefix and postfix, leave the position null
    without failing, and dereference throws. For an iterator on a node,
    dereference returns a mutable reference to that node's element. *)
Theorem iterator_null_position (h : heap) :
  pre_incr (mkIt None) h = Ok (mkIt None, h)
  ∧ post_incr (mkIt None) h = Ok ((mkIt None, mkIt None), h)
  ∧ pre_decr (mkIt None) h = Ok (mkIt None, h)
  ∧ post_decr (mkIt None) h = Ok ((mkIt None, mkIt None), h)
  ∧ deref (mkIt None) h = Err (Throw empty_list_msg)
  ∧ ∀ a n,
      deref (mkIt (Some a)) (<[a := n]> h) = Ok (a, <[a := n]> h)
      ∧ read_ref a (<[a := n]> h) = Ok (data n, <[a := n]> h)
      ∧ ∀ d, write_ref a d (<[a := n]> h)
             = Ok (tt, <[a := mkNode d (pNext n) (pPrev n)]> h).
Proof.
  split_and!; try done. intros a n. split_and!; [done| |].
  - unfold read_ref. erewrite get_data_ok; [done|apply lookup_insert_eq].
  - intros d. unfold write_ref. erewrite set_data_ok by apply lookup_insert_eq.
    by rewrite insert_insert_eq.
Qed.

(** C10. The postfix increment and postfix decrement operators return an
    iterator equal to the iterator after the move, the value the prefix forms
    return, and not an iterator naming the position held before: on a node of
    a list they return the iterator at its successor (resp. predecessor),
    which is never the node itself. *)
Theorem postfix_returns_moved_iterator (h : heap) it :
  post_incr it h = (let* it' := pre_incr it in ret (it', it')) h
  ∧ post_decr it h = (let* it' := pre_decr it in ret (it', it')) h
  ∧ (∀ a n,
       post_incr (mkIt (Some a)) (<[a := n]> h)
       = Ok ((mkIt (pNext n), mkIt (pNext n)), <[a := n]> h)
       ∧ post_decr (mkIt (Some a)) (<[a := n]> h)
         = Ok ((mkIt (pPrev n), mkIt (pPrev n)), <[a := n]> h))
  ∧ ∀ l l1 a v l2,
      is_list h l (l1 ++ (a, v) :: l2) →
      post_incr (mkIt (Some a)) h
      = Ok ((mkIt (first_or None l2), mkIt (first_or None l2)), h)
      ∧ post_decr (mkIt (Some a)) h
        = Ok ((mkIt (last_or None l1), mkIt (last_or None l1)), h)
      ∧ first_or None l2 ≠ Some a
      ∧ last_or None l1 ≠ Some a.
Proof.
  split; [done|]. split; [done|]. split.
  - intros a n. unfold post_incr, post_decr. proj. split.
    + rewrite bind_assoc. erewrite bind_ok; [|eapply get_pNext_ok, lookup_insert_eq]. done.
    + rewrite bind_assoc. erewrite bind_ok; [|eapply get_pPrev_ok, lookup_insert_eq]. done.
  - intros l l1 a v l2 (Hseg & Hnd & _).
    apply seg_mid in Hseg as (_ & Hn & _). simpl in Hn.
    rewrite fmap_app, fmap_cons in Hnd.
    apply NoDup_app in Hnd as (_ & Hd & Hnd2). apply NoDup_cons in Hnd2 as [Ha2 _].
    simpl in *. split_and!.
    + by rewrite (post_incr_node _ _ _ Hn).
    + unfold post_decr. proj. rewrite bind_assoc.
      by rewrite (bind_ok _ _ _ _ _ (get_pPrev_ok _ _ _ Hn)).
    + intros Hf. apply Ha2. destruct l2 as [|[b w] l2]; simplify_eq/=.
      apply list_elem_of_here.
    + intros Hl. apply (Hd a); [|apply list_elem_of_here].
      unfold last_or in Hl. destruct (last l1) as [[b w]|] eqn:E; simplify_eq/=.
      apply last_Some in E as [l' ->]. rewrite fmap_app. set_solver.
Qed.

End proofs.

(** ** Further properties of the operations *)

Section further.

Context {T : Type}.
Implicit Types (h : gmap loc (Node T)) (v : T).
Implicit Types (xs ys : list (loc * T)).

Local Abbreviation heap := (gmap loc (Node T)).

(** The members of a list object are determined by the chain it owns. *)
Lemma is_list_record h h' (l l' : List) xs :
  is_list h l xs → is_list h' l' xs → l' = l.
Proof.
  intros (_ & _ & Hh & Ht & Hn & _) (_ & _ & Hh' & Ht' & Hn' & _).
  destruct l, l'. simpl in *. congruence.
Qed.

(** A store that kept every node and did not grow is the same store. *)
Lemma store_restored h h' :
  (∀ b, is_Some (h !! b) → h' !! b = h !! b) →
  base.size h' = base.size h → h' = h.
Proof.
  intros Hsub Hsz. symmetry. apply map_subseteq_size_eq; [|lia].
  apply map_subseteq_spec. intros b n Hb. rewrite Hsub; [done|by eexists].
Qed.

(** The nodes of a chain found again after a detour are the same nodes. *)
Lemma frame_all h h' (l : List) xs :
  is_list h l xs → is_list h' l xs → frame xs.*1 h h' →
  ∀ b, is_Some (h !! b) → h' !! b = h !! b.
Proof.
  intros Hl Hl' Hfr b Hb. destruct (decide (b ∈ xs.*1)) as [Hin|Hout].
  - eapply seg_agree; [apply Hl|apply Hl'|done].
  - by apply Hfr.
Qed.

Lemma is_list_size h (l : List) xs : is_list h l xs → size l = Z.of_nat (length xs).
Proof. by intros (_ & _ & _ & _ & Hn & _). Qed.

(** X1. [push_back] on a list holding [xs] allocates one node [a] and makes
    it the tail: the list then holds [xs] followed by the value, [size()]
    is one more, [back()] refers to the new element, and no node outside the
    list is written. The rvalue overload does the same. It returns whenever
    the store has room for one node. *)
Theorem push_back_appends h l xs (d : T) :
  is_list h l xs → Z.of_nat (base.size h) < max_nodes →
  ∃ a l' h',
    push_back d l h = Ok (l', h')
    ∧ push_back_move d l h = Ok (l', h')
    ∧ h !! a = None
    ∧ is_list h' l' (xs ++ [(a, d)])
    ∧ to_list l' h' = Ok (xs.*2 ++ [d], h')
    ∧ to_list_rev l' h' = Ok (d :: reverse xs.*2, h')
    ∧ size l' = size l + 1
    ∧ back l' h' = Ok (a, h')
    ∧ read_ref a h' = Ok (d, h')
    ∧ frame xs.*1 h h'
    ∧ base.size h' = S (base.size h).
Proof.
  intros Hl Hroom.
  destruct (push_back_spec _ _ _ d Hl Hroom) as (a & l' & h' & Hrun & Ha & Hl' & Hfr & _ & Hsz).
  exists a, l', h'. split_and!; try done.
  - rewrite (to_list_spec _ _ _ Hl'). by rewrite fmap_app.
  - rewrite (to_list_rev_spec _ _ _ Hl'). by rewrite fmap_app, reverse_app.
  - rewrite (is_list_size _ _ _ Hl), (is_list_size _ _ _ Hl'), length_app. simpl. lia.
  - destruct Hl' as (_ & _ & _ & Ht & _). unfold back. by rewrite Ht, last_or_snoc.
  - destruct Hl' as (Hseg & _). apply seg_snoc in Hseg as [_ Hn].
    apply (get_data_ok _ _ _ Hn).
Qed.

(** X2. [push_front] on a list holding [xs] allocates one node [a] and makes
    it the head: the list then holds the value followed by [xs], [size()]
    is one more, [front()] refers to the new element, and no node outside
    the list is written. The rvalue overload does the same. *)
Theorem push_front_prepends h l xs (d : T) :
  is_list h l xs → Z.of_nat (base.size h) < max_nodes →
  ∃ a l' h',
    push_front d l h = Ok (l', h')
    ∧ push_front_move d l h = Ok (l', h')
    ∧ h !! a = None
    ∧ is_list h' l' ((a, d) :: xs)
    ∧ to_list l' h' = Ok (d :: xs.*2, h')
    ∧ to_list_rev l' h' = Ok (reverse xs.*2 ++ [d], h')
    ∧ size l' = size l + 1
    ∧ front l' h' = Ok (a, h')
    ∧ read_ref a h' = Ok (d, h')
    ∧ frame xs.*1 h h'
    ∧ base.size h' = S (base.size h).
Proof.
  intros Hl Hroom.
  destruct (push_front_spec _ _ _ d Hl Hroom) as (a & l' & h' & Hrun & Ha & Hl' & Hfr & _ & Hsz).
  exists a, l', h'. split_and!; try done.
  - by rewrite (to_list_spec _ _ _ Hl').
  - rewrite (to_list_rev_spec _ _ _ Hl'). by rewrite fmap_cons, reverse_cons.
  - rewrite (is_list_size _ _ _ Hl), (is_list_size _ _ _ Hl'). simpl length. lia.
  - destruct Hl' as (_ & _ & Hh & _). unfold front. by rewrite Hh.
  - destruct Hl' as ([Hn _] & _). apply (get_data_ok _ _ _ Hn).
Qed.

(** X3. [clear] and the destructor release every node of the list and no
    other node, and leave the members of an empty list: null head and tail
    and a zero count. Clearing an empty list changes nothing. *)
Theorem clear_releases_all h l xs :
  is_list h l xs →
  ∃ h',
    clear l h = Ok (list_default, h')
    ∧ destroy l h = Ok (list_default, h')
    ∧ (∀ b, b ∈ xs.*1 → h' !! b = None)
    ∧ (∀ b, b ∉ xs.*1 → h' !! b = h !! b)
    ∧ (base.size h' + length xs = base.size h)%nat
    ∧ to_list list_default h' = Ok ([], h')
    ∧ clear list_default h' = Ok (list_default, h').
Proof.
  intros Hl.
  destruct (clear_spec _ _ _ Hl) as (h' & Hrun & Hl' & Hfr & Hgone & Hdead & Hsz).
  exists h'. split_and!; try done.
  intros b Hb. destruct (h !! b) as [n|] eqn:Hn.
  - rewrite <- Hn. apply Hfr; [done|]. rewrite Hn. by eexists.
  - by apply Hdead.
Qed.


(** The ways [push_back] can fail: no room for the node, or a dangling
    tail. *)
Lemma push_back_err (d : T) l h e :
  push_back d l h = Err e → e = BadAlloc ∨ e = UB.
Proof.
  unfold push_back, bind, new, set_pPrev, set_pNext, modify, ret.
  intros H. repeat (case_match; simplify_eq/=); auto.
Qed.

(** Past [INT_MAX] elements the counter of the fill loop overflows. *)
Lemma fill_loop_err (t : T) num : ∀ fuel i l h,
  0 ≤ i ≤ INT_MAX → INT_MAX < num → (Z.to_nat (INT_MAX - i) < fuel)%nat →
  ∃ e, fill_loop fuel i num t l h = Err e ∧ (e = BadAlloc ∨ e = UB).
Proof.
  induction fuel as [|fuel IH]; intros i l h Hi Hnum Hfuel; [lia|].
  assert (Hcond : (wrap64 i <? num) = true).
  { apply Z.ltb_lt. rewrite wrap64_small by (unfold INT_MAX in *; lia). lia. }
  cbn [fill_loop]. rewrite Hcond. unfold bind.
  destruct (push_back t l h) as [[l' h']|e] eqn:Hpush.
  - destruct (Z.eqb_spec i INT_MAX) as [->|Hne]; [eexists; split; [done|by right]|].
    apply IH; lia.
  - exists e. split; [done|]. by eapply push_back_err.
Qed.

Lemma fill_loop_ub (t : T) num : ∀ fuel i l h xs,
  0 ≤ i ≤ INT_MAX → INT_MAX < num → (Z.to_nat (INT_MAX - i) < fuel)%nat →
  is_list h l xs → Z.of_nat (base.size h) + (INT_MAX - i) < max_nodes →
  fill_loop fuel i num t l h = Err UB.
Proof.
  induction fuel as [|fuel IH]; intros i l h xs Hi Hnum Hfuel Hl Hroom; [lia|].
  assert (Hcond : (wrap64 i <? num) = true).
  { apply Z.ltb_lt. rewrite wrap64_small by (unfold INT_MAX in *; lia). lia. }
  cbn [fill_loop]. rewrite Hcond.
  destruct (push_back_spec _ _ _ t Hl) as (a & l' & h' & Hrun & _ & Hl' & _ & _ & Hsz);
    [lia|].
  rewrite (bind_ok _ _ _ _ _ Hrun).
  destruct (Z.eqb_spec i INT_MAX) as [->|Hne]; [done|].
  eapply IH; [lia|lia|lia|exact Hl'|]. rewrite Hsz. lia.
Qed.

(** X5. The fill constructors, for a count [0 ≤ num ≤ INT_MAX] and a store
    with room for [num] nodes, build a list of exactly [num] copies of the
    value on nodes that were not in use, and leave every other node as it
    was. *)
Theorem fill_constructor_replicates h num (t : T) :
  0 ≤ num ≤ INT_MAX →
  Z.of_nat (base.size h) + num ≤ max_nodes →
  ∃ l h' xs,
    list_fill num t h = Ok (l, h')
    ∧ list_fill_default t num h = Ok (l, h')
    ∧ is_list h' l xs
    ∧ xs.*2 = replicate (Z.to_nat num) t
    ∧ to_list l h' = Ok (replicate (Z.to_nat num) t, h')
    ∧ size l = num
    ∧ (∀ b, b ∈ xs.*1 → h !! b = None)
    ∧ (∀ b, is_Some (h !! b) → h' !! b = h !! b)
    ∧ base.size h' = (base.size h + Z.to_nat num)%nat.
Proof.
  intros Hnum Hroom.
  pose proof (fill_loop_spec t num (Z.to_nat (num - 0)) 0 h (mkList 0 None None) []
                (Z.to_nat num) eq_refl ltac:(unfold INT_MAX; lia) ltac:(lia)
                ltac:(lia) (is_list_nil h)) as Hspec.
  destruct (returns_ok _ _ _ _ Hspec) as (l & h' & Hrun & new & Hvals & Hdead & Hl & Hfr & _ & Hsz);
    [lia|].
  rewrite Z.sub_0_r in Hvals. simpl in Hl.
  exists l, h', new. split_and!; try done.
  - by rewrite (to_list_spec _ _ _ Hl), Hvals.
  - rewrite (is_list_size _ _ _ Hl), <- (length_fmap snd new), Hvals, length_replicate. lia.
  - intros b Hb. apply Hfr; [|done]. apply not_elem_of_nil.
  - rewrite Hsz, <- (length_fmap snd new), Hvals, length_replicate. lia.
Qed.

(** X6. The fill constructors count with an [int] against a [size_t]: asked
    for more than [INT_MAX] elements they never return a list. Either an
    allocation fails first or, when the store has room, the counter is
    incremented past [INT_MAX], which is undefined. *)
Theorem fill_constructor_overflows h num (t : T) :
  INT_MAX < num →
  (∃ e, list_fill num t h = Err e ∧ (e = BadAlloc ∨ e = UB))
  ∧ (∃ e, list_fill_default t num h = Err e ∧ (e = BadAlloc ∨ e = UB))
  ∧ (Z.of_nat (base.size h) + INT_MAX < max_nodes → list_fill num t h = Err UB).
Proof.
  intros Hnum. unfold list_fill_default, list_fill.
  assert (Hfuel : (Z.to_nat (INT_MAX - 0) < Z.to_nat num)%nat)
    by (unfold INT_MAX in *; lia).
  assert (H0 : 0 ≤ 0 ≤ INT_MAX) by (unfold INT_MAX; lia).
  split_and!.
  - by apply fill_loop_err.
  - by apply fill_loop_err.
  - intros Hroom. eapply fill_loop_ub; [done|done|done|apply is_list_nil|lia].
Qed.

(** X7. The copy constructor builds, when the store has room for as many
    nodes as the source has, a list with the source's values in order on
    nodes that were not in use; the source and every other node are left as
    they were. *)
Theorem copy_constructor_copies h (r : List) ys :
  is_list h r ys →
  Z.of_nat (base.size h + length ys) ≤ max_nodes →
  ∃ l h' xs,
    list_copy r h = Ok (l, h')
    ∧ is_list h' l xs
    ∧ xs.*2 = ys.*2
    ∧ to_list l h' = Ok (ys.*2, h')
    ∧ size l = size r
    ∧ (∀ b, b ∈ xs.*1 → h !! b = None)
    ∧ is_list h' r ys
    ∧ (∀ b, is_Some (h !! b) → h' !! b = h !! b)
    ∧ base.size h' = (base.size h + length ys)%nat.
Proof.
  intros Hr Hroom.
  pose proof (assign_copy_spec h (mkList 0 None None) r [] ys (is_list_nil h) Hr) as Hspec.
  destruct (returns_ok _ _ _ _ (Hspec ltac:(intros b Hb; by apply elem_of_nil in Hb)))
    as (l & h' & Hrun & new & Hl & Hr' & Hvals & Hdead & _ & Hfr & Hsz).
  { simpl. rewrite Nat.sub_0_r. lia. }
  change (new.*2 = ys.*2) in Hvals. simpl in Hl, Hsz. rewrite take_nil in Hl. simpl in Hl.
  assert (Hlen : length new = length ys)
    by (by rewrite <- (length_fmap snd new), Hvals, length_fmap).
  exists l, h', new. split_and!; try done.
  - by rewrite (to_list_spec _ _ _ Hl), Hvals.
  - rewrite (is_list_size _ _ _ Hl), (is_list_size _ _ _ Hr). by rewrite Hlen.
  - intros b Hb. apply Hfr; [|done]. apply not_elem_of_nil.
  - lia.
Qed.

(** X8. Copy-assigning a list to itself returns with the list and the store
    exactly as they were: no node is written, allocated or released. *)
Theorem copy_assign_self_unchanged h (l : List) xs :
  is_list h l xs →
  assign_copy l l h = Ok (l, h) ∧ to_list l h = Ok (xs.*2, h).
Proof.
  intros Hl. split; [by eapply assign_copy_self|by apply to_list_spec].
Qed.

(** A detour through another store that ends on the same chain, wrote
    outside it only to nodes that were not live, and did not change the
    number of live nodes, ends in the store it started from. *)
Lemma detour_restores h h1 h2 (l l2 : List) xs ps :
  is_list h l xs → is_list h2 l2 xs →
  frame xs.*1 h h1 → frame ps h1 h2 →
  (∀ b, b ∈ ps → b ∈ xs.*1 ∨ h !! b = None) →
  base.size h2 = base.size h →
  l2 = l ∧ h2 = h.
Proof.
  intros Hl Hl2 Hfr1 Hfr2 Hps Hsz. split; [by eapply is_list_record|].
  apply store_restored; [|done]. intros b Hb.
  destruct (decide (b ∈ xs.*1)) as [Hin|Hout].
  - eapply seg_agree; [apply Hl|apply Hl2|done].
  - assert (Hb1 : h1 !! b = h !! b) by (by apply Hfr1).
    rewrite <- Hb1. apply Hfr2; [|by rewrite Hb1].
    intros Hin. destruct (Hps _ Hin) as [?|Hdead]; [done|].
    rewrite Hdead in Hb. by destruct Hb.
Qed.

(** X9. [push_back] followed by [pop_back], and [push_front] followed by
    [pop_front], leave the list object and the whole store exactly as they
    were. *)
Theorem push_pop_round_trip h (l : List) xs (d : T) :
  is_list h l xs → Z.of_nat (base.size h) < max_nodes →
  (let* l1 := push_back d l in pop_back l1) h = Ok (l, h)
  ∧ (let* l1 := push_front d l in pop_front l1) h = Ok (l, h).
Proof.
  intros Hl Hroom. split.
  - destruct (push_back_spec _ _ _ d Hl Hroom)
      as (a & l1 & h1 & Hrun & Ha & Hl1 & Hfr1 & _ & Hsz1).
    destruct (pop_back_spec _ _ _ _ _ Hl1) as (l2 & h2 & Hpop & Hl2 & Hfr2 & Hsz2).
    rewrite (bind_ok _ _ _ _ _ Hrun), Hpop.
    destruct (detour_restores h h1 h2 l l2 xs _ Hl Hl2 Hfr1 Hfr2) as [-> ->]; [|lia|done].
    intros b Hb. rewrite fmap_app in Hb.
    apply elem_of_app in Hb as [Hb|Hb]; [by left|]. right.
    apply list_elem_of_singleton in Hb. by subst.
  - destruct (push_front_spec _ _ _ d Hl Hroom)
      as (a & l1 & h1 & Hrun & Ha & Hl1 & Hfr1 & _ & Hsz1).
    destruct (pop_front_spec _ _ _ _ _ Hl1) as (l2 & h2 & Hpop & Hl2 & Hfr2 & Hsz2).
    rewrite (bind_ok _ _ _ _ _ Hrun), Hpop.
    destruct (detour_restores h h1 h2 l l2 xs _ Hl Hl2 Hfr1 Hfr2) as [-> ->]; [|lia|done].
    intros b Hb. rewrite fmap_cons in Hb.
    apply elem_of_cons in Hb as [->|Hb]; [by right|by left].
Qed.

(** X10. [insert] at a position of the list followed by [erase] of the
    iterator it returned leaves the list object and the whole store exactly
    as they were, and [erase] returns the position given to [insert]. *)
Theorem insert_erase_round_trip h (l : List) l1 l2 it (d : T) :
  is_list h l (l1 ++ l2) → p it = first_or None l2 →
  Z.of_nat (base.size h) < max_nodes →
  (let* r := insert it d l in erase (fst r) (snd r)) h = Ok ((it, l), h).
Proof.
  intros Hl Hit Hroom.
  destruct (insert_spec _ _ _ _ _ d Hl Hit Hroom)
    as (a & l' & h1 & Hrun & Ha & Hl1 & Hfr1 & _ & Hsz1).
  destruct (erase_spec _ _ _ _ _ _ Hl1) as (h2 & Herase & Hl2 & Hfr2 & _ & _ & Hsz2).
  rewrite (bind_ok _ _ _ _ _ Hrun). cbn [fst snd]. rewrite Herase.
  destruct (detour_restores h h1 h2 l _ (l1 ++ l2) _ Hl Hl2 Hfr1 Hfr2) as [-> ->].
  - intros b Hb. rewrite fmap_app, fmap_cons in Hb. rewrite fmap_app.
    apply elem_of_app in Hb as [Hb|Hb]; [left; apply elem_of_app; by left|].
    apply elem_of_cons in Hb as [->|Hb]; [by right|left; apply elem_of_app; by right].
  - lia.
  - destruct it as [q]. simpl in Hit. subst q. done.
Qed.

(** [erase] of a node with no predecessor that is not the head. *)
Lemma erase_not_head h (l : List) a n :
  h !! a = Some n → pPrev n = None → pHead l ≠ Some a →
  erase (iterator_at (Some a)) l h = Err AssertFail.
Proof.
  intros Ha Hp Hh. unfold erase. proj.
  rewrite (bind_ok _ _ _ _ _ (get_pPrev_ok _ _ _ Ha)), Hp.
  unfold ptr_eqb. rewrite bool_decide_eq_false_2 by congruence. done.
Qed.

(** [erase] of a node with a live predecessor and no successor that is not
    the tail. *)
Lemma erase_not_tail h (l : List) a n b nb :
  h !! a = Some n → pPrev n = Some b → h !! b = Some nb → a ≠ b →
  pNext n = None → pTail l ≠ Some a →
  erase (iterator_at (Some a)) l h = Err AssertFail.
Proof.
  intros Ha Hp Hb Hab Hn Ht. unfold erase. proj.
  rewrite (bind_ok _ _ _ _ _ (get_pPrev_ok _ _ _ Ha)), Hp.
  rewrite bind_assoc, (bind_ok _ _ _ _ _ (get_pNext_ok _ _ _ Ha)), Hn.
  rewrite bind_assoc, (bind_ok _ _ _ _ _ (set_pNext_ok _ _ None _ Hb)).
  assert (Ha' : <[b := mkNode (data nb) None (pPrev nb)]> h !! a = Some n)
    by (by rewrite lookup_insert_ne).
  rewrite (bind_ok _ _ _ _ _ (ret_ok _ _)).
  rewrite (bind_ok _ _ _ _ _ (get_pNext_ok _ _ _ Ha')), Hn.
  unfold ptr_eqb. rewrite bool_decide_eq_false_2 by congruence. done.
Qed.

(** X11. [erase] on a list through an iterator that names the head or the
    tail node of another list does not return: one of its two assertions
    fails (with assertions compiled in). *)
Theorem erase_foreign_end_asserts h (l r : List) xs ys a :
  is_list h l xs → is_list h r ys → xs.*1 ## ys.*1 →
  pHead r = Some a ∨ pTail r = Some a →
  erase (iterator_at (Some a)) l h = Err AssertFail.
Proof.
  intros Hl Hr Hdisj Ha.
  assert (Hin : a ∈ ys.*1).
  { destruct Hr as (_ & _ & Hh & Ht & _). destruct Ha as [Ha|Ha].
    - rewrite Hh in Ha. destruct ys as [|y ys]; simplify_eq/=. apply list_elem_of_here.
    - rewrite Ht in Ha. destruct ys as [|y ys _] using rev_ind; [done|].
      rewrite last_or_snoc in Ha. simplify_eq. rewrite fmap_app. set_solver. }
  assert (Hout : a ∉ xs.*1) by (intros Hx; by apply (Hdisj a)).
  assert (Hnh : pHead l ≠ Some a).
  { destruct Hl as (_ & _ & Hh & _). rewrite Hh. destruct xs as [|x xs]; [done|].
    simpl. intros [= <-]. apply Hout, list_elem_of_here. }
  assert (Hnt : pTail l ≠ Some a).
  { destruct Hl as (_ & _ & _ & Ht & _). rewrite Ht.
    destruct xs as [|x xs _] using rev_ind; [done|].
    rewrite last_or_snoc. intros [= <-]. apply Hout. rewrite fmap_app. set_solver. }
  destruct Hr as (Hseg & Hnd & Hh & Ht & _). destruct Ha as [Ha|Ha].
  - rewrite Hh in Ha. destruct ys as [|[a' v] ys]; simplify_eq/=.
    destruct Hseg as [Hn _]. by eapply erase_not_head.
  - rewrite Ht in Ha. destruct ys as [|[a' v] ys _] using rev_ind; [done|].
    rewrite last_or_snoc in Ha. simplify_eq/=.
    apply seg_snoc in Hseg as [Hseg Hn]. simpl in Hn.
    destruct ys as [|[b w] ys _] using rev_ind.
    + by eapply erase_not_head.
    + rewrite last_or_snoc in Hn. apply seg_snoc in Hseg as [_ Hb]. simpl in *.
      eapply erase_not_tail; try done.
      intros <-. rewrite !fmap_app in Hnd. apply NoDup_app in Hnd as (_ & Hd & _).
      apply (Hd a); set_solver.
Qed.

(** X12. From an iterator on a node of a list, [++] followed by [--] comes
    back to the node unless it is the tail, and [--] followed by [++] comes
    back unless it is the head: an iterator that stepped off either end is
    null and stays null. *)
Theorem incr_decr_round_trip h (l : List) l1 a v l2 :
  is_list h l (l1 ++ (a, v) :: l2) →
  (let* it := pre_incr (mkIt (Some a)) in pre_decr it) h
  = Ok (mkIt (if bool_decide (l2 = []) then None else Some a), h)
  ∧ (let* it := pre_decr (mkIt (Some a)) in pre_incr it) h
    = Ok (mkIt (if bool_decide (l1 = []) then None else Some a), h).
Proof.
  intros (Hseg & _). apply seg_mid in Hseg as (Hseg1 & Hn & Hseg2). simpl in *.
  rewrite (bind_ok _ _ _ _ _ (pre_incr_node _ _ _ Hn)).
  rewrite (bind_ok _ _ _ _ _ (pre_decr_node _ _ _ Hn)). simpl. split.
  - destruct l2 as [|[b w] l2]; [done|]. destruct Hseg2 as [Hb _]. simpl in *.
    by rewrite (pre_decr_node _ _ _ Hb).
  - destruct l1 as [|[b w] l1 _] using rev_ind; [done|].
    rewrite last_or_snoc. apply seg_snoc in Hseg1 as [_ Hb]. simpl in *.
    rewrite (pre_incr_node _ _ _ Hb). simpl.
    rewrite bool_decide_eq_false_2; [done|]. by destruct l1.
Qed.

(** X13. [begin() == end()] and [rbegin() == end()] hold exactly when the
    list is empty, so a loop from [begin()] or [rbegin()] to [end()] is
    entered exactly when there is an element. *)
Theorem begin_is_end_iff_empty h (l : List) xs :
  is_list h l xs →
  it_eq (begin l) (end_ l) = empty l
  ∧ it_eq (rbegin l) (end_ l) = empty l
  ∧ it_ne (begin l) (end_ l) = negb (empty l)
  ∧ it_ne (rbegin l) (end_ l) = negb (empty l)
  ∧ (empty l = true ↔ xs = []).
Proof.
  intros Hl. rewrite (empty_is_list _ _ _ Hl). unfold it_ne, it_eq.
  destruct Hl as (_ & _ & Hh & Ht & _). proj. rewrite Hh, Ht.
  destruct xs as [|x xs _] using rev_ind.
  - split_and!; try done.
  - rewrite last_or_snoc, first_or_app. simpl.
    rewrite bool_decide_eq_false_2 by (by destruct xs).
    split_and!; try done; try (by destruct xs).
Qed.

Lemma moved_prefix_snd (mf : T → T) n (r2 : list (loc * T)) :
  (moved_prefix mf n r2).*2 = (mf <$> take n r2.*2) ++ drop n r2.*2.
Proof.
  revert r2. induction n as [|n IH]; intros [|x r2]; simpl; try done.
  by rewrite IH.
Qed.

(** X14. Move-assignment between two distinct lists gives the destination
    the source's values and leaves the source with all its nodes. With
    [moved_from] the state in which the element type's move assignment
    leaves its argument: the source elements that overwrote an element of
    the destination are moved-from, and those that were appended to the
    destination are intact, because [push_back(T &&)] copies its argument. *)
Theorem move_assign_source_values (mf : T → T) h (l r : List) xs ys :
  is_list h l xs → is_list h r ys → xs.*1 ## ys.*1 →
  Z.of_nat (base.size h + (length ys - length xs)) ≤ max_nodes →
  ∃ l' h',
    assign_move mf l r h = Ok (l', h')
    ∧ to_list l' h' = Ok (ys.*2, h')
    ∧ to_list r h'
      = Ok ((mf <$> take (length xs) ys.*2) ++ drop (length xs) ys.*2, h')
    ∧ (base.size h' + (length xs - length ys)
       = base.size h + (length ys - length xs))%nat.
Proof.
  intros Hl Hr Hdisj Hroom.
  destruct (returns_ok _ _ _ _ (assign_move_spec mf _ _ _ _ _ Hl Hr Hdisj) Hroom)
    as (l' & h' & Hrun & new & Hl' & Hr' & Hnew & _ & _ & _ & Hsz).
  exists l', h'. split_and!; [done| | |].
  - rewrite (to_list_spec _ _ _ Hl'). do 2 f_equal.
    rewrite <- (length_fmap snd ys). by apply assign_il_contents.
  - by rewrite (to_list_spec _ _ _ Hr'), moved_prefix_snd.
  - rewrite Hsz. f_equal.
    by rewrite <- (length_fmap snd new), Hnew, length_drop, length_fmap.
Qed.

(** X15. [insert] at [begin()] is [push_front]: it builds the same list
    object in the same store, and the iterator returned is the new
    [begin()]. *)
Theorem insert_begin_is_push_front h (l : List) xs (d : T) :
  is_list h l xs →
  insert (begin l) d l h
  = (let* l' := push_front d l in ret (begin l', l')) h.
Proof.
  intros Hl.
  destruct (decide (Z.of_nat (base.size h) < max_nodes)) as [Hroom|Hfull].
  2:{ by rewrite (insert_full _ _ _ _ Hfull),
        (bind_err _ _ _ _ (push_front_full _ _ _ Hfull)). }
  pose proof (is_list_length _ _ _ Hl) as Hlen.
  destruct (new_spec d h Hroom) as (a & Hfresh & Hnew).
  pose proof Hl as (Hseg' & _).
  pose proof (seg_dead _ _ _ _ _ Hseg' Hfresh) as Hax. clear Hseg'.
  destruct l as [n hd tl]. unfold insert, push_front.
  rewrite (empty_length n hd tl xs) by apply Hl.
  open_list Hl (mkList n hd tl).
  assert (Hcount : wrap64 (Z.of_nat (length xs) + 1) = Z.of_nat (length xs) + 1).
  { rewrite wrap64_small; unfold max_nodes in *; lia. }
  destruct xs as [|t xs]; tidy; split_facts.
  - rewrite bool_decide_eq_true_2 by done. by repeat exec.
  - rewrite bool_decide_eq_false_2 by done. unfold begin, iterator_at. cbn [pHead].
    rewrite it_eq_end_Some, it_ne_end_Some.
    destruct Hseg as [Hfirst Hseg].
    assert (∃ q, last_or (Some t.1) xs = Some q) as [q Hq].
    { destruct xs as [|t' xs _] using rev_ind; tidy; by eexists. }
    rewrite Hq. repeat exec. unfold ret. rewrite Hcount. do 2 f_equal.
    apply map_eq. intros e. heap_cases.
Qed.

(** X16. [pop_back] on a non-empty list removes exactly the last element
    and [pop_front] exactly the first: the other elements keep their nodes
    and values, the node removed is released, and [size()] is one less. *)
Theorem pop_removes_end h (l : List) xs a (v : T) :
  (is_list h l (xs ++ [(a, v)]) →
   ∃ l' h',
     pop_back l h = Ok (l', h')
     ∧ is_list h' l' xs
     ∧ to_list l' h' = Ok (xs.*2, h')
     ∧ size l' = size l - 1
     ∧ h' !! a = None
     ∧ S (base.size h') = base.size h)
  ∧ (is_list h l ((a, v) :: xs) →
     ∃ l' h',
       pop_front l h = Ok (l', h')
       ∧ is_list h' l' xs
       ∧ to_list l' h' = Ok (xs.*2, h')
       ∧ size l' = size l - 1
       ∧ h' !! a = None
       ∧ S (base.size h') = base.size h).
Proof.
  split; intros Hl.
  - destruct (pop_back_spec _ _ _ _ _ Hl) as (l' & h' & Hrun & Hl' & _ & Hsz).
    exists l', h'. split_and!; try done.
    + by apply to_list_spec.
    + rewrite (is_list_size _ _ _ Hl), (is_list_size _ _ _ Hl'), length_app. simpl. lia.
    + destruct (erase_spec _ _ _ _ _ _ Hl) as (h2 & Herase & _ & _ & Hgone & _).
      unfold pop_back in Hrun. destruct Hl as (_ & _ & _ & Ht & _).
      rewrite Ht, last_or_snoc in Hrun. simpl in Hrun.
      rewrite (bind_ok _ _ _ _ _ Herase) in Hrun. unfold ret in Hrun. by simplify_eq.
  - destruct (pop_front_spec _ _ _ _ _ Hl) as (l' & h' & Hrun & Hl' & _ & Hsz).
    exists l', h'. split_and!; try done.
    + by apply to_list_spec.
    + rewrite (is_list_size _ _ _ Hl), (is_list_size _ _ _ Hl'). simpl length. lia.
    + destruct (erase_spec _ _ [] _ _ _ Hl) as (h2 & Herase & _ & _ & Hgone & _).
      unfold pop_front in Hrun. destruct Hl as (_ & _ & Hh & _).
      rewrite Hh in Hrun. simpl in Hrun.
      rewrite (bind_ok _ _ _ _ _ Herase) in Hrun. unfold ret in Hrun. by simplify_eq.
Qed.

(** X17. In every state reached by a sequence of the operations, walking a
    list forward from [begin()] and backward from [rbegin()] both end, visit
    exactly [size()] elements, and the backward walk meets the elements of
    the forward walk in reverse order. *)
Theorem reachable_traversals_agree (mf : T → T) ops w x (l : List) :
  run mf ops init = Ok w → vars w !! x = Some l →
  ∃ vs,
    to_list l (store w) = Ok (vs, store w)
    ∧ to_list_rev l (store w) = Ok (reverse vs, store w)
    ∧ size l = Z.of_nat (length vs)
    ∧ contents w x = Some vs.
Proof.
  intros Hrun Hl.
  destruct (run_repr mf ops _ _ _ repr_init Hrun) as (xss & Hw).
  destruct (repr_lookup _ _ _ _ Hw Hl) as (xs & Hxs & Hlx).
  exists xs.*2. split_and!.
  - by apply to_list_spec.
  - by apply to_list_rev_spec.
  - by rewrite (is_list_size _ _ _ Hlx), length_fmap.
  - by eapply contents_repr.
Qed.

(** *** Accounting of nodes *)

Lemma total_size_app (vs : list List) l :
  total_size (vs ++ [l]) = total_size vs + size l.
Proof.
  induction vs as [|l0 vs IH]; simpl; [lia|]. rewrite IH. lia.
Qed.

Lemma total_size_insert (vs : list List) x l l' :
  vs !! x = Some l →
  total_size (<[x := l']> vs) = total_size vs - size l + size l'.
Proof.
  revert x. induction vs as [|l0 vs IH]; intros [|x] Hx; simplify_eq/=; [lia|].
  rewrite (IH _ Hx). lia.
Qed.

Lemma push_back_counts (d : T) : counts_ok (push_back d).
Proof.
  intros h l xs l' h' Hl Hrun.
  destruct (returns_inv _ _ _ _ _ _ (push_back_returns _ _ _ d Hl) Hrun)
    as (a & _ & Hl' & _ & _ & Hsz).
  rewrite (is_list_size _ _ _ Hl), (is_list_size _ _ _ Hl'), length_app. simpl. lia.
Qed.

Lemma push_front_counts (d : T) : counts_ok (push_front d).
Proof.
  intros h l xs l' h' Hl Hrun.
  destruct (returns_inv _ _ _ _ _ _ (push_front_returns _ _ _ d Hl) Hrun)
    as (a & _ & Hl' & _ & _ & Hsz).
  rewrite (is_list_size _ _ _ Hl), (is_list_size _ _ _ Hl'). simpl length. lia.
Qed.

Lemma pop_back_counts : counts_ok (@pop_back T).
Proof.
  intros h l xs l' h' Hl Hrun. destruct xs as [|[a v] xs _] using rev_ind.
  - rewrite (pop_back_empty _ _ Hl) in Hrun. by simplify_eq.
  - destruct (pop_back_spec _ _ _ _ _ Hl) as (l0 & h0 & Hrun0 & Hl0 & _ & Hsz).
    rewrite Hrun0 in Hrun. simplify_eq.
    rewrite (is_list_size _ _ _ Hl), (is_list_size _ _ _ Hl0), length_app. simpl. lia.
Qed.

Lemma pop_front_counts : counts_ok (@pop_front T).
Proof.
  intros h l xs l' h' Hl Hrun. destruct xs as [|[a v] xs].
  - rewrite (pop_front_empty _ _ Hl) in Hrun. by simplify_eq.
  - destruct (pop_front_spec _ _ _ _ _ Hl) as (l0 & h0 & Hrun0 & Hl0 & _ & Hsz).
    rewrite Hrun0 in Hrun. simplify_eq.
    rewrite (is_list_size _ _ _ Hl), (is_list_size _ _ _ Hl0). simpl length. lia.
Qed.

Lemma clear_counts : counts_ok (@clear T).
Proof.
  intros h l xs l' h' Hl Hrun.
  destruct (clear_spec _ _ _ Hl) as (h0 & Hrun0 & _ & _ & _ & _ & Hsz).
  rewrite Hrun0 in Hrun. simplify_eq.
  rewrite (is_list_size _ _ _ Hl). unfold size. simpl. lia.
Qed.

Lemma insert_at_counts k (d : T) :
  counts_ok (λ l, let* it := advance k (begin l) in
                  let* r := insert it d l in ret (snd r)).
Proof.
  intros h l xs l' h' Hl Hrun.
  rewrite (bind_ok _ _ _ _ _ (advance_begin _ _ _ k Hl)) in Hrun.
  apply bind_inv in Hrun as ([it l0] & h0 & Hrun & Hret). unfold ret in Hret.
  simplify_eq/=.
  pose proof Hl as Hl0. rewrite <- (take_drop k xs) in Hl0.
  destruct (returns_inv _ _ _ _ _ _
              (insert_returns _ _ _ _ (mkIt (first_or None (drop k xs))) d Hl0 eq_refl) Hrun)
    as (a & _ & _ & Hl' & _ & _ & Hsz).
  simpl in Hl'.
  rewrite (is_list_size _ _ _ Hl), (is_list_size _ _ _ Hl').
  rewrite <- (take_drop k xs) at 1. rewrite !length_app. simpl. lia.
Qed.

Lemma erase_at_counts k :
  counts_ok (λ l, let* it := advance k (begin l) in
                  let* r := @erase T it l in ret (snd r)).
Proof.
  intros h l xs l' h' Hl Hrun.
  rewrite (bind_ok _ _ _ _ _ (advance_begin _ _ _ k Hl)) in Hrun.
  destruct (drop k xs) as [|[a v] l2] eqn:Hdrop.
  - change (mkIt (first_or None [])) with (iterator_at None) in Hrun.
    rewrite (bind_ok _ _ _ _ _ (erase_null h l)) in Hrun. unfold ret in Hrun.
    by simplify_eq/=.
  - pose proof Hl as Hl0. rewrite <- (take_drop k xs), Hdrop in Hl0.
    destruct (erase_spec _ _ _ _ _ _ Hl0) as (h0 & Hrun0 & Hl' & _ & _ & _ & Hsz).
    change (mkIt (first_or None ((a, v) :: l2))) with (iterator_at (Some a)) in Hrun.
    rewrite (bind_ok _ _ _ _ _ Hrun0) in Hrun. unfold ret in Hrun. simplify_eq/=.
    pose proof (is_list_size _ _ _ Hl0) as E. pose proof (is_list_size _ _ _ Hl') as E'.
    unfold size in *. rewrite !length_app in *. simpl in *. lia.
Qed.

Lemma assign_il_counts (il : list T) : counts_ok (λ l, assign_il l il).
Proof.
  intros h l xs l' h' Hl Hrun.
  destruct (returns_inv _ _ _ _ _ _ (assign_il_spec _ _ _ il Hl) Hrun)
    as (new & Hl' & _ & _ & _ & _ & Hsz).
  rewrite (is_list_size _ _ _ Hl), (is_list_size _ _ _ Hl').
  rewrite length_app, length_take, overwritten_length. lia.
Qed.

Lemma assign_move_counts (mf : T → T) h (l r : List) xs ys l' h' :
  is_list h l xs → is_list h r ys → xs.*1 ## ys.*1 →
  assign_move mf l r h = Ok (l', h') →
  Z.of_nat (base.size h') + size l = Z.of_nat (base.size h) + size l'.
Proof.
  intros Hl Hr Hdisj Hrun.
  destruct (returns_inv _ _ _ _ _ _ (assign_move_spec mf _ _ _ _ _ Hl Hr Hdisj) Hrun)
    as (new & Hl' & _ & _ & _ & _ & _ & Hsz).
  rewrite (is_list_size _ _ _ Hl), (is_list_size _ _ _ Hl').
  rewrite length_app, length_take, overwritten_length. lia.
Qed.

Lemma member_balanced x (f : List → M T List) w w' (xss : list (list (loc * T))) :
  counts_ok f → repr w xss → balanced w → member x f w = Ok w' → balanced w'.
Proof.
  intros Hf Hw Hbal Hrun. unfold member in Hrun.
  destruct (vars w !! x) as [l|] eqn:Hl; [|done].
  destruct (f l (store w)) as [[l' h']|e] eqn:Hfl; [|done]. simplify_eq.
  destruct (repr_lookup _ _ _ _ Hw Hl) as (xs & Hxs & Hlx).
  pose proof (Hf _ _ _ _ _ Hlx Hfl) as Hcount.
  unfold balanced in *. simpl. rewrite (total_size_insert _ _ _ _ Hl). lia.
Qed.

Lemma construct_balanced (m : M T List) w w' :
  (∀ h l' h', m h = Ok (l', h') →
     Z.of_nat (base.size h') = Z.of_nat (base.size h) + size l') →
  balanced w → construct m w = Ok w' → balanced w'.
Proof.
  intros Hm Hbal Hrun. unfold construct in Hrun.
  destruct (m (store w)) as [[l' h']|e] eqn:Hml; [|done]. simplify_eq.
  unfold balanced in *. simpl. rewrite total_size_app, (Hm _ _ _ Hml). lia.
Qed.

Lemma push_back_all_counts (src : list T) h l' h' :
  push_back_all src (mkList 0 None None) h = Ok (l', h') →
  Z.of_nat (base.size h') = Z.of_nat (base.size h) + size l'.
Proof.
  intros Hrun.
  destruct (returns_inv _ _ _ _ _ _
              (push_back_all_spec src h _ [] (is_list_nil h)) Hrun)
    as (new & _ & _ & Hl' & _ & _ & Hsz).
  simpl in Hl'. rewrite (is_list_size _ _ _ Hl'). lia.
Qed.

Lemma list_fill_counts num (t : T) h l' h' :
  list_fill num t h = Ok (l', h') →
  Z.of_nat (base.size h') = Z.of_nat (base.size h) + size l'.
Proof.
  intros Hrun. unfold list_fill in Hrun.
  destruct (decide (num ≤ INT_MAX)) as [Hle|Hgt].
  - pose proof (fill_loop_spec t num (Z.to_nat (num - 0)) 0 h (mkList 0 None None) []
                  (Z.to_nat num))
      as Hspec.
    destruct (returns_inv _ _ _ _ _ _ (Hspec eq_refl ltac:(unfold INT_MAX; lia) Hle
                ltac:(lia) (is_list_nil h)) Hrun)
      as (new & _ & _ & Hl' & _ & _ & Hsz).
    simpl in Hl'. rewrite (is_list_size _ _ _ Hl'). lia.
  - destruct (fill_loop_overflow t num (Z.to_nat num) 0 (mkList 0 None None) h)
      as [e He]; [unfold INT_MAX; lia|lia|]. congruence.
Qed.

Lemma list_copy_counts h (r : List) ys l' h' :
  is_list h r ys → @list_copy T r h = Ok (l', h') →
  Z.of_nat (base.size h') = Z.of_nat (base.size h) + size l'.
Proof.
  intros Hr Hrun. unfold list_copy in Hrun.
  destruct (returns_inv _ _ _ _ _ _
              (assign_copy_spec h _ r [] ys (is_list_nil h) Hr
                 ltac:(by intros b Hb%elem_of_nil)) Hrun)
    as (new & Hl' & _ & _ & _ & _ & _ & Hsz).
  cbn [overwritten] in Hl'. rewrite take_nil in Hl'. simpl in Hl', Hsz.
  rewrite (is_list_size _ _ _ Hl'). lia.
Qed.

Lemma step_balanced (mf : T → T) o w w' (xss : list (list (loc * T))) :
  repr w xss → balanced w → step mf o w = Ok w' → balanced w'.
Proof.
  intros Hw Hbal Hrun.
  assert (Hone : ∀ x (f : List → M T List),
            counts_ok f → member x f w = Ok w' → balanced w').
  { intros x f Hf Hm. by eapply member_balanced. }
  assert (Htwo : ∀ x y (f : List → List → M T List),
            (∀ h l xs, is_list h l xs → f l l h = Ok (l, h)) →
            (∀ h l r xs ys l' h', is_list h l xs → is_list h r ys → xs.*1 ## ys.*1 →
               f l r h = Ok (l', h') →
               Z.of_nat (base.size h') + size l = Z.of_nat (base.size h) + size l') →
            member2 x y f w = Ok w' → balanced w').
  { intros x y f Hself Hf Hm. unfold member2, member in Hm.
    destruct (vars w !! y) as [r|] eqn:Hr; [|done].
    destruct (vars w !! x) as [l|] eqn:Hl; [|done].
    destruct (f l r (store w)) as [[l' h']|e] eqn:Hfl; [|done]. simplify_eq.
    destruct (repr_lookup _ _ _ _ Hw Hl) as (xs & Hxs & Hlx).
    destruct (repr_lookup _ _ _ _ Hw Hr) as (ys & Hys & Hry).
    unfold balanced in *. simpl. rewrite (total_size_insert _ _ _ _ Hl).
    destruct (decide (x = y)) as [->|Hxy].
    - simplify_eq. rewrite (Hself _ _ _ Hlx) in Hfl. simplify_eq. lia.
    - destruct Hw as (_ & _ & Hdisj).
      pose proof (Hf _ _ _ _ _ _ _ Hlx Hry (Hdisj x y _ _ Hxy Hxs Hys) Hfl). lia. }
  assert (Hswap : ∀ x y (f : List → List → List * List),
            (∀ l r, f l r = (r, l)) → exchange x y f w = Ok w' → balanced w').
  { intros x y f Hf Hm. unfold exchange in Hm.
    destruct (vars w !! x) as [l|] eqn:Hl; [|done].
    destruct (vars w !! y) as [r|] eqn:Hr; [|done].
    rewrite Hf in Hm. simplify_eq/=. unfold balanced in *. simpl.
    pose proof (lookup_lt_Some _ _ _ Hl) as Hx.
    destruct (decide (x = y)) as [->|Hxy].
    - simplify_eq. rewrite list_insert_insert_eq, (total_size_insert _ _ _ _ Hl). lia.
    - rewrite (total_size_insert _ y r l), (total_size_insert _ _ _ _ Hl).
      + lia.
      + by rewrite list_lookup_insert_ne. }
  destruct o; cbn [step] in *.
  - eapply construct_balanced; [|done|exact Hrun].
    intros h l' h' Hret. unfold ret in Hret. simplify_eq. unfold size. simpl. lia.
  - eapply construct_balanced; [|done|exact Hrun]. apply list_fill_counts.
  - eapply construct_balanced; [|done|exact Hrun]. apply push_back_all_counts.
  - eapply construct_balanced; [|done|exact Hrun]. apply push_back_all_counts.
  - destruct (vars w !! y) as [r|] eqn:Hr; [|done].
    destruct (repr_lookup _ _ _ _ Hw Hr) as (ys & Hys & Hry).
    unfold construct in Hrun.
    destruct (list_copy r (store w)) as [[l' h']|e] eqn:Hc; [|done]. simplify_eq.
    unfold balanced in *. simpl.
    rewrite total_size_app, (list_copy_counts _ _ _ _ _ Hry Hc). lia.
  - destruct (vars w !! y) as [r|] eqn:Hr; [|done].
    rewrite list_move_eq in Hrun. simplify_eq/=. unfold balanced in *. simpl.
    rewrite total_size_app, (total_size_insert _ _ _ _ Hr). unfold size at 2. simpl. lia.
  - apply (Hone _ _ (push_front_counts _) Hrun).
  - apply (Hone _ _ (push_front_counts _) Hrun).
  - apply (Hone _ _ (push_back_counts _) Hrun).
  - apply (Hone _ _ (push_back_counts _) Hrun).
  - apply (Hone _ _ pop_front_counts Hrun).
  - apply (Hone _ _ pop_back_counts Hrun).
  - apply (Hone _ _ (insert_at_counts _ _) Hrun).
  - apply (Hone _ _ (insert_at_counts _ _) Hrun).
  - apply (Hone _ _ (erase_at_counts _) Hrun).
  - apply (Hone _ _ clear_counts Hrun).
  - eapply (Htwo x y assign_copy); [| |exact Hrun].
    + intros h l xs. apply assign_copy_self.
    + intros h l r xs ys l' h' Hl Hr Hd Hc. rewrite assign_copy_as_move in Hc.
      by eapply assign_move_counts.
  - eapply (Htwo x y (assign_move mf)); [| |exact Hrun].
    + intros h l xs. apply assign_move_self.
    + intros h l r xs ys l' h'. apply assign_move_counts.
  - apply (Hone _ _ (assign_il_counts _) Hrun).
  - apply (Hswap _ _ _ swap_eq Hrun).
  - apply (Hswap _ _ _ swap_free_eq Hrun).
Qed.

Lemma run_balanced (mf : T → T) ops : ∀ w w' (xss : list (list (loc * T))),
  repr w xss → balanced w → run mf ops w = Ok w' → balanced w'.
Proof.
  induction ops as [|o ops IH]; intros w w' xss Hw Hbal Hrun; simpl in Hrun.
  - by simplify_eq.
  - destruct (step mf o w) as [w1|e] eqn:Hstep; [|done].
    destruct (step_repr _ _ _ _ _ Hw Hstep) as (xss1 & Hw1 & _).
    eapply IH; [exact Hw1| |exact Hrun].
    exact (step_balanced mf o w w1 xss Hw Hbal Hstep).
Qed.

(** X18. In every state reached by a sequence of the operations, the number
    of live nodes is the sum of [size()] over the list objects: no node is
    leaked and none is counted twice. *)
Theorem reachable_store_balanced (mf : T → T) ops w :
  run mf ops init = Ok w →
  Z.of_nat (base.size (store w)) = total_size (vars w).
Proof.
  intros Hrun. eapply (run_balanced mf ops init w []); [apply repr_init|done|done].
Qed.

(** *** The end of a scope *)

(** The last object of a program and the objects before it. *)
Lemma repr_unsnoc h (vs : list List) l (xss' : list (list (loc * T))) :
  repr (mkWorld h (vs ++ [l])) xss' →
  ∃ xss xs,
    xss' = xss ++ [xs] ∧ is_list h l xs ∧ repr (mkWorld h vs) xss
    ∧ ∀ j ys, xss !! j = Some ys → xs.*1 ## ys.*1.
Proof.
  intros (Hlen & Hall & Hdisj). simpl in *. rewrite length_app in Hlen. simpl in Hlen.
  destruct xss' as [|xs xss _] using rev_ind; [simpl in Hlen; lia|].
  rewrite length_app in Hlen. simpl in Hlen.
  assert (Hlen' : length vs = length xss) by lia.
  exists xss, xs. split_and!; [done| | |].
  - apply (Hall (length vs)).
    + by rewrite lookup_app_r, Nat.sub_diag by lia.
    + by rewrite Hlen', lookup_app_r, Nat.sub_diag by lia.
  - split_and!; simpl; [done| |].
    + intros i li zs Hi Hzs. apply (Hall i); by apply lookup_app_l_Some.
    + intros i j zs1 zs2 Hij H1 H2. apply (Hdisj i j); [done|by apply lookup_app_l_Some..].
  - intros j ys Hj. apply (Hdisj (length xss) j).
    + apply lookup_lt_Some in Hj. lia.
    + by rewrite lookup_app_r, Nat.sub_diag by lia.
    + by apply lookup_app_l_Some.
Qed.

(** The objects of a program are not affected by writes to other nodes. *)
Lemma repr_frame ps h h' (vs : list List) (xss : list (list (loc * T))) :
  repr (mkWorld h vs) xss → frame ps h h' →
  (∀ j ys, xss !! j = Some ys → ps ## ys.*1) →
  repr (mkWorld h' vs) xss.
Proof.
  intros (Hlen & Hall & Hdisj) Hfr Hps. split_and!; simpl in *; [done| |done].
  intros i li zs Hi Hzs. eapply is_list_frame; [by eapply Hall|exact Hfr|by eapply Hps].
Qed.

Lemma destroy_all_spec (vs : list List) : ∀ h (xss : list (list (loc * T))),
  repr (mkWorld h vs) xss → Z.of_nat (base.size h) = total_size vs →
  destroy_all (reverse vs) h = Ok (tt, ∅).
Proof.
  induction vs as [|l vs IH] using rev_ind; intros h xss Hw Hsz.
  - simpl in *. assert (h = ∅) as -> by (apply map_size_empty_inv; lia). done.
  - destruct (repr_unsnoc _ _ _ _ Hw) as (xss0 & xs & -> & Hl & Hw0 & Hdisj).
    rewrite total_size_app, (is_list_size _ _ _ Hl) in Hsz.
    destruct (clear_spec _ _ _ Hl) as (h1 & Hrun & _ & Hfr & _ & _ & Hsz1).
    rewrite reverse_app. simpl. unfold destroy. rewrite (bind_ok _ _ _ _ _ Hrun).
    eapply IH; [by eapply repr_frame|lia].
Qed.

(** X19. After any sequence of the operations that returns, the destructors
    of the list objects, run in the reverse order of construction, all
    return and leave no live node: every node allocated is released, exactly
    once. *)
Theorem exit_scope_frees_everything (mf : T → T) ops w :
  run mf ops init = Ok w → exit_scope w = Ok (tt, ∅).
Proof.
  intros Hrun.
  destruct (run_repr mf ops _ _ _ repr_init Hrun) as (xss & Hw).
  unfold exit_scope. destruct w as [h vs]. eapply destroy_all_spec; [exact Hw|].
  exact (run_balanced mf ops init _ [] repr_init eq_refl Hrun).
Qed.

(** *** Positions reached by increments *)

(** X20. [insert] at the iterator obtained from [begin()] by [k] increments
    puts the value at index [k], the elements from index [k] on moving one
    place back; with [k] at or past the length the iterator is the end
    iterator and the value is appended. *)
Theorem insert_at_index h (l : List) xs k (d : T) :
  is_list h l xs → Z.of_nat (base.size h) < max_nodes →
  ∃ a l' h',
    (let* it := advance k (begin l) in insert it d l) h
    = Ok ((iterator_at (Some a), l'), h')
    ∧ h !! a = None
    ∧ is_list h' l' (take k xs ++ (a, d) :: drop k xs)
    ∧ to_list l' h' = Ok (take k xs.*2 ++ d :: drop k xs.*2, h')
    ∧ size l' = size l + 1.
Proof.
  intros Hl Hroom. pose proof Hl as Hl0. rewrite <- (take_drop k xs) in Hl0.
  destruct (insert_spec _ _ _ _ (mkIt (first_or None (drop k xs))) d Hl0 eq_refl Hroom)
    as (a & l' & h' & Hrun & Ha & Hl' & _).
  exists a, l', h'. split_and!; try done.
  - by rewrite (bind_ok _ _ _ _ _ (advance_begin _ _ _ k Hl)).
  - rewrite (to_list_spec _ _ _ Hl'). by rewrite fmap_app, fmap_cons, fmap_take, fmap_drop.
  - rewrite (is_list_size _ _ _ Hl), (is_list_size _ _ _ Hl').
    rewrite <- (take_drop k xs) at 3. rewrite !length_app. simpl. lia.
Qed.

(** X21. [erase] at the iterator obtained from [begin()] by [k] increments
    removes the element at index [k] and returns the iterator on the element
    that followed it; with [k] at or past the length the iterator is the end
    iterator and the list and the store are left as they were. *)
Theorem erase_at_index h (l : List) xs k :
  is_list h l xs →
  ∃ l' h',
    (let* it := advance k (begin l) in erase it l) h
    = Ok ((iterator_at (first_or None (drop (S k) xs)), l'), h')
    ∧ is_list h' l' (take k xs ++ drop (S k) xs)
    ∧ to_list l' h' = Ok (take k xs.*2 ++ drop (S k) xs.*2, h')
    ∧ ((length xs ≤ k)%nat → l' = l ∧ h' = h)
    ∧ ((k < length xs)%nat →
       size l' = size l - 1 ∧ S (base.size h') = base.size h).
Proof.
  intros Hl. rewrite (bind_ok _ _ _ _ _ (advance_begin _ _ _ k Hl)).
  destruct (drop k xs) as [|[a v] l2] eqn:Hdrop.
  - assert (Hk : (length xs ≤ k)%nat).
    { apply (f_equal length) in Hdrop. rewrite length_drop in Hdrop. simpl in Hdrop. lia. }
    rewrite (drop_ge xs (S k)), (take_ge xs k), app_nil_r by lia.
    rewrite (drop_ge xs.*2 (S k)), (take_ge xs.*2 k), app_nil_r by (rewrite length_fmap; lia).
    exists l, h. split_and!; [done|done|by apply to_list_spec| done|lia].
  - assert (Hk : (k < length xs)%nat).
    { apply (f_equal length) in Hdrop. rewrite length_drop in Hdrop. simpl in Hdrop. lia. }
    assert (HS : drop (S k) xs = l2).
    { rewrite <- (Nat.add_1_l k), Nat.add_comm, <- drop_drop, Hdrop. done. }
    rewrite HS. pose proof Hl as Hl0. rewrite <- (take_drop k xs), Hdrop in Hl0.
    destruct (erase_spec _ _ _ _ _ _ Hl0) as (h' & Hrun & Hl' & _ & _ & _ & Hsz).
    eexists _, h'. split_and!; [exact Hrun|exact Hl'| |lia|].
    + rewrite (to_list_spec _ _ _ Hl'). by rewrite fmap_app, fmap_take, <- HS, fmap_drop.
    + intros _. split; [|done]. unfold size. simpl. done.
Qed.

(** X22. Dereferencing the iterator obtained from [begin()] by [k]
    increments reads the element at index [k]; with [k] at or past the
    length the iterator is the end iterator and dereferencing it throws. *)
Theorem element_by_increments h (l : List) xs k :
  is_list h l xs →
  (∀ v, xs.*2 !! k = Some v →
     (let* it := advance k (begin l) in let* r := deref it in read_ref r) h
     = Ok (v, h))
  ∧ ((length xs ≤ k)%nat →
     (let* it := advance k (begin l) in deref it) h = Err (Throw empty_list_msg)).
Proof.
  intros Hl. rewrite !(bind_ok _ _ _ _ _ (advance_begin _ _ _ k Hl)). split.
  - intros v Hv. rewrite list_lookup_fmap in Hv.
    destruct (xs !! k) as [[a v']|] eqn:Hk; simplify_eq/=.
    rewrite (drop_S _ _ _ Hk). simpl.
    destruct Hl as (Hseg & _).
    destruct (seg_lookup _ _ _ _ a v Hseg) as (n & Hn & Hd).
    { by eapply list_elem_of_lookup_2. }
    unfold deref. simpl. rewrite (bind_ok _ _ _ _ _ (ret_ok _ _)).
    rewrite <- Hd. apply (get_data_ok _ _ _ Hn).
  - intros Hk. by rewrite drop_ge.
Qed.

(** X23. Assigning through a dereferenced iterator on a node of a list
    replaces that element and nothing else: the other elements, the nodes,
    the links and [size()] are unchanged. *)
Theorem write_through_iterator h (l : List) l1 a v l2 (d : T) :
  is_list h l (l1 ++ (a, v) :: l2) →
  ∃ h',
    (let* r := deref (mkIt (Some a)) in write_ref r d) h = Ok (tt, h')
    ∧ is_list h' l (l1 ++ (a, d) :: l2)
    ∧ to_list l h' = Ok (l1.*2 ++ d :: l2.*2, h')
    ∧ (∀ e, e ≠ a → h' !! e = h !! e)
    ∧ base.size h' = base.size h.
Proof.
  intros Hl.
  destruct (write_ref_spec _ _ _ _ _ _ d Hl) as (h' & Hrun & Hl' & Hsame & _ & Hsz).
  exists h'. split_and!; try done.
  rewrite (to_list_spec _ _ _ Hl'). by rewrite fmap_app, fmap_cons.
Qed.

(** *** An iterator into another list *)

(** [erase] of a node with both neighbours reads no member of the list
    object but the count. *)
Lemma erase_interior_record h (l r : List) l1 b (w : T) a v c u l2 :
  is_list h r ((l1 ++ [(b, w)]) ++ (a, v) :: (c, u) :: l2) →
  ∃ h',
    erase (iterator_at (Some a)) r h
    = Ok ((iterator_at (Some c),
           mkList (wrap64 (numElements r - 1)) (pHead r) (pTail r)), h')
    ∧ erase (iterator_at (Some a)) l h
      = Ok ((iterator_at (Some c),
             mkList (wrap64 (numElements l - 1)) (pHead l) (pTail l)), h').
Proof.
  intros Hr. destruct Hr as (Hseg & Hnd & _).
  apply seg_mid in Hseg as (Hs1 & Ha & Hs2).
  apply seg_snoc in Hs1 as [Hs1 Hb]. destruct Hs2 as [Hc Hs2].
  tidy. split_facts.
  eexists. split.
  - unfold erase. proj. repeat exec. reflexivity.
  - unfold erase. proj. repeat exec. reflexivity.
Qed.

(** X24. [erase] does not check that the iterator names a node of the list
    it is called on. Called with an iterator on a node of another list that
    has both a predecessor and a successor, it returns normally: the node is
    unlinked from the other list and released, but it is the count of the
    list [erase] was called on that goes down (wrapping below zero), so that
    afterwards [size()] is wrong for both lists. *)
Theorem erase_foreign_interior h (l r : List) xs l1 b (w : T) a v c u l2 :
  is_list h l xs →
  is_list h r ((l1 ++ [(b, w)]) ++ (a, v) :: (c, u) :: l2) →
  xs.*1 ## ((l1 ++ [(b, w)]) ++ (a, v) :: (c, u) :: l2).*1 →
  ∃ l' h',
    erase (iterator_at (Some a)) l h = Ok ((iterator_at (Some c), l'), h')
    ∧ pHead l' = pHead l ∧ pTail l' = pTail l
    ∧ size l' = wrap64 (size l - 1)
    ∧ to_list l' h' = Ok (xs.*2, h')
    ∧ h' !! a = None
    ∧ to_list r h' = Ok (l1.*2 ++ w :: u :: l2.*2, h')
    ∧ size r = Z.of_nat (length (l1.*2 ++ w :: u :: l2.*2)) + 1.
Proof.
  intros Hl Hr Hdisj.
  destruct (erase_interior_record h l r _ _ _ _ _ _ _ _ Hr) as (h' & Hrun_r & Hrun_l).
  destruct (erase_spec _ _ _ _ _ _ Hr) as (h2 & Hrun2 & Hr' & Hfr & Hgone & _).
  rewrite Hrun_r in Hrun2. simplify_eq.
  exists (mkList (wrap64 (numElements l - 1)) (pHead l) (pTail l)), h2.
  split_and!; try done.
  - change (to_list l h2 = Ok (xs.*2, h2)). apply to_list_spec.
    eapply is_list_frame; [exact Hl|exact Hfr|]. by apply addrs_disjoint_sym.
  - pose proof (to_list_spec _ _ _ Hr') as Hto.
    destruct Hr as (_ & _ & Hh & _).
    unfold to_list, begin in *. simpl in Hto. rewrite Hh.
    rewrite <- !app_assoc in *. rewrite !first_or_app in *. simpl in *.
    rewrite Hto. by rewrite !fmap_app.
  - rewrite (is_list_size _ _ _ Hr). rewrite !length_app, !length_fmap. simpl.
    rewrite !length_fmap. lia.
Qed.

(** *** The range constructor on the iterators of a list *)

Lemma range_loop_spec r2 : ∀ h (l r : List) xs r1 r3 fuel,
  is_list h l xs → is_list h r (r1 ++ r2 ++ r3) →
  xs.*1 ## (r1 ++ r2 ++ r3).*1 → (length r2 < fuel)%nat →
  returns (length r2)
    (range_loop fuel (mkIt (first_or None (r2 ++ r3))) (mkIt (first_or None r3)) l) h
    (λ l' h',
      ∃ new,
        new.*2 = r2.*2
        ∧ (∀ b, b ∈ new.*1 → h !! b = None)
        ∧ is_list h' l' (xs ++ new)
        ∧ frame xs.*1 h h'
        ∧ (∀ b, is_Some (h !! b) → is_Some (h' !! b))
        ∧ base.size h' = (base.size h + length new)%nat).
Proof.
  induction r2 as [|[c v] r2 IH]; intros h l r xs r1 r3 fuel Hl Hr Hdisj Hfuel.
  - destruct fuel; [simpl in Hfuel; lia|].
    assert (Hstop : it_ne (mkIt (first_or None r3)) (mkIt (first_or None r3)) = false).
    { unfold it_ne, ptr_eqb. by rewrite bool_decide_eq_true_2. }
    cbn [range_loop app]. rewrite Hstop.
    eapply returns_intro; [reflexivity|]. exists []. rewrite app_nil_r.
    split_and!; try done; try (simpl; lia); try apply frame_refl.
    by intros b Hb%elem_of_nil.
  - destruct fuel as [|fuel]; [simpl in Hfuel; lia|]. simpl in Hfuel.
    pose proof Hr as (Hsr & Hndr & _). apply seg_mid in Hsr as (_ & Hc & _).
    cbn [fst snd] in Hc.
    assert (Hcx : c ∉ xs.*1).
    { intros Hin. apply (Hdisj c Hin). rewrite fmap_app, elem_of_app. right. set_solver. }
    assert (Hgo : it_ne (mkIt (Some c)) (mkIt (first_or None r3)) = true).
    { unfold it_ne, ptr_eqb. rewrite bool_decide_eq_false_2; [done|]. simpl.
      destruct r3 as [|[e u] r3]; [done|]. simpl. intros [= ->].
      rewrite fmap_app in Hndr. apply NoDup_app in Hndr as (_ & _ & Hndr).
      simpl in Hndr. apply NoDup_cons in Hndr as [Hndr _]. apply Hndr.
      rewrite fmap_app. set_solver. }
    cbn [range_loop first_or fst app]. rewrite Hgo.
    unfold deref, read_ref. proj.
    eapply returns_step; [apply ret_ok|done|].
    eapply returns_step; [by eapply get_data_ok|done|]. proj.
    eapply (returns_bind 1 (length r2)); [by eapply push_back_returns|simpl; lia|].
    intros l' h' (a & Ha & Hl' & Hfr & Hlive & Hsz). split; [|simpl; lia].
    assert (Hr' : is_list h' r ((r1 ++ [(c, v)]) ++ r2 ++ r3)).
    { rewrite <- app_assoc. eapply is_list_frame; [exact Hr|exact Hfr|done]. }
    assert (Hc' : h' !! c = h !! c) by (apply Hfr; [done|by eexists]).
    rewrite Hc in Hc'.
    eapply returns_step; [apply (post_incr_node _ _ _ Hc')|done|]. proj.
    assert (Har : a ∉ (r1 ++ (c, v) :: r2 ++ r3).*1).
    { destruct Hr as (Hs & _). by eapply seg_dead. }
    pose proof (IH h' l' r (xs ++ [(a, v)]) (r1 ++ [(c, v)]) r3 fuel Hl' Hr') as Hrec.
    eapply returns_mono; [apply Hrec; [|lia]|]; clear Hrec.
    { rewrite <- app_assoc. simpl. intros e He. rewrite fmap_app in He.
      apply elem_of_app in He as [He|He]; [by apply Hdisj|].
      apply list_elem_of_singleton in He. by subst. }
    intros l'' h'' (new & Hnew & Hdead & Hl'' & Hfr' & Hlive' & Hsz').
    exists ((a, v) :: new). rewrite <- app_assoc in Hl''. split_and!; try done.
    + simpl. by f_equal.
    + intros e He. simpl in He. apply elem_of_cons in He as [->|He]; [done|].
      destruct (h !! e) as [ne|] eqn:Hne; [|done].
      destruct (Hlive e) as [ne' Hne']; [by eexists|].
      rewrite (Hdead e He) in Hne'. done.
    + eapply frame_trans; [exact Hfr|exact Hfr'|].
      intros e He. rewrite fmap_app in He. apply elem_of_app in He as [He|He]; [by left|].
      apply list_elem_of_singleton in He. subst. by right.
    + auto.
    + simpl. lia.
Qed.

(** X25. The range constructor called with two iterators of a list, the
    second reached from the first by increments, builds a list with copies
    of the elements from the first iterator up to, not including, the
    second, on nodes that were not in use; the source list is left as it
    was. With [begin()] and [end()] the result is a copy of the whole
    list. *)
Theorem range_constructor_copies_range h (r : List) r1 r2 r3 :
  is_list h r (r1 ++ r2 ++ r3) →
  Z.of_nat (base.size h + length r2) ≤ max_nodes →
  ∃ l h' new,
    list_range_iter (mkIt (first_or None (r2 ++ r3))) (mkIt (first_or None r3)) h
    = Ok (l, h')
    ∧ is_list h' l new
    ∧ new.*2 = r2.*2
    ∧ to_list l h' = Ok (r2.*2, h')
    ∧ (∀ b, b ∈ new.*1 → h !! b = None)
    ∧ is_list h' r (r1 ++ r2 ++ r3)
    ∧ (∀ b, is_Some (h !! b) → h' !! b = h !! b)
    ∧ (r1 = [] → r3 = [] →
       list_range_iter (begin r) (end_ r) h = Ok (l, h')).
Proof.
  intros Hr Hroom.
  assert (Hlen : (length r2 < S (base.size h))%nat).
  { pose proof (is_list_length _ _ _ Hr) as Hle. rewrite !length_app in Hle. lia. }
  pose proof (range_loop_spec r2 h (mkList 0 None None) r [] r1 r3 (S (base.size h))
                (is_list_nil h) Hr ltac:(by intros b Hb%elem_of_nil) Hlen) as Hspec.
  destruct (returns_ok _ _ _ _ Hspec Hroom)
    as (l & h' & Hrun & new & Hvals & Hdead & Hl & Hfr & _ & Hsz).
  simpl in Hl. exists l, h', new.
  assert (Hall : ∀ b, is_Some (h !! b) → h' !! b = h !! b).
  { intros b Hb. apply Hfr; [apply not_elem_of_nil|done]. }
  split_and!; try done.
  - by rewrite (to_list_spec _ _ _ Hl), Hvals.
  - eapply is_list_same; [exact Hr|]. intros e He. apply Hall. by eapply is_list_live.
  - intros -> ->. destruct Hr as (_ & _ & Hh & _). unfold begin, end_, iterator_at.
    rewrite Hh. simpl. by rewrite app_nil_r in *.
Qed.

Lemma range_loop_overrun r2 : ∀ h (l r : List) xs r1 fuel c,
  is_list h l xs → is_list h r (r1 ++ r2) →
  xs.*1 ## (r1 ++ r2).*1 → (length r2 < fuel)%nat → c ∉ r2.*1 →
  Z.of_nat (base.size h + length r2) ≤ max_nodes →
  range_loop fuel (mkIt (first_or None r2)) (mkIt (Some c)) l h
  = Err (Throw empty_list_msg).
Proof.
  induction r2 as [|[c0 v] r2 IH]; intros h l r xs r1 fuel c Hl Hr Hdisj Hfuel Hc Hroom.
  - destruct fuel; [simpl in Hfuel; lia|]. done.
  - destruct fuel as [|fuel]; [simpl in Hfuel; lia|]. simpl in Hfuel, Hroom.
    pose proof Hr as (Hsr & _). apply seg_mid in Hsr as (_ & Hc0 & _).
    cbn [fst snd] in Hc0.
    assert (Hc0x : c0 ∉ xs.*1).
    { intros Hin. apply (Hdisj c0 Hin). rewrite fmap_app, elem_of_app. right. set_solver. }
    assert (Hgo : it_ne (mkIt (Some c0)) (mkIt (Some c)) = true).
    { unfold it_ne, ptr_eqb. rewrite bool_decide_eq_false_2; [done|]. simpl.
      intros [= ->]. apply Hc. set_solver. }
    cbn [range_loop first_or fst]. rewrite Hgo.
    unfold deref, read_ref. proj.
    rewrite (bind_ok _ _ _ _ _ (ret_ok _ _)).
    rewrite (bind_ok _ _ _ _ _ (get_data_ok _ _ _ Hc0)). proj.
    destruct (push_back_spec _ _ _ v Hl) as (a & l' & h' & Hrun & Ha & Hl' & Hfr & _ & Hsz);
      [lia|].
    rewrite (bind_ok _ _ _ _ _ Hrun).
    assert (Hr' : is_list h' r ((r1 ++ [(c0, v)]) ++ r2)).
    { rewrite <- app_assoc. eapply is_list_frame; [exact Hr|exact Hfr|done]. }
    assert (Hc' : h' !! c0 = h !! c0) by (apply Hfr; [done|by eexists]).
    rewrite Hc0 in Hc'.
    rewrite (bind_ok _ _ _ _ _ (post_incr_node _ _ _ Hc')). proj.
    assert (Har : a ∉ (r1 ++ (c0, v) :: r2).*1).
    { destruct Hr as (Hs & _). by eapply seg_dead. }
    eapply (IH h' l' r (xs ++ [(a, v)]) (r1 ++ [(c0, v)])); try done.
    + rewrite <- app_assoc. simpl. intros e He. rewrite fmap_app in He.
      apply elem_of_app in He as [He|He]; [by apply Hdisj|].
      apply list_elem_of_singleton in He. by subst.
    + lia.
    + intros Hin. apply Hc. set_solver.
    + rewrite Hsz. lia.
Qed.

(** X26. The range constructor called with an iterator of a list and a
    second, non-null iterator that is not reached from the first by
    increments does not build a list: it copies up to the tail, then
    dereferences the end iterator and throws. *)
Theorem range_constructor_overrun h (r : List) r1 r2 c :
  is_list h r (r1 ++ r2) → c ∉ r2.*1 →
  Z.of_nat (base.size h + length r2) ≤ max_nodes →
  list_range_iter (mkIt (first_or None r2)) (mkIt (Some c)) h
  = Err (Throw empty_list_msg).
Proof.
  intros Hr Hc Hroom.
  assert (Hlen : (length r2 < S (base.size h))%nat).
  { pose proof (is_list_length _ _ _ Hr) as Hle. rewrite !length_app in Hle. lia. }
  exact (range_loop_overrun r2 h (mkList 0 None None) r [] r1 (S (base.size h)) c
           (is_list_nil h) Hr ltac:(by intros b Hb%elem_of_nil) Hlen Hc Hroom).
Qed.

(** X27. Copy-assignment between two distinct lists keeps the nodes of the
    destination that it can use: the first nodes of the destination, as many
    as the source has elements, stay in place with the source's values, so
    iterators on them stay valid; only the elements the destination lacks
    get new nodes, and only the nodes it has in excess are released. *)
Theorem copy_assign_reuses_nodes h (l r : List) xs ys :
  is_list h l xs → is_list h r ys → xs.*1 ## ys.*1 →
  Z.of_nat (base.size h + (length ys - length xs)) ≤ max_nodes →
  ∃ l' h' zs added,
    assign_copy l r h = Ok (l', h')
    ∧ is_list h' l' zs
    ∧ zs.*2 = ys.*2
    ∧ zs.*1 = take (length ys) xs.*1 ++ added
    ∧ length added = (length ys - length xs)%nat
    ∧ (∀ b, b ∈ added → h !! b = None)
    ∧ (∀ b, b ∈ drop (length ys) xs.*1 → h' !! b = None)
    ∧ (base.size h' + (length xs - length ys)
       = base.size h + (length ys - length xs))%nat.
Proof.
  intros Hl Hr Hdisj Hroom.
  destruct (returns_ok _ _ _ _ (assign_copy_spec _ _ _ _ _ Hl Hr Hdisj) Hroom)
    as (l' & h' & Hrun & new & Hl' & _ & Hnew & Hdead & Hrel & _ & Hsz).
  assert (Hlen : length new = (length ys - length xs)%nat).
  { by rewrite <- (length_fmap snd new), Hnew, length_drop, length_fmap. }
  exists l', h', (take (length ys) (overwritten xs ys.*2) ++ new), new.*1.
  split_and!; try done.
  - rewrite <- (length_fmap snd ys). by apply assign_il_contents.
  - rewrite <- (length_fmap snd ys). apply assign_il_nodes.
  - by rewrite length_fmap.
  - lia.
Qed.

End further.

(** ** The statements on the sample data *)

Ltac evaluate :=
  vm_compute; repeat split;
  try discriminate;
  try (apply (bool_decide_unpack _); vm_compute; exact I).

Lemma nines_is_list : is_list sample_store nines nines_nodes.
Proof. evaluate. Qed.

Lemma digits_is_list : is_list sample_store digits digits_nodes.
Proof. evaluate. Qed.

Lemma sample_disjoint : nines_nodes.*1 ## digits_nodes.*1.
Proof. unfold nines_nodes, digits_nodes. simpl. set_solver. Qed.

Lemma sample_repr : repr sample_world [nines_nodes; digits_nodes].
Proof.
  split; [done|]. split.
  - intros [|[|i]] l xs Hl Hxs; simplify_eq/=.
    + apply nines_is_list.
    + apply digits_is_list.
  - intros [|[|i]] [|[|j]] xs ys Hij Hxs Hys; simplify_eq/=.
    + apply sample_disjoint.
    + apply addrs_disjoint_sym, sample_disjoint.
Qed.

(** C1, as first stated, fails. Move-assignment from a non-empty list does
    not empty it: after
    [a = std::move(b)] with [a = [9, 9]] and [b = [1, 2, 3]], [a] holds
    [[1, 2, 3]] and [b] still has three elements, a head and a tail. *)
Lemma move_assign_keeps_source :
  ∃ w l,
    run id [ConstructIl [9; 9]; ConstructIl [1; 2; 3]; AssignMove 0 1] init = Ok w
    ∧ contents w 0 = Some [1; 2; 3]
    ∧ vars w !! 1%nat = Some l
    ∧ size l = 3
    ∧ empty l = false
    ∧ pHead l ≠ None
    ∧ pTail l ≠ None
    ∧ to_list l (store w) = Ok ([1; 2; 3], store w).
Proof.
  eexists _, _.
  split_and!; try (vm_compute; reflexivity); vm_compute; discriminate.
Qed.

(** C1 on the sample store: moving [[1, 2, 3]] into a new list and onto
    [[9, 9]]. *)
Lemma move_transfers_elements_witness :
  is_list sample_store nines nines_nodes
  ∧ is_list sample_store digits digits_nodes
  ∧ nines_nodes.*1 ## digits_nodes.*1
  ∧ to_list (fst (list_move digits)) sample_store = Ok ([1; 2; 3], sample_store)
  ∧ empty (snd (list_move digits)) = true
  ∧ ∃ l' h',
      assign_move id nines digits sample_store = Ok (l', h')
      ∧ to_list l' h' = Ok ([1; 2; 3], h')
      ∧ size l' = 3.
Proof.
  destruct (move_transfers_elements id _ _ _ _ _
              nines_is_list digits_is_list sample_disjoint)
    as [(_ & Hto & _ & _ & _ & Hemp) Hassign].
  destruct Hassign as (l' & h' & ys' & Hrun & Hto' & Hsz & _); [evaluate|].
  split_and!;
    [apply nines_is_list|apply digits_is_list|apply sample_disjoint
    |exact Hto|exact Hemp|].
  by exists l', h'.
Defined.

(** C2 on the sample store: erasing the middle node of [[1, 2, 3]]. *)
Lemma erase_unlinks_node_witness :
  is_list sample_store digits
    ([(3%positive, 1)] ++ (4%positive, 2) :: [(5%positive, 3)])
  ∧ ∃ l' h',
      erase (iterator_at (Some 4%positive)) digits sample_store
      = Ok ((iterator_at (Some 5%positive), l'), h')
      ∧ is_list h' l' [(3%positive, 1); (5%positive, 3)]
      ∧ h' !! 4%positive = None.
Proof.
  split; [apply digits_is_list|].
  destruct (erase_unlinks_node sample_store digits
              [(3%positive, 1)] 4%positive 2 [(5%positive, 3)] digits_is_list)
    as (_ & (l' & h' & Hrun & Hl' & Ha & _) & _).
  by exists l', h'.
Defined.

(** C3 on the sample world: copy-assigning [[1, 2, 3]] onto [[9, 9]]. *)
Lemma copy_assign_independent_witness :
  repr sample_world [nines_nodes; digits_nodes]
  ∧ ∃ w1,
      step id (AssignCopy 0 1) sample_world = Ok w1
      ∧ contents w1 0 = Some [1; 2; 3]
      ∧ contents w1 1 = Some [1; 2; 3]
      ∧ ∀ o w2, step id o w1 = Ok w2 →
          (1%nat ∉ targets o → contents w2 1 = Some [1; 2; 3])
          ∧ (0%nat ∉ targets o → contents w2 0 = Some [1; 2; 3]).
Proof.
  split; [apply sample_repr|].
  destruct (copy_assign_independent id sample_world [nines_nodes; digits_nodes]
              0 1 nines_nodes digits_nodes sample_repr)
    as (w1 & xss1 & xs' & Hstep & _ & _ & _ & _ & _ & _ & _ & Hx & Hy & Hafter);
    [done|done|done|evaluate|].
  exists w1. split_and!; done.
Defined.

(** C4 on the sample store: inserting 7 before the middle node of
    [[1, 2, 3]]. *)
Lemma insert_before_position_witness :
  is_list sample_store digits
    ([(3%positive, 1)] ++ [(4%positive, 2); (5%positive, 3)])
  ∧ ∃ a l' h',
      insert (iterator_at (Some 4%positive)) 7 digits sample_store
      = Ok ((iterator_at (Some a), l'), h')
      ∧ sample_store !! a = None
      ∧ is_list h' l' [(3%positive, 1); (a, 7); (4%positive, 2); (5%positive, 3)]
      ∧ numElements l' = 4.
Proof.
  split; [apply digits_is_list|].
  destruct (insert_before_position sample_store digits
              [(3%positive, 1)] [(4%positive, 2); (5%positive, 3)]
              (iterator_at (Some 4%positive)) 7 digits_is_list)
    as (a & l' & h' & Hrun & Ha & _ & Hl' & Hn & _); [done|evaluate|].
  by exists a, l', h'.
Defined.

(** C5 on a short program that constructs, pushes, pops and swaps. *)
Lemma reachable_list_invariants_witness :
  ∃ w l,
    run id [ConstructIl [1; 2; 3]; PushFront 0 0; PopBack 0; Construct; Swap 0 1]
      init = Ok w
    ∧ vars w !! 1%nat = Some l
    ∧ ∃ ps,
        path (store w) (pHead l) ps
        ∧ last ps = pTail l
        ∧ size l = Z.of_nat (length ps)
        ∧ empty l = (size l =? 0).
Proof.
  eexists _, _. split; [vm_compute; reflexivity|]. split; [vm_compute; reflexivity|].
  match goal with
  | |- ∃ ps, path (store ?w) (pHead ?l) ps ∧ _ =>
      destruct (reachable_list_invariants id
                  [ConstructIl [1; 2; 3]; PushFront 0 0; PopBack 0; Construct; Swap 0 1]
                  w 1%nat l)
        as (ps & Hp & Hlast & Hsz & Hemp & _);
        [vm_compute; reflexivity|vm_compute; reflexivity|]
  end.
  exists ps. split_and!; assumption.
Defined.

(** C6 on the sample store: assigning [{1, 2, 3}] onto [[9, 9]]. *)
Lemma assign_il_matches_literal_witness :
  is_list sample_store nines nines_nodes
  ∧ ∃ l' h',
      assign_il nines [1; 2; 3] sample_store = Ok (l', h')
      ∧ to_list l' h' = Ok ([1; 2; 3], h')
      ∧ size l' = 3.
Proof.
  split; [apply nines_is_list|].
  destruct (assign_il_matches_literal sample_store nines nines_nodes [1; 2; 3]
              nines_is_list)
    as [(l' & h' & ys & added & Hrun & _ & _ & Hsz & Hto & _) _]; [evaluate|].
  by exists l', h'.
Defined.

(** C7 for the sequence 1, 2, 3 built in the empty store. *)
Lemma construct_roundtrip_witness :
  ∃ l h',
    list_il [1; 2; 3] (∅ : gmap loc (Node Z)) = Ok (l, h')
    ∧ to_list l h' = Ok ([1; 2; 3], h')
    ∧ to_list_rev l h' = Ok ([3; 2; 1], h').
Proof.
  destruct (construct_roundtrip [1; 2; 3] (∅ : gmap loc (Node Z)))
    as (l & h' & Hil & _ & Hto & Hrev & _); [evaluate|].
  by exists l, h'.
Defined.

(** C8 on the sample store: the ends of [[1, 2, 3]]. *)
Lemma front_back_access_witness :
  is_list sample_store digits digits_nodes
  ∧ front digits sample_store = Ok (3%positive, sample_store)
  ∧ read_ref 3%positive sample_store = Ok (1, sample_store)
  ∧ back digits sample_store = Ok (5%positive, sample_store)
  ∧ read_ref 5%positive sample_store = Ok (3, sample_store).
Proof.
  split; [apply digits_is_list|].
  destruct (front_back_access _ _ _ digits_is_list) as (_ & _ & Hf & Hb).
  destruct (Hf 3%positive 1 [(4%positive, 2); (5%positive, 3)] eq_refl)
    as (Hfront & _ & Hread & _).
  destruct (Hb 5%positive 3 [(3%positive, 1); (4%positive, 2)] eq_refl)
    as (Hback & _ & Hreadb & _).
  done.
Defined.
(** C10 on the sample store: postfix moves from the middle node of
    [[1, 2, 3]]. *)
Lemma postfix_returns_moved_iterator_witness :
  is_list sample_store digits
    ([(3%positive, 1)] ++ (4%positive, 2) :: [(5%positive, 3)])
  ∧ post_incr (mkIt (Some 4%positive)) sample_store
    = Ok ((mkIt (Some 5%positive), mkIt (Some 5%positive)), sample_store)
  ∧ post_decr (mkIt (Some 4%positive)) sample_store
    = Ok ((mkIt (Some 3%positive), mkIt (Some 3%positive)), sample_store).
Proof.
  split; [apply digits_is_list|].
  destruct (postfix_returns_moved_iterator sample_store (mkIt None))
    as (_ & _ & _ & Hnode).
  destruct (Hnode digits [(3%positive, 1)] 4%positive 2 [(5%positive, 3)]
              digits_is_list) as (Hincr & Hdecr & _).
  done.
Defined.

(** ** The further properties on the sample data *)

(** X1 on the sample store: 7 pushed at the back of [[1, 2, 3]]. *)
Lemma push_back_appends_witness :
  is_list sample_store digits digits_nodes
  ∧ ∃ l' h',
      push_back 7 digits sample_store = Ok (l', h')
      ∧ to_list l' h' = Ok ([1; 2; 3; 7], h')
      ∧ size l' = 4.
Proof.
  split; [apply digits_is_list|].
  destruct (push_back_appends sample_store digits digits_nodes 7 digits_is_list)
    as (a & l' & h' & Hrun & _ & _ & _ & Hto & _ & Hsz & _); [evaluate|].
  by exists l', h'.
Defined.

(** X2 on the sample store: 7 pushed at the front of [[1, 2, 3]]. *)
Lemma push_front_prepends_witness :
  is_list sample_store digits digits_nodes
  ∧ ∃ l' h',
      push_front 7 digits sample_store = Ok (l', h')
      ∧ to_list l' h' = Ok ([7; 1; 2; 3], h')
      ∧ size l' = 4.
Proof.
  split; [apply digits_is_list|].
  destruct (push_front_prepends sample_store digits digits_nodes 7 digits_is_list)
    as (a & l' & h' & Hrun & _ & _ & _ & Hto & _ & Hsz & _); [evaluate|].
  by exists l', h'.
Defined.

(** X3 on the sample store: clearing [[1, 2, 3]] releases three nodes. *)
Lemma clear_releases_all_witness :
  is_list sample_store digits digits_nodes
  ∧ ∃ h',
      clear digits sample_store = Ok (list_default, h')
      ∧ (base.size h' + 3 = base.size sample_store)%nat.
Proof.
  split; [apply digits_is_list|].
  destruct (clear_releases_all sample_store digits digits_nodes digits_is_list)
    as (h' & Hrun & _ & _ & _ & Hsz & _).
  by exists h'.
Defined.


(** X5 in the empty store: three copies of 7. *)
Lemma fill_constructor_replicates_witness :
  0 ≤ 3 ≤ INT_MAX
  ∧ ∃ l h',
      list_fill 3 7 (∅ : gmap loc (Node Z)) = Ok (l, h')
      ∧ to_list l h' = Ok ([7; 7; 7], h')
      ∧ size l = 3.
Proof.
  split; [evaluate|].
  destruct (fill_constructor_replicates (∅ : gmap loc (Node Z)) 3 7)
    as (l & h' & xs & Hrun & _ & _ & _ & Hto & Hsz & _); [evaluate|evaluate|].
  by exists l, h'.
Defined.

(** X6 in the empty store: a request for [INT_MAX + 1] elements. *)
Lemma fill_constructor_overflows_witness :
  INT_MAX < 2147483648
  ∧ list_fill 2147483648 7 (∅ : gmap loc (Node Z)) = Err UB.
Proof.
  split; [reflexivity|].
  apply (fill_constructor_overflows (∅ : gmap loc (Node Z)) 2147483648 7);
    reflexivity.
Defined.

(** X7 on the sample store: a copy of [[1, 2, 3]]. *)
Lemma copy_constructor_copies_witness :
  is_list sample_store digits digits_nodes
  ∧ ∃ l h',
      list_copy digits sample_store = Ok (l, h')
      ∧ to_list l h' = Ok ([1; 2; 3], h')
      ∧ is_list h' digits digits_nodes.
Proof.
  split; [apply digits_is_list|].
  destruct (copy_constructor_copies sample_store digits digits_nodes digits_is_list)
    as (l & h' & xs & Hrun & _ & _ & Hto & _ & _ & Hr & _); [evaluate|].
  by exists l, h'.
Defined.

(** X8 on the sample store: [[1, 2, 3]] assigned to itself. *)
Lemma copy_assign_self_unchanged_witness :
  is_list sample_store digits digits_nodes
  ∧ assign_copy digits digits sample_store = Ok (digits, sample_store).
Proof.
  split; [apply digits_is_list|].
  apply (copy_assign_self_unchanged sample_store digits digits_nodes digits_is_list).
Defined.

(** X9 on the sample store: 7 pushed onto [[1, 2, 3]] and popped. *)
Lemma push_pop_round_trip_witness :
  is_list sample_store digits digits_nodes
  ∧ (let* l1 := push_back 7 digits in pop_back l1) sample_store
    = Ok (digits, sample_store)
  ∧ (let* l1 := push_front 7 digits in pop_front l1) sample_store
    = Ok (digits, sample_store).
Proof.
  split; [apply digits_is_list|].
  apply (push_pop_round_trip sample_store digits digits_nodes 7 digits_is_list).
  evaluate.
Defined.

(** X10 on the sample store: 7 inserted before the middle node of
    [[1, 2, 3]] and erased. *)
Lemma insert_erase_round_trip_witness :
  is_list sample_store digits
    ([(3%positive, 1)] ++ [(4%positive, 2); (5%positive, 3)])
  ∧ (let* r := insert (mkIt (Some 4%positive)) 7 digits in erase (fst r) (snd r))
      sample_store
    = Ok ((mkIt (Some 4%positive), digits), sample_store).
Proof.
  split; [apply digits_is_list|].
  apply (insert_erase_round_trip sample_store digits
           [(3%positive, 1)] [(4%positive, 2); (5%positive, 3)]
           (mkIt (Some 4%positive)) 7 digits_is_list); [reflexivity|evaluate].
Defined.

(** X11 on the sample store: [erase] on [[9, 9]] with an iterator on the
    head of [[1, 2, 3]]. *)
Lemma erase_foreign_end_asserts_witness :
  is_list sample_store nines nines_nodes
  ∧ is_list sample_store digits digits_nodes
  ∧ erase (iterator_at (Some 3%positive)) nines sample_store = Err AssertFail.
Proof.
  split; [apply nines_is_list|]. split; [apply digits_is_list|].
  apply (erase_foreign_end_asserts sample_store nines digits nines_nodes digits_nodes
           3%positive nines_is_list digits_is_list sample_disjoint).
  left. reflexivity.
Defined.

(** X12 on the sample store: from the tail of [[1, 2, 3]]. *)
Lemma incr_decr_round_trip_witness :
  is_list sample_store digits
    ([(3%positive, 1); (4%positive, 2)] ++ (5%positive, 3) :: [])
  ∧ (let* it := pre_incr (mkIt (Some 5%positive)) in pre_decr it) sample_store
    = Ok (mkIt None, sample_store)
  ∧ (let* it := pre_decr (mkIt (Some 5%positive)) in pre_incr it) sample_store
    = Ok (mkIt (Some 5%positive), sample_store).
Proof.
  split; [apply digits_is_list|].
  apply (incr_decr_round_trip sample_store digits
           [(3%positive, 1); (4%positive, 2)] 5%positive 3 [] digits_is_list).
Defined.

(** X13 on the sample store: [[1, 2, 3]] is not empty. *)
Lemma begin_is_end_iff_empty_witness :
  is_list sample_store digits digits_nodes
  ∧ it_eq (begin digits) (end_ digits) = empty digits
  ∧ it_eq (rbegin digits) (end_ digits) = empty digits
  ∧ empty digits = false.
Proof.
  destruct (begin_is_end_iff_empty sample_store digits digits_nodes digits_is_list)
    as (H1 & H2 & _).
  split; [apply digits_is_list|]. split; [exact H1|]. split; [exact H2|reflexivity].
Defined.

(** X14 on the sample store: [[1, 2, 3]] moved onto [[9, 9]], for an
    element type whose moved-from state is 0. *)
Lemma move_assign_source_values_witness :
  is_list sample_store nines nines_nodes
  ∧ is_list sample_store digits digits_nodes
  ∧ ∃ l' h',
      assign_move (λ _, 0) nines digits sample_store = Ok (l', h')
      ∧ to_list l' h' = Ok ([1; 2; 3], h')
      ∧ to_list digits h' = Ok ([0; 0; 3], h').
Proof.
  split; [apply nines_is_list|]. split; [apply digits_is_list|].
  destruct (move_assign_source_values (λ _, 0) sample_store nines digits
              nines_nodes digits_nodes nines_is_list digits_is_list sample_disjoint)
    as (l' & h' & Hrun & Hto & Hsrc & _); [evaluate|].
  by exists l', h'.
Defined.

(** X15 on the sample store: 7 inserted at the beginning of [[1, 2, 3]]. *)
Lemma insert_begin_is_push_front_witness :
  is_list sample_store digits digits_nodes
  ∧ insert (begin digits) 7 digits sample_store
    = (let* l' := push_front 7 digits in ret (begin l', l')) sample_store.
Proof.
  split; [apply digits_is_list|].
  apply (insert_begin_is_push_front sample_store digits digits_nodes 7 digits_is_list).
Defined.

(** X16 on the sample store: the last element of [[1, 2, 3]] popped. *)
Lemma pop_removes_end_witness :
  is_list sample_store digits ([(3%positive, 1); (4%positive, 2)] ++ [(5%positive, 3)])
  ∧ ∃ l' h',
      pop_back digits sample_store = Ok (l', h')
      ∧ to_list l' h' = Ok ([1; 2], h')
      ∧ h' !! 5%positive = None.
Proof.
  split; [apply digits_is_list|].
  destruct (proj1 (pop_removes_end sample_store digits
                     [(3%positive, 1); (4%positive, 2)] 5%positive 3) digits_is_list)
    as (l' & h' & Hrun & _ & Hto & _ & Hgone & _).
  by exists l', h'.
Defined.
(** X17 on a short program: the second list is walked both ways. *)
Lemma reachable_traversals_agree_witness :
  ∃ w l,
    run id [ConstructIl [1; 2; 3]; PushFront 0 0; ConstructCopy 0; PopBack 0]
      init = Ok w
    ∧ vars w !! 1%nat = Some l
    ∧ to_list l (store w) = Ok ([0; 1; 2; 3], store w)
    ∧ to_list_rev l (store w) = Ok ([3; 2; 1; 0], store w).
Proof.
  eexists _, _. split; [vm_compute; reflexivity|]. split; [vm_compute; reflexivity|].
  match goal with
  | |- to_list ?l (store ?w) = _ ∧ _ =>
      destruct (reachable_traversals_agree id
                  [ConstructIl [1; 2; 3]; PushFront 0 0; ConstructCopy 0; PopBack 0]
                  w 1%nat l)
        as (vs & Hto & Hrev & _ & _);
        [vm_compute; reflexivity|vm_compute; reflexivity|]
  end.
  split; vm_compute; reflexivity.
Defined.

(** X18 on a short program: five nodes, in lists of sizes 2 and 3. *)
Lemma reachable_store_balanced_witness :
  ∃ w,
    run id [ConstructIl [1; 2; 3]; PushFront 0 0; ConstructCopy 0;
            AssignMove 1 0; PopBack 0; Erase 0 1; PopFront 1] init = Ok w
    ∧ Z.of_nat (base.size (store w)) = total_size (vars w).
Proof.
  eexists. split; [vm_compute; reflexivity|].
  apply (reachable_store_balanced id
           [ConstructIl [1; 2; 3]; PushFront 0 0; ConstructCopy 0;
            AssignMove 1 0; PopBack 0; Erase 0 1; PopFront 1]).
  vm_compute; reflexivity.
Defined.

(** X19 on a short program: the store is empty after the destructors. *)
Lemma exit_scope_frees_everything_witness :
  ∃ w,
    run id [ConstructIl [1; 2; 3]; PushFront 0 0; ConstructCopy 0;
            AssignMove 1 0; PopBack 0; ConstructMove 1; Swap 0 2] init = Ok w
    ∧ exit_scope w = Ok (tt, ∅).
Proof.
  eexists. split; [vm_compute; reflexivity|].
  apply (exit_scope_frees_everything id
           [ConstructIl [1; 2; 3]; PushFront 0 0; ConstructCopy 0;
            AssignMove 1 0; PopBack 0; ConstructMove 1; Swap 0 2]).
  vm_compute; reflexivity.
Defined.

(** X20 on the sample store: 7 inserted at index 1 of [[1, 2, 3]]. *)
Lemma insert_at_index_witness :
  is_list sample_store digits digits_nodes
  ∧ ∃ a l' h',
      (let* it := advance 1 (begin digits) in insert it 7 digits) sample_store
      = Ok ((iterator_at (Some a), l'), h')
      ∧ to_list l' h' = Ok ([1; 7; 2; 3], h').
Proof.
  split; [apply digits_is_list|].
  destruct (insert_at_index sample_store digits digits_nodes 1 7 digits_is_list)
    as (a & l' & h' & Hrun & _ & _ & Hto & _); [evaluate|].
  by exists a, l', h'.
Defined.

(** X21 on the sample store: the element at index 1 of [[1, 2, 3]] erased. *)
Lemma erase_at_index_witness :
  is_list sample_store digits digits_nodes
  ∧ ∃ l' h',
      (let* it := advance 1 (begin digits) in erase it digits) sample_store
      = Ok ((iterator_at (Some 5%positive), l'), h')
      ∧ to_list l' h' = Ok ([1; 3], h').
Proof.
  split; [apply digits_is_list|].
  destruct (erase_at_index sample_store digits digits_nodes 1 digits_is_list)
    as (l' & h' & Hrun & _ & Hto & _).
  by exists l', h'.
Defined.

(** X22 on the sample store: index 2 of [[1, 2, 3]] and index 3, past the
    end. *)
Lemma element_by_increments_witness :
  is_list sample_store digits digits_nodes
  ∧ (let* it := advance 2 (begin digits) in let* r := deref it in read_ref r)
      sample_store
    = Ok (3, sample_store)
  ∧ (let* it := advance 3 (begin digits) in deref it) sample_store
    = Err (Throw empty_list_msg).
Proof.
  split; [apply digits_is_list|]. split.
  - apply (proj1 (element_by_increments sample_store digits digits_nodes 2
                    digits_is_list)). reflexivity.
  - apply (proj2 (element_by_increments sample_store digits digits_nodes 3
                    digits_is_list)). simpl. lia.
Defined.

(** X23 on the sample store: 7 written over the middle element of
    [[1, 2, 3]]. *)
Lemma write_through_iterator_witness :
  is_list sample_store digits
    ([(3%positive, 1)] ++ (4%positive, 2) :: [(5%positive, 3)])
  ∧ ∃ h',
      (let* r := deref (mkIt (Some 4%positive)) in write_ref r 7) sample_store
      = Ok (tt, h')
      ∧ to_list digits h' = Ok ([1; 7; 3], h').
Proof.
  split; [apply digits_is_list|].
  destruct (write_through_iterator sample_store digits
              [(3%positive, 1)] 4%positive 2 [(5%positive, 3)] 7 digits_is_list)
    as (h' & Hrun & _ & Hto & _).
  by exists h'.
Defined.

(** X24 on the sample store: [erase] on [[9, 9]] with an iterator on the
    middle node of [[1, 2, 3]]. *)
Lemma erase_foreign_interior_witness :
  is_list sample_store nines nines_nodes
  ∧ is_list sample_store digits digits_nodes
  ∧ ∃ l' h',
      erase (iterator_at (Some 4%positive)) nines sample_store
      = Ok ((iterator_at (Some 5%positive), l'), h')
      ∧ size l' = 1
      ∧ to_list l' h' = Ok ([9; 9], h')
      ∧ to_list digits h' = Ok ([1; 3], h')
      ∧ size digits = 3.
Proof.
  split; [apply nines_is_list|]. split; [apply digits_is_list|].
  destruct (erase_foreign_interior sample_store nines digits nines_nodes
              [] 3%positive 1 4%positive 2 5%positive 3 []
              nines_is_list digits_is_list sample_disjoint)
    as (l' & h' & Hrun & _ & _ & Hsz & Hto & _ & Htor & Hszr).
  exists l', h'. split_and!; [exact Hrun|exact Hsz|exact Hto|exact Htor|reflexivity].
Defined.

(** X25 on the sample store: the range from index 1 to index 2 of
    [[1, 2, 3]]. *)
Lemma range_constructor_copies_range_witness :
  is_list sample_store digits
    ([(3%positive, 1)] ++ [(4%positive, 2)] ++ [(5%positive, 3)])
  ∧ ∃ l h',
      list_range_iter (mkIt (Some 4%positive)) (mkIt (Some 5%positive)) sample_store
      = Ok (l, h')
      ∧ to_list l h' = Ok ([2], h')
      ∧ is_list h' digits digits_nodes.
Proof.
  split; [apply digits_is_list|].
  destruct (range_constructor_copies_range sample_store digits
              [(3%positive, 1)] [(4%positive, 2)] [(5%positive, 3)] digits_is_list)
    as (l & h' & new & Hrun & _ & _ & Hto & _ & Hr & _); [evaluate|].
  by exists l, h'.
Defined.

(** X26 on the sample store: a range from index 1 of [[1, 2, 3]] whose end
    is the head. *)
Lemma range_constructor_overrun_witness :
  is_list sample_store digits
    ([(3%positive, 1)] ++ [(4%positive, 2); (5%positive, 3)])
  ∧ list_range_iter (mkIt (Some 4%positive)) (mkIt (Some 3%positive)) sample_store
    = Err (Throw empty_list_msg).
Proof.
  split; [apply digits_is_list|].
  apply (range_constructor_overrun sample_store digits
           [(3%positive, 1)] [(4%positive, 2); (5%positive, 3)] 3%positive
           digits_is_list).
  - simpl. set_solver.
  - evaluate.
Defined.

(** X27 on the sample store: [[1, 2, 3]] copy-assigned onto [[9, 9]]. *)
Lemma copy_assign_reuses_nodes_witness :
  is_list sample_store nines nines_nodes
  ∧ is_list sample_store digits digits_nodes
  ∧ ∃ l' h' zs added,
      assign_copy nines digits sample_store = Ok (l', h')
      ∧ is_list h' l' zs
      ∧ zs.*2 = [1; 2; 3]
      ∧ zs.*1 = [1%positive; 2%positive] ++ added
      ∧ length added = 1%nat.
Proof.
  split; [apply nines_is_list|]. split; [apply digits_is_list|].
  destruct (copy_assign_reuses_nodes sample_store nines digits nines_nodes digits_nodes
              nines_is_list digits_is_list sample_disjoint)
    as (l' & h' & zs & added & Hrun & Hl' & Hvals & Hnodes & Hlen & _); [evaluate|].
  by exists l', h', zs, added.
Defined.

End custom.
